(** * expo-geofencing: the evaluation engine and its offline pipeline

    A shallow embedding of [src/PolygonGeofence.ts], [src/OfflineManager.ts]
    and the retry logic of [src/WebhookManager.ts].

    Conventions of the embedding
    - a JavaScript [number] that holds a coordinate, a distance or a delay is
      a real number ([R]): IEEE rounding, NaN and the infinities are left out;
      a timestamp is an integer where the code takes it apart with [Date],
      and a number like any other where it is only stored and copied;
    - a [Map] is an association list in insertion order, a [Set] a
      duplicate-free list in insertion order;
    - objects that the code shares and mutates are kept in the container that
      owns them and are updated in place there (by key or by index);
    - what the host environment decides (time zone, network outcome of a
      delivery, [Math.random], generated identifiers) is an explicit argument. *)

From Stdlib Require Import Reals Lra Lia ZArith List ListSet Bool String Ascii.
Import ListNotations.

Set Implicit Arguments.

(** ** JavaScript [Map]: association lists in insertion order *)

Module JsMap.
Section WithKey.
Variables K V : Type.
Variable K_dec : forall a b : K, {a = b} + {a <> b}.

Definition t := list (K * V).

Fixpoint get (m : t) (k : K) : option V :=
  match m with
  | [] => None
  | (k', v) :: r => if K_dec k k' then Some v else get r k
  end.

Definition has (m : t) (k : K) : bool :=
  match get m k with Some _ => true | None => false end.

(** [set] on a present key keeps the entry at its position. *)
Fixpoint set (m : t) (k : K) (v : V) : t :=
  match m with
  | [] => [(k, v)]
  | (k', v') :: r =>
      if K_dec k k' then (k, v) :: r else (k', v') :: set r k v
  end.

Fixpoint delete (m : t) (k : K) : t :=
  match m with
  | [] => []
  | (k', v') :: r =>
      if K_dec k k' then delete r k else (k', v') :: delete r k
  end.

Definition values (m : t) : list V := map snd m.
Definition keys (m : t) : list K := map fst m.

End WithKey.
End JsMap.

(** ** Numbers *)

Open Scope R_scope.

Definition Rltb (x y : R) : bool := if Rlt_dec x y then true else false.
Definition Rleb (x y : R) : bool := if Rle_dec x y then true else false.
Definition Rgtb (x y : R) : bool := Rltb y x.

(** A number in a condition: [0] is falsy, every other real is truthy. *)
Definition truthy (x : R) : bool := if Req_dec_T x 0 then false else true.

(** [Math.atan2 y x] on reals. *)
Definition atan2 (y x : R) : R :=
  if Rlt_dec 0 x then atan (y / x)
  else if Rlt_dec x 0 then
         (if Rle_dec 0 y then atan (y / x) + PI else atan (y / x) - PI)
  else if Rlt_dec 0 y then PI / 2
  else if Rlt_dec y 0 then - (PI / 2)
  else 0.

(** [Math.floor]. *)
Definition floor (x : R) : Z := Zfloor x.

(** [Math.round]: the nearest integer, a tie going up. *)
Definition round (x : R) : Z := Zfloor (x + 1 / 2).

(** ** [src/PolygonGeofence.ts]: the data model *)

Module PolygonGeofence.

Record Point := { latitude : R; longitude : R }.

(** [GeofenceHierarchy]; [overrides] is never read by the manager and is
    left out. *)
Record GeofenceHierarchy := {
  h_id : string;
  parentId : option string;
  children : list string;
  inheritSettings : bool
}.

Record TimeBasedRule := {
  t_id : string;
  startTime : string;   (* HH:MM *)
  endTime : string;     (* HH:MM *)
  daysOfWeek : list Z;  (* 0-6, Sunday = 0 *)
  timezone : option string;
  t_isActive : bool
}.

Inductive Condition := weather | traffic | activity | custom.
Inductive Operator := equals | greater_than | less_than | contains.

(** [ConditionalRule]; [value] has type [any] and is never read. *)
Record ConditionalRule := {
  c_id : string;
  condition : Condition;
  operator : Operator;
  c_isActive : bool
}.

Record BoundingBox := { minLat : R; maxLat : R; minLng : R; maxLng : R }.

Inductive RegionType := circle | polygon.

(** [AdvancedGeofenceRegion].  Of [metadata] the manager reads and writes
    only the key [wasInside]; the field [wasInside] is that key ([None]: no
    metadata, or no such key).  [timeRules] and [conditionalRules] are the
    arrays, the empty list also standing for an absent one.  [boundingBox]
    is [None] for the box [+Infinity .. -Infinity] that [Math.min()] and
    [Math.max()] of no vertices give; it spans no grid cell. *)
Record AdvancedGeofenceRegion := {
  id : string;
  vertices : list Point;
  notifyOnEntry : bool;
  notifyOnExit : bool;
  wasInside : option bool;
  type : RegionType;
  center : option Point;
  radius : option R;
  timeRules : list TimeBasedRule;
  conditionalRules : list ConditionalRule;
  hierarchy : option GeofenceHierarchy;
  boundingBox : option BoundingBox
}.

Definition with_boundingBox (g : AdvancedGeofenceRegion) (b : option BoundingBox) :=
  {| id := id g; vertices := vertices g; notifyOnEntry := notifyOnEntry g;
     notifyOnExit := notifyOnExit g; wasInside := wasInside g; type := type g;
     center := center g; radius := radius g; timeRules := timeRules g;
     conditionalRules := conditionalRules g; hierarchy := hierarchy g;
     boundingBox := b |}.

(** [geofence.metadata = { ...geofence.metadata, wasInside: v }] *)
Definition with_wasInside (g : AdvancedGeofenceRegion) (v : bool) :=
  {| id := id g; vertices := vertices g; notifyOnEntry := notifyOnEntry g;
     notifyOnExit := notifyOnExit g; wasInside := Some v; type := type g;
     center := center g; radius := radius g; timeRules := timeRules g;
     conditionalRules := conditionalRules g; hierarchy := hierarchy g;
     boundingBox := boundingBox g |}.

(** A grid cell.  The source keys the index by the string [lat,lng] of the
    two cell numbers; the pair is that key before printing. *)
Definition Cell := (Z * Z)%type.

Definition Cell_dec : forall a b : Cell, {a = b} + {a <> b}.
Proof. decide equality; apply Z.eq_dec. Defined.

(** The manager.  The hierarchy ledger maps an id to a hierarchy object; one
    object can sit under two keys and is mutated in place, so the objects
    live in [hierarchyObjects] and the ledger holds their positions. *)
Record Manager := {
  geofences : list (string * AdvancedGeofenceRegion);
  spatialIndex : list (Cell * list string);
  hierarchies : list (string * nat);
  hierarchyObjects : list GeofenceHierarchy
}.

Definition empty : Manager :=
  {| geofences := []; spatialIndex := []; hierarchies := [];
     hierarchyObjects := [] |}.

Definition GRID_SIZE : R := 1 / 100.

(** ** Containment *)

Definition toRadians (degrees : R) : R := degrees * (PI / 180).

Definition calculateDistance (lat1 lon1 lat2 lon2 : R) : R :=
  let R_earth := 6371000 in
  let dLat := toRadians (lat2 - lat1) in
  let dLon := toRadians (lon2 - lon1) in
  let a := sin (dLat / 2) * sin (dLat / 2) +
           cos (toRadians lat1) * cos (toRadians lat2) *
           sin (dLon / 2) * sin (dLon / 2) in
  let c := 2 * atan2 (sqrt a) (sqrt (1 - a)) in
  R_earth * c.

Definition isPointInCircle (point : Point) (geofence : AdvancedGeofenceRegion) : bool :=
  match center geofence, radius geofence with
  | Some c, Some r =>
      if truthy r then
        Rleb (calculateDistance (latitude point) (longitude point)
                                (latitude c) (longitude c)) r
      else false
  | _, _ => false
  end.

(** The test of one edge, from vertex [vj] to vertex [vi]. *)
Definition edgeCrosses (point vi vj : Point) : bool :=
  let x := longitude point in
  let y := latitude point in
  let xi := longitude vi in
  let yi := latitude vi in
  let xj := longitude vj in
  let yj := latitude vj in
  xorb (Rgtb yi y) (Rgtb yj y) &&
  Rltb x ((xj - xi) * (y - yi) / (yj - yi) + xi).

(** The loop [for (i = 0, j = length - 1; i < length; j = i++)]: [vj] is the
    vertex before the head of the list. *)
Fixpoint rayCast (point vj : Point) (vs : list Point) (inside : bool) : bool :=
  match vs with
  | [] => inside
  | vi :: rest =>
      rayCast point vi rest
        (if edgeCrosses point vi vj then negb inside else inside)
  end.

Definition origin : Point := {| latitude := 0; longitude := 0 |}.

Definition isPointInPolygon (point : Point) (vs : list Point) : bool :=
  if (List.length vs <? 3)%nat then false
  else rayCast point (last vs origin) vs false.

Definition isPointInside (point : Point) (geofence : AdvancedGeofenceRegion) : bool :=
  match type geofence with
  | circle => isPointInCircle point geofence
  | polygon => isPointInPolygon point (vertices geofence)
  end.

(** ** Bounding box and grid *)

Definition minOf (x : R) (xs : list R) : R := fold_left Rmin xs x.
Definition maxOf (x : R) (xs : list R) : R := fold_left Rmax xs x.

Definition polygonBox (vs : list Point) : option BoundingBox :=
  match vs with
  | [] => None
  | v :: rest =>
      let lats := map latitude rest in
      let lngs := map longitude rest in
      Some {| minLat := minOf (latitude v) lats;
              maxLat := maxOf (latitude v) lats;
              minLng := minOf (longitude v) lngs;
              maxLng := maxOf (longitude v) lngs |}
  end.

Definition circleBox (c : Point) (r : R) : BoundingBox :=
  let latOffset := r / 111000 in
  let lngOffset := latOffset / cos (latitude c * PI / 180) in
  {| minLat := latitude c - latOffset;
     maxLat := latitude c + latOffset;
     minLng := longitude c - lngOffset;
     maxLng := longitude c + lngOffset |}.

Definition calculateBoundingBox (geofence : AdvancedGeofenceRegion) : option BoundingBox :=
  match type geofence, center geofence, radius geofence with
  | circle, Some c, Some r =>
      if truthy r then Some (circleBox c r) else polygonBox (vertices geofence)
  | _, _, _ => polygonBox (vertices geofence)
  end.

Definition getGridCell (lat lng : R) : Cell :=
  (floor (lat / GRID_SIZE), floor (lng / GRID_SIZE)).

(** The integers [a, a+1, ..., b] of a counting loop. *)
Definition range (a b : Z) : list Z :=
  map (fun i => (a + Z.of_nat i)%Z) (seq 0 (Z.to_nat (b - a + 1))).

Definition getGridCells (b : BoundingBox) : list Cell :=
  let minLatGrid := floor (minLat b / GRID_SIZE) in
  let maxLatGrid := floor (maxLat b / GRID_SIZE) in
  let minLngGrid := floor (minLng b / GRID_SIZE) in
  let maxLngGrid := floor (maxLng b / GRID_SIZE) in
  flat_map (fun lat => map (fun lng => (lat, lng)) (range minLngGrid maxLngGrid))
           (range minLatGrid maxLatGrid).

Definition getAdjacentCells (cellKey : Cell) : list Cell :=
  let (lat, lng) := cellKey in
  flat_map (fun dLat =>
    flat_map (fun dLng =>
      if ((dLat =? 0) && (dLng =? 0))%Z then []
      else [((lat + dLat)%Z, (lng + dLng)%Z)])
      [-1; 0; 1]%Z)
    [-1; 0; 1]%Z.

(** ** Activation gate: time rules *)

(** [String.prototype.split] on a one-character separator. *)
Fixpoint split (sep : ascii) (s : string) : list string :=
  match s with
  | EmptyString => [EmptyString]
  | String c r =>
      if Ascii.eqb c sep then EmptyString :: split sep r
      else match split sep r with
           | h :: t => String c h :: t
           | [] => [String c EmptyString]
           end
  end.

Definition digitValue (c : ascii) : option Z :=
  let n := nat_of_ascii c in
  if ((48 <=? n) && (n <=? 57))%nat then Some (Z.of_nat (n - 48)) else None.

Fixpoint parseDigits (s : string) (acc : Z) : option Z :=
  match s with
  | EmptyString => Some acc
  | String c r =>
      match digitValue c with
      | Some d => parseDigits r (acc * 10 + d)%Z
      | None => None
      end
  end.

(** [Number(s)] for the strings of an HH:MM time: a run of decimal digits
    (the empty string is 0).  Every other string is taken as NaN, [None]. *)
Definition Number (s : string) : option Z := parseDigits s 0%Z.

(** [hours * 60 + minutes] of [time.split(':').map(Number)]; a missing second
    part is [undefined] and makes the sum NaN. *)
Definition timeToMinutes (time : string) : option Z :=
  match split ":" time with
  | h :: m :: _ =>
      match Number h, Number m with
      | Some hours, Some minutes => Some (hours * 60 + minutes)%Z
      | _, _ => None
      end
  | _ => None
  end.

(** Comparisons of possibly-NaN numbers: false as soon as one side is NaN. *)
Definition nan_le (a b : option Z) : bool :=
  match a, b with Some x, Some y => (x <=? y)%Z | _, _ => false end.
Definition nan_ge (a b : option Z) : bool := nan_le b a.

Definition isTimeInRange (time startTime endTime : string) : bool :=
  let timeMinutes := timeToMinutes time in
  let startMinutes := timeToMinutes startTime in
  let endMinutes := timeToMinutes endTime in
  if nan_le startMinutes endMinutes then
    nan_ge timeMinutes startMinutes && nan_le timeMinutes endMinutes
  else
    nan_ge timeMinutes startMinutes || nan_le timeMinutes endMinutes.

(** [Number.prototype.toString] of a natural number below 100, which is all
    that hours and minutes need, and [padStart(2, '0')]. *)
Definition digitChar (d : Z) : ascii := ascii_of_nat (48 + Z.to_nat d).

Definition toString (n : Z) : string :=
  if (n <? 10)%Z then String (digitChar n) EmptyString
  else String (digitChar (n / 10)) (String (digitChar (n mod 10)) EmptyString).

Definition padStart2 (s : string) : string :=
  match String.length s with
  | O => "00"
  | S O => String "0" s
  | _ => s
  end.

Section LocalTime.
(** The host's time zone: the minutes to add to UTC at an instant to get
    local time (the opposite of [Date.prototype.getTimezoneOffset]). *)
Variable utcOffsetMinutes : Z -> Z.

Definition localMillis (timestamp : Z) : Z :=
  (timestamp + utcOffsetMinutes timestamp * 60000)%Z.

(** 1 January 1970 was a Thursday (day 4). *)
Definition getDay (timestamp : Z) : Z :=
  ((localMillis timestamp / 86400000 + 4) mod 7)%Z.
Definition getHours (timestamp : Z) : Z :=
  ((localMillis timestamp / 3600000) mod 24)%Z.
Definition getMinutes (timestamp : Z) : Z :=
  ((localMillis timestamp / 60000) mod 60)%Z.

Definition timeString (timestamp : Z) : string :=
  (padStart2 (toString (getHours timestamp)) ++ ":" ++
   padStart2 (toString (getMinutes timestamp)))%string.

Definition includes (days : list Z) (d : Z) : bool :=
  existsb (fun x => (x =? d)%Z) days.

(** One turn of the loop over the rules: the rule lets the region through. *)
Definition ruleMatches (rule : TimeBasedRule) (timestamp : Z) : bool :=
  t_isActive rule &&
  includes (daysOfWeek rule) (getDay timestamp) &&
  isTimeInRange (timeString timestamp) (startTime rule) (endTime rule).

Definition isTimeRuleActive (geofence : AdvancedGeofenceRegion) (timestamp : Z) : bool :=
  match timeRules geofence with
  | [] => true
  | rules => existsb (fun rule => ruleMatches rule timestamp) rules
  end.
End LocalTime.

(** ** Activation gate: conditional rules (the source's stub) *)

Definition areConditionalRulesActive (geofence : AdvancedGeofenceRegion) : bool :=
  match conditionalRules geofence with
  | [] => true
  | rules => forallb c_isActive rules
  end.

(** ** Spatial index *)

Definition Index := list (Cell * list string).

Definition addCell (geoId : string) (index : Index) (cell : Cell) : Index :=
  let index1 :=
    if JsMap.has Cell_dec index cell then index
    else JsMap.set Cell_dec index cell (empty_set string) in
  match JsMap.get Cell_dec index1 cell with
  | Some cellSet => JsMap.set Cell_dec index1 cell (set_add string_dec geoId cellSet)
  | None => index1
  end.

Definition addToSpatialIndex (geofence : AdvancedGeofenceRegion) (index : Index) : Index :=
  match boundingBox geofence with
  | None => index
  | Some b => fold_left (addCell (id geofence)) (getGridCells b) index
  end.

Definition removeCell (geoId : string) (index : Index) (cell : Cell) : Index :=
  match JsMap.get Cell_dec index cell with
  | Some cellSet =>
      let cellSet' := List.remove string_dec geoId cellSet in
      if (List.length cellSet' =? 0)%nat then JsMap.delete Cell_dec index cell
      else JsMap.set Cell_dec index cell cellSet'
  | None => index
  end.

Definition removeFromSpatialIndex (geofence : AdvancedGeofenceRegion) (index : Index) : Index :=
  match boundingBox geofence with
  | None => index
  | Some b => fold_left (removeCell (id geofence)) (getGridCells b) index
  end.

(** [cellIds.forEach(id => candidateIds.add(id))] *)
Definition addAll (candidateIds cellIds : list string) : list string :=
  fold_left (fun acc i => set_add string_dec i acc) cellIds candidateIds.

(** The ids gathered for a point: the set of the point's own cell, grown by
    the sets of the eight cells around it. *)
Definition candidateIdsOf (index : Index) (cellKey : Cell) : list string :=
  let own := match JsMap.get Cell_dec index cellKey with
             | Some s => s
             | None => empty_set string
             end in
  fold_left (fun acc cell =>
               match JsMap.get Cell_dec index cell with
               | Some cellIds => addAll acc cellIds
               | None => acc
               end)
            (getAdjacentCells cellKey) own.

(** [getCandidateGeofences].  When the point's cell has a set in the index,
    [candidateIds] IS that set, and the ids of the neighbours are added to it
    in place: the index changes.  A candidate is returned with the key it is
    stored under, which names the object. *)
Definition getCandidateGeofences (point : Point) (m : Manager)
  : list (string * AdvancedGeofenceRegion) * Manager :=
  let cellKey := getGridCell (latitude point) (longitude point) in
  let candidateIds := candidateIdsOf (spatialIndex m) cellKey in
  let index' :=
    match JsMap.get Cell_dec (spatialIndex m) cellKey with
    | Some _ => JsMap.set Cell_dec (spatialIndex m) cellKey candidateIds
    | None => spatialIndex m
    end in
  let candidates :=
    flat_map (fun i => match JsMap.get string_dec (geofences m) i with
                       | Some geofence => [(i, geofence)]
                       | None => []
                       end) candidateIds in
  (candidates,
   {| geofences := geofences m; spatialIndex := index';
      hierarchies := hierarchies m; hierarchyObjects := hierarchyObjects m |}).

(** ** Hierarchy ledger *)

Definition updateAt {A} (l : list A) (n : nat) (f : A -> A) : list A :=
  map (fun p => if (fst p =? n)%nat then f (snd p) else snd p)
      (combine (seq 0 (List.length l)) l).

Definition nonEmpty (s : string) : bool :=
  match s with EmptyString => false | _ => true end.

Definition strIncludes (l : list string) (s : string) : bool :=
  existsb (String.eqb s) l.

Definition with_children (h : GeofenceHierarchy) (c : list string) :=
  {| h_id := h_id h; parentId := parentId h; children := c;
     inheritSettings := inheritSettings h |}.

Definition with_parentId (h : GeofenceHierarchy) (p : option string) :=
  {| h_id := h_id h; parentId := p; children := children h;
     inheritSettings := inheritSettings h |}.

Definition Ledger := list (string * nat).

(** [updateHierarchyReferences], for the hierarchy object at position [ref]. *)
Definition updateHierarchyReferences (ref : nat) (ledger : Ledger)
           (objs : list GeofenceHierarchy) : Ledger * list GeofenceHierarchy :=
  match nth_error objs ref with
  | None => (ledger, objs)
  | Some h =>
      let ledger1 := JsMap.set string_dec ledger (h_id h) ref in
      match parentId h with
      | Some pid =>
          if nonEmpty pid then
            match JsMap.get string_dec ledger1 pid with
            | Some pref =>
                match nth_error objs pref with
                | Some parent =>
                    if negb (strIncludes (children parent) (h_id h)) then
                      (ledger1,
                       updateAt objs pref
                         (fun p => with_children p (children p ++ [h_id h])))
                    else (ledger1, objs)
                | None => (ledger1, objs)
                end
            | None => (ledger1, objs)
            end
          else (ledger1, objs)
      | None => (ledger1, objs)
      end
  end.

Definition clearParent (ledger : Ledger) (objs : list GeofenceHierarchy)
           (childId : string) : list GeofenceHierarchy :=
  match JsMap.get string_dec ledger childId with
  | Some cref => updateAt objs cref (fun c => with_parentId c None)
  | None => objs
  end.

Definition removeFromHierarchy (regionId : string) (ledger : Ledger)
           (objs : list GeofenceHierarchy) : Ledger * list GeofenceHierarchy :=
  match JsMap.get string_dec ledger regionId with
  | None => (ledger, objs)
  | Some ref =>
      match nth_error objs ref with
      | None => (ledger, objs)
      | Some h =>
          let objs1 :=
            match parentId h with
            | Some pid =>
                if nonEmpty pid then
                  match JsMap.get string_dec ledger pid with
                  | Some pref =>
                      updateAt objs pref
                        (fun p => with_children p
                           (filter (fun i => negb (String.eqb i regionId)) (children p)))
                  | None => objs
                  end
                else objs
            | None => objs
            end in
          let kids := match nth_error objs1 ref with
                      | Some h1 => children h1
                      | None => []
                      end in
          let objs2 := fold_left (clearParent ledger) kids objs1 in
          (JsMap.delete string_dec ledger regionId, objs2)
      end
  end.

(** ** Region operations *)

(** [addGeofence].  The caller's hierarchy object is stored at a new
    position; the region keeps its own view of it, of which the manager only
    ever reads whether it is there. *)
Definition addGeofence (region : AdvancedGeofenceRegion) (m : Manager) : string * Manager :=
  let geofence := with_boundingBox region (calculateBoundingBox region) in
  let geofences' := JsMap.set string_dec (geofences m) (id region) geofence in
  let index' := addToSpatialIndex geofence (spatialIndex m) in
  match hierarchy geofence with
  | Some h =>
      let ref := List.length (hierarchyObjects m) in
      let objs1 := hierarchyObjects m ++ [h] in
      let ledger1 := JsMap.set string_dec (hierarchies m) (id region) ref in
      let (ledger2, objs2) := updateHierarchyReferences ref ledger1 objs1 in
      (id region,
       {| geofences := geofences'; spatialIndex := index';
          hierarchies := ledger2; hierarchyObjects := objs2 |})
  | None =>
      (id region,
       {| geofences := geofences'; spatialIndex := index';
          hierarchies := hierarchies m; hierarchyObjects := hierarchyObjects m |})
  end.

Definition removeGeofence (regionId : string) (m : Manager) : bool * Manager :=
  match JsMap.get string_dec (geofences m) regionId with
  | None => (false, m)
  | Some geofence =>
      let index' := removeFromSpatialIndex geofence (spatialIndex m) in
      let geofences' := JsMap.delete string_dec (geofences m) regionId in
      match hierarchy geofence with
      | Some _ =>
          let (ledger', objs') :=
            removeFromHierarchy regionId (hierarchies m) (hierarchyObjects m) in
          (true,
           {| geofences := geofences'; spatialIndex := index';
              hierarchies := ledger'; hierarchyObjects := objs' |})
      | None =>
          (true,
           {| geofences := geofences'; spatialIndex := index';
              hierarchies := hierarchies m; hierarchyObjects := hierarchyObjects m |})
      end
  end.

(** ** Evaluation of a fix *)

Record CheckResult := {
  entered : list AdvancedGeofenceRegion;
  exited : list AdvancedGeofenceRegion;
  inside : list AdvancedGeofenceRegion
}.

Definition noResult : CheckResult := {| entered := []; exited := []; inside := [] |}.

Section Evaluation.
Variable utcOffsetMinutes : Z -> Z.

(** [geofence.metadata?.wasInside || false] *)
Definition wasInsideOf (geofence : AdvancedGeofenceRegion) : bool :=
  match wasInside geofence with Some b => b | None => false end.

(** The body of the loop of [checkLocation] for one candidate.  The result
    arrays hold the region objects, so what they show is the region after
    its state was written. *)
Definition checkOne (point : Point) (timestamp : Z)
           (acc : CheckResult * list (string * AdvancedGeofenceRegion))
           (cand : string * AdvancedGeofenceRegion)
  : CheckResult * list (string * AdvancedGeofenceRegion) :=
  let (result, store) := acc in
  let (key, geofence) := cand in
  if negb (isTimeRuleActive utcOffsetMinutes geofence timestamp) then acc
  else if negb (areConditionalRulesActive geofence) then acc
  else
    let isInside := isPointInside point geofence in
    let wasIn := wasInsideOf geofence in
    let geofence' := with_wasInside geofence isInside in
    let result' :=
      if isInside then
        {| inside := inside result ++ [geofence'];
           entered := if negb wasIn && notifyOnEntry geofence
                      then entered result ++ [geofence'] else entered result;
           exited := exited result |}
      else if wasIn && notifyOnExit geofence then
        {| inside := inside result; entered := entered result;
           exited := exited result ++ [geofence'] |}
      else result in
    (result', JsMap.set string_dec store key geofence').

Definition checkLocation (point : Point) (timestamp : Z) (m : Manager)
  : CheckResult * Manager :=
  let (candidateGeofences, m1) := getCandidateGeofences point m in
  let (result, store) :=
    fold_left (checkOne point timestamp) candidateGeofences
              (noResult, geofences m1) in
  (result,
   {| geofences := store; spatialIndex := spatialIndex m1;
      hierarchies := hierarchies m1; hierarchyObjects := hierarchyObjects m1 |}).

(** The stored state of the region under [key]: [Some true] inside,
    [Some false] outside, [None] when never written or no such region. *)
Definition storedState (m : Manager) (key : string) : option bool :=
  match JsMap.get string_dec (geofences m) key with
  | Some g => wasInside g
  | None => None
  end.
End Evaluation.

End PolygonGeofence.

(** ** [src/OfflineManager.ts] *)

(** A JSON document.  [compressEvents] returns the text that
    [JSON.stringify] prints and [decompressEvents] starts with [JSON.parse]
    of it; the text is modelled by the document it spells, on which printing
    followed by parsing is the identity (finite numbers, strings, arrays and
    objects). *)
#[local] Unset Elimination Schemes.
Inductive Json :=
| JNull
| JBool (b : bool)
| JNumber (r : R)
| JString (s : string)
| JArray (items : list Json)
| JObject (fields : list (string * Json)).
#[local] Set Elimination Schemes.

Module OfflineManager.

(** [OfflineGeofence extends GeofenceRegion].  [GeofenceRegion] is declared
    in [./index], with the fields that docs/API_REFERENCE.md lists: [id],
    [latitude], [longitude], [radius], [notifyOnEntry], [notifyOnExit].  Of
    [metadata] only the key [wasInside] is used, as in the polygon manager. *)
Record OfflineGeofence := {
  id : string;
  latitude : R;
  longitude : R;
  radius : R;
  notifyOnEntry : bool;
  notifyOnExit : bool;
  isActive : bool;
  lastEvaluated : R;
  wasInside : option bool
}.

Record LocationPoint := {
  l_latitude : R;
  l_longitude : R;
  accuracy : option R;
  l_timestamp : R
}.

Inductive EventType := enter | exit.

Record OfflineEvent := {
  e_id : string;
  e_type : EventType;
  regionId : string;
  location : LocationPoint;
  timestamp : R;
  synced : bool
}.

Inductive ConnectionType := wifi | cellular | none.

Record NetworkStatus := {
  isConnected : bool;
  connectionType : ConnectionType;
  isExpensive : bool;
  lastConnected : R
}.

(** The manager.  A registered sync callback is named by a number; how its
    promise settles on a batch is the environment's, see
    [syncPendingEvents].  [retryTimeouts] holds the delay of every timer that
    [scheduleSyncAttempt] has armed and that has not fired yet. *)
Record Manager := {
  geofences : list (string * OfflineGeofence);
  pendingEvents : list OfflineEvent;
  networkStatus : NetworkStatus;
  syncCallbacks : list nat;
  syncInProgress : bool;
  retryTimeouts : list Z
}.

Definition with_state (g : OfflineGeofence) (evaluated : R) (w : option bool) :=
  {| id := id g; latitude := latitude g; longitude := longitude g;
     radius := radius g; notifyOnEntry := notifyOnEntry g;
     notifyOnExit := notifyOnExit g; isActive := isActive g;
     lastEvaluated := evaluated; wasInside := w |}.

Definition with_synced (e : OfflineEvent) (b : bool) :=
  {| e_id := e_id e; e_type := e_type e; regionId := regionId e;
     location := location e; timestamp := timestamp e; synced := b |}.

Definition toRadians (degrees : R) : R := degrees * (PI / 180).

Definition calculateDistance (lat1 lon1 lat2 lon2 : R) : R :=
  let R_earth := 6371000 in
  let dLat := toRadians (lat2 - lat1) in
  let dLon := toRadians (lon2 - lon1) in
  let a := sin (dLat / 2) * sin (dLat / 2) +
           cos (toRadians lat1) * cos (toRadians lat2) *
           sin (dLon / 2) * sin (dLon / 2) in
  let c := 2 * atan2 (sqrt a) (sqrt (1 - a)) in
  R_earth * c.

Definition wasInsideOf (g : OfflineGeofence) : bool :=
  match wasInside g with Some b => b | None => false end.

(** [addGeofence]: [{ ...geofence, isActive: true, lastEvaluated: Date.now() }]
    is stored under the region's id; [clock] is [Date.now()]. *)
Definition addGeofence (clock : R) (geofence : OfflineGeofence) (m : Manager) : Manager :=
  let offlineGeofence :=
    {| id := id geofence; latitude := latitude geofence;
       longitude := longitude geofence; radius := radius geofence;
       notifyOnEntry := notifyOnEntry geofence;
       notifyOnExit := notifyOnExit geofence; isActive := true;
       lastEvaluated := clock; wasInside := wasInside geofence |} in
  {| geofences := JsMap.set string_dec (geofences m) (id geofence) offlineGeofence;
     pendingEvents := pendingEvents m; networkStatus := networkStatus m;
     syncCallbacks := syncCallbacks m; syncInProgress := syncInProgress m;
     retryTimeouts := retryTimeouts m |}.

(** [scheduleSyncAttempt(delay)]: arms a timer unless a sync is running. *)
Definition scheduleSyncAttempt (delay : Z) (m : Manager) : Manager :=
  if syncInProgress m then m
  else {| geofences := geofences m; pendingEvents := pendingEvents m;
          networkStatus := networkStatus m; syncCallbacks := syncCallbacks m;
          syncInProgress := syncInProgress m;
          retryTimeouts := retryTimeouts m ++ [delay] |}.

(** The state of the loop of [evaluateLocation]: the events made so far, the
    geofence map and the pending queue. *)
Record EvalState := {
  ev_events : list OfflineEvent;
  ev_geofences : list (string * OfflineGeofence);
  ev_pending : list OfflineEvent
}.

Section Evaluate.
(** [generateEventId]: the id that its k-th call of this pass returns. *)
Variable generateEventId : nat -> string.

Definition evaluateOne (loc : LocationPoint) (st : EvalState)
           (entry : string * OfflineGeofence) : EvalState :=
  let (key, geofence) := entry in
  let distance := calculateDistance (l_latitude loc) (l_longitude loc)
                                    (latitude geofence) (longitude geofence) in
  let isInside := Rleb distance (radius geofence) in
  let wasIn := wasInsideOf geofence in
  if isInside && negb wasIn && notifyOnEntry geofence then
    let event := {| e_id := generateEventId (List.length (ev_events st));
                    e_type := enter; regionId := id geofence; location := loc;
                    timestamp := l_timestamp loc; synced := false |} in
    {| ev_events := ev_events st ++ [event];
       ev_geofences := JsMap.set string_dec (ev_geofences st) key
                         (with_state geofence (l_timestamp loc) (Some true));
       ev_pending := ev_pending st ++ [event] |}
  else if negb isInside && wasIn && notifyOnExit geofence then
    let event := {| e_id := generateEventId (List.length (ev_events st));
                    e_type := exit; regionId := id geofence; location := loc;
                    timestamp := l_timestamp loc; synced := false |} in
    {| ev_events := ev_events st ++ [event];
       ev_geofences := JsMap.set string_dec (ev_geofences st) key
                         (with_state geofence (l_timestamp loc) (Some false));
       ev_pending := ev_pending st ++ [event] |}
  else
    {| ev_events := ev_events st;
       ev_geofences := JsMap.set string_dec (ev_geofences st) key
                         (with_state geofence (l_timestamp loc) (wasInside geofence));
       ev_pending := ev_pending st |}.

Definition getActiveGeofences (m : Manager) : list (string * OfflineGeofence) :=
  filter (fun kv => isActive (snd kv)) (geofences m).

Definition evaluateLocation (loc : LocationPoint) (m : Manager)
  : list OfflineEvent * Manager :=
  let st := fold_left (evaluateOne loc) (getActiveGeofences m)
              {| ev_events := []; ev_geofences := geofences m;
                 ev_pending := pendingEvents m |} in
  let m1 := {| geofences := ev_geofences st; pendingEvents := ev_pending st;
               networkStatus := networkStatus m; syncCallbacks := syncCallbacks m;
               syncInProgress := syncInProgress m;
               retryTimeouts := retryTimeouts m |} in
  (ev_events st,
   if (0 <? List.length (ev_events st))%nat && isConnected (networkStatus m)
   then scheduleSyncAttempt 1000 m1 else m1).
End Evaluate.

Definition storedState (m : Manager) (key : string) : option bool :=
  match JsMap.get string_dec (geofences m) key with
  | Some g => wasInside g
  | None => None
  end.

(** ** Sync *)

Record SyncResult := { success : bool; r_synced : nat; r_failed : nat }.

(** [batchEvents]: slices of [batchSize] elements.  The fuel is the number
    of elements, enough for every positive [batchSize]. *)
Fixpoint batchLoop {A} (fuel : nat) (events : list A) (batchSize : nat) : list (list A) :=
  match fuel with
  | O => []
  | S f =>
      match events with
      | [] => []
      | _ => firstn batchSize events :: batchLoop f (skipn batchSize events) batchSize
      end
  end.

Definition batchEvents {A} (events : list A) : list (list A) :=
  batchLoop (List.length events) events 50.

(** The events of the queue are objects: a batch holds the same objects as
    the queue, named here by their positions in the queue. *)
Definition unsyncedPositions (queue : list OfflineEvent) : list nat :=
  map fst (filter (fun p => negb (synced (snd p)))
                  (combine (seq 0 (List.length queue)) queue)).

Definition eventsAt (queue : list OfflineEvent) (batch : list nat) : list OfflineEvent :=
  flat_map (fun i => match nth_error queue i with Some e => [e] | None => [] end) batch.

Definition markSynced (queue : list OfflineEvent) (batch : list nat) : list OfflineEvent :=
  map (fun p => if existsb (Nat.eqb (fst p)) batch then with_synced (snd p) true else snd p)
      (combine (seq 0 (List.length queue)) queue).

Record SyncLoop := {
  sl_queue : list OfflineEvent;
  syncedCount : nat;
  failedCount : nat
}.

Section Sync.
(** How the promise of a callback settles when it is called with a batch
    during this flush: [true] resolved, [false] rejected. *)
Variable settles : nat -> list OfflineEvent -> bool.

(** [await Promise.all(callbacks.map(cb => cb(batch)))] resolves when every
    promise does. *)
Definition allSettle (callbacks : list nat) (batch : list OfflineEvent) : bool :=
  forallb (fun cb => settles cb batch) callbacks.

Definition syncBatch (callbacks : list nat) (st : SyncLoop) (batch : list nat) : SyncLoop :=
  if allSettle callbacks (eventsAt (sl_queue st) batch) then
    {| sl_queue := markSynced (sl_queue st) batch;
       syncedCount := syncedCount st + List.length batch;
       failedCount := failedCount st |}
  else
    {| sl_queue := sl_queue st; syncedCount := syncedCount st;
       failedCount := failedCount st + List.length batch |}.

Definition with_queue (m : Manager) (q : list OfflineEvent) : Manager :=
  {| geofences := geofences m; pendingEvents := q;
     networkStatus := networkStatus m; syncCallbacks := syncCallbacks m;
     syncInProgress := false; retryTimeouts := retryTimeouts m |}.

(** [syncPendingEvents], run to its end without another call of the
    manager in between. *)
Definition syncPendingEvents (m : Manager) : SyncResult * Manager :=
  if syncInProgress m || negb (isConnected (networkStatus m)) then
    ({| success := false; r_synced := 0; r_failed := 0 |}, m)
  else
    let unsyncedEvents := unsyncedPositions (pendingEvents m) in
    match unsyncedEvents with
    | [] => ({| success := true; r_synced := 0; r_failed := 0 |},
             with_queue m (pendingEvents m))
    | _ =>
        let batches := batchEvents unsyncedEvents in
        let st := fold_left (syncBatch (syncCallbacks m)) batches
                    {| sl_queue := pendingEvents m; syncedCount := 0;
                       failedCount := 0 |} in
        ({| success := (0 <? syncedCount st)%nat;
            r_synced := syncedCount st; r_failed := failedCount st |},
         with_queue m (filter (fun e => negb (synced e)) (sl_queue st)))
    end.

Definition getPendingEventsCount (m : Manager) : nat :=
  List.length (filter (fun e => negb (synced e)) (pendingEvents m)).

(** [Math.min(delay * 2, 60000)] *)
Definition nextDelay (delay : Z) : Z := Z.min (delay * 2) 60000.

Definition removeTimeout (delay : Z) (timeouts : list Z) : list Z :=
  set_remove Z.eq_dec delay timeouts.

(** The callback of the timer that [scheduleSyncAttempt delay] armed.
    [syncPendingEvents] catches the failure of a batch itself, so the
    callback's own [catch] is not reached. *)
Definition timeoutFired (delay : Z) (m : Manager) : Manager :=
  let m0 := {| geofences := geofences m; pendingEvents := pendingEvents m;
               networkStatus := networkStatus m; syncCallbacks := syncCallbacks m;
               syncInProgress := syncInProgress m;
               retryTimeouts := removeTimeout delay (retryTimeouts m) |} in
  let (result, m1) := syncPendingEvents m0 in
  if negb (success result) && (0 <? getPendingEventsCount m1)%nat then
    scheduleSyncAttempt (nextDelay delay) m1
  else m1.
End Sync.

Definition clearSyncedEvents (m : Manager) : Manager :=
  {| geofences := geofences m;
     pendingEvents := filter (fun e => negb (synced e)) (pendingEvents m);
     networkStatus := networkStatus m; syncCallbacks := syncCallbacks m;
     syncInProgress := syncInProgress m; retryTimeouts := retryTimeouts m |}.

(** ** Compression *)

Definition compressEvent (event : OfflineEvent) : Json :=
  JObject
    [ ("i", JString (e_id event));
      ("t", JNumber (match e_type event with enter => 1 | exit => 0 end));
      ("r", JString (regionId event));
      ("lat", JNumber (IZR (round (l_latitude (location event) * 1000000)) / 1000000));
      ("lng", JNumber (IZR (round (l_longitude (location event) * 1000000)) / 1000000));
      ("ts", JNumber (timestamp event)) ]%string.

Definition compressEvents (events : list OfflineEvent) : Json :=
  JArray (map compressEvent events).

(** [item.key]: [undefined] when [item] is not an object or has no such key. *)
Definition field (item : Json) (key : string) : option Json :=
  match item with
  | JObject fields => JsMap.get string_dec fields key
  | _ => None
  end.

(** One item of [data.map(...)].  The result is [None] when a field that
    [OfflineEvent] types as a string or a number would hold something else. *)
Definition decompressEvent (item : Json) : option OfflineEvent :=
  match field item "i", field item "r", field item "lat", field item "lng",
        field item "ts" with
  | Some (JString i), Some (JString r), Some (JNumber lat), Some (JNumber lng),
    Some (JNumber ts) =>
      Some {| e_id := i;
              e_type := match field item "t" with
                        | Some (JNumber t) => if Req_dec_T t 1 then enter else exit
                        | _ => exit
                        end;
              regionId := r;
              location := {| l_latitude := lat; l_longitude := lng;
                             accuracy := None; l_timestamp := ts |};
              timestamp := ts;
              synced := false |}
  | _, _, _, _, _ => None
  end.

Fixpoint mapOption {A B} (f : A -> option B) (l : list A) : option (list B) :=
  match l with
  | [] => Some []
  | x :: r =>
      match f x, mapOption f r with
      | Some y, Some ys => Some (y :: ys)
      | _, _ => None
      end
  end.

(** [decompressEvents]; [None] when [data.map] throws (not an array) or an
    item is ill-typed. *)
Definition decompressEvents (compressed : Json) : option (list OfflineEvent) :=
  match compressed with
  | JArray data => mapOption decompressEvent data
  | _ => None
  end.

End OfflineManager.

(** ** [src/WebhookManager.ts]: the delivery queue and its retry logic

    Only what decides whether and when a delivery is tried again is kept:
    the HTTP request is the environment's, statistics and rate limiting do
    not touch the queue. *)

Module WebhookManager.

Inductive BackoffStrategy := linear | exponential.

Record RetryConfig := {
  maxRetries : Z;
  backoffStrategy : BackoffStrategy;
  baseDelay : R;
  maxDelay : R
}.

Record WebhookConfig := {
  w_id : string;
  isActive : bool;
  retryConfig : RetryConfig
}.

Inductive Status := pending | success | failed | retrying.

Record WebhookDeliveryAttempt := {
  d_id : string;
  webhookId : string;
  attempt : Z;
  status : Status;
  nextRetryAt : option R
}.

Record Manager := {
  webhooks : list (string * WebhookConfig);
  deliveryQueue : list WebhookDeliveryAttempt;
  isProcessing : bool
}.

(** What the environment decides while the queue is processed: the clock
    [Date.now()], whether the HTTP request of a delivery succeeds, and the
    value in [0, 1) that [Math.random()] returns for it. *)
Record Env := {
  now : R;
  httpOk : WebhookDeliveryAttempt -> bool;
  random : WebhookDeliveryAttempt -> R
}.

(** The delay before the clock and the jitter are added. *)
Definition backoffDelay (c : RetryConfig) (attempt : Z) : R :=
  let delay := match backoffStrategy c with
               | linear => baseDelay c * IZR attempt
               | exponential => baseDelay c * powerRZ 2 (attempt - 1)
               end in
  Rmin delay (maxDelay c).

(** The delay that is scheduled: [delay += Math.random() * 1000]. *)
Definition scheduledDelay (c : RetryConfig) (attempt : Z) (rnd : R) : R :=
  backoffDelay c attempt + rnd * 1000.

Definition calculateNextRetryTime (clock rnd : R) (c : RetryConfig) (attempt : Z) : R :=
  clock + scheduledDelay c attempt rnd.

Definition with_status (d : WebhookDeliveryAttempt) (s : Status) :=
  {| d_id := d_id d; webhookId := webhookId d; attempt := attempt d;
     status := s; nextRetryAt := nextRetryAt d |}.

Definition attemptDelivery (e : Env) (hooks : list (string * WebhookConfig))
           (delivery : WebhookDeliveryAttempt) : WebhookDeliveryAttempt :=
  match JsMap.get string_dec hooks (webhookId delivery) with
  | None => with_status delivery failed
  | Some webhook =>
      if negb (isActive webhook) then with_status delivery failed
      else if httpOk e delivery then with_status delivery success
      else if (attempt delivery <? maxRetries (retryConfig webhook))%Z then
        {| d_id := d_id delivery; webhookId := webhookId delivery;
           attempt := (attempt delivery + 1)%Z;
           status := retrying;
           nextRetryAt :=
             Some (calculateNextRetryTime (now e) (random e delivery)
                     (retryConfig webhook) (attempt delivery + 1)%Z) |}
      else with_status delivery failed
  end.

(** [d.status === 'pending' || (d.status === 'retrying' &&
    (!d.nextRetryAt || Date.now() >= d.nextRetryAt))] *)
Definition isDue (e : Env) (d : WebhookDeliveryAttempt) : bool :=
  match status d with
  | pending => true
  | retrying =>
      match nextRetryAt d with
      | None => true
      | Some t => negb (truthy t) || Rleb t (now e)
      end
  | _ => false
  end.

Definition isOpen (d : WebhookDeliveryAttempt) : bool :=
  match status d with pending | retrying => true | _ => false end.

(** The deliveries are objects of the queue, named by their positions. *)
Definition duePositions (e : Env) (queue : list WebhookDeliveryAttempt) : list nat :=
  map fst (filter (fun p => isDue e (snd p))
                  (combine (seq 0 (List.length queue)) queue)).

Definition attemptAt (e : Env) (hooks : list (string * WebhookConfig))
           (batch : list nat) (queue : list WebhookDeliveryAttempt)
  : list WebhookDeliveryAttempt :=
  map (fun p => if existsb (Nat.eqb (fst p)) batch
                then attemptDelivery e hooks (snd p) else snd p)
      (combine (seq 0 (List.length queue)) queue).

Definition processDeliveryQueue (e : Env) (m : Manager) : Manager :=
  if isProcessing m || (List.length (deliveryQueue m) =? 0)%nat then m
  else
    let pendingDeliveries := duePositions e (deliveryQueue m) in
    let batch := firstn 10 pendingDeliveries in
    let queue1 := attemptAt e (webhooks m) batch (deliveryQueue m) in
    {| webhooks := webhooks m;
       deliveryQueue := filter isOpen queue1;
       isProcessing := false |}.

End WebhookManager.

(** * Notions used to state the properties *)

Module Spec.
Import PolygonGeofence.

(** ** Time rules *)

Definition formatTime (h m : Z) : string :=
  (padStart2 (toString h) ++ ":" ++ padStart2 (toString m))%string.

Definition formatParses (h m : nat) : bool :=
  match timeToMinutes (formatTime (Z.of_nat h) (Z.of_nat m)) with
  | Some v => (v =? Z.of_nat h * 60 + Z.of_nat m)%Z
  | None => false
  end.

(** The minute of the day of an instant, in local time. *)
Definition minuteOfDay (utcOffsetMinutes : Z -> Z) (timestamp : Z) : Z :=
  (getHours utcOffsetMinutes timestamp * 60 + getMinutes utcOffsetMinutes timestamp)%Z.

(** A window that leaves its end minute out, as a reading of
    [isTimeInRange] on the minute of the day of an instant. *)
Definition half_open_window : Prop :=
  forall (utcOffsetMinutes : Z -> Z) (rule : TimeBasedRule) (timestamp s e : Z),
    timeToMinutes (startTime rule) = Some s ->
    timeToMinutes (endTime rule) = Some e ->
    let now := minuteOfDay utcOffsetMinutes timestamp in
    let hit := isTimeInRange (timeString utcOffsetMinutes timestamp)
                             (startTime rule) (endTime rule) in
    ((s <= e)%Z -> (hit = true <-> (s <= now < e)%Z)) /\
    ((e < s)%Z -> (hit = true <-> (s <= now \/ now < e)%Z)).

Definition officeHours : TimeBasedRule :=
  {| t_id := "office"; startTime := "09:00"; endTime := "17:00";
     daysOfWeek := [1; 2; 3; 4; 5]%Z; timezone := None; t_isActive := true |}.

Definition utc : Z -> Z := fun _ => 0%Z.

(** ** Spatial index *)

(** The point lies in the box. *)
Definition inBox (p : Point) (b : BoundingBox) : Prop :=
  minLat b <= latitude p <= maxLat b /\ minLng b <= longitude p <= maxLng b.

(** The vertex lies north of the latitude [y]. *)
Definition above (y : R) (v : Point) : bool := Rgtb (latitude v) y.

(** The set of the cell lists the id. *)
Definition inCell (idx : Index) (c : Cell) (k : string) : Prop :=
  exists s, JsMap.get Cell_dec idx c = Some s /\ In k s.

Definition cellSet (idx : Index) (c : Cell) : list string :=
  match JsMap.get Cell_dec idx c with Some s => s | None => [] end.

(** ** Evaluation passes *)

(** The activation gate of [checkLocation]: both checks let the region
    through. *)
Definition gateOpen (tz : Z -> Z) (g : AdvancedGeofenceRegion) (ts : Z) : bool :=
  isTimeRuleActive tz g ts && areConditionalRulesActive g.

(** The index covers every live region: the region is stored under its
    id, its box is the one computed from its shape, and every cell the box
    spans lists the id. *)
Definition indexed (m : Manager) : Prop :=
  forall key g, JsMap.get string_dec (geofences m) key = Some g ->
    id g = key /\
    boundingBox g = calculateBoundingBox g /\
    forall b cell, boundingBox g = Some b -> In cell (getGridCells b) ->
                   inCell (spatialIndex m) cell key.

(** The managers that calls of [addGeofence], [removeGeofence] and
    [checkLocation] build from the empty one. *)
Inductive reachable (tz : Z -> Z) : Manager -> Prop :=
| reach_empty : reachable tz empty
| reach_add m region :
    reachable tz m -> reachable tz (snd (addGeofence region m))
| reach_remove m regionId :
    reachable tz m -> reachable tz (snd (removeGeofence regionId m))
| reach_check m point ts :
    reachable tz m -> reachable tz (snd (checkLocation tz point ts m)).

(** A run of evaluation passes, one per fix. *)
Definition passes (tz : Z -> Z) (fixes : list (Point * Z)) (m : Manager) : Manager :=
  fold_left (fun m f => snd (checkLocation tz (fst f) (snd f) m)) fixes m.

(** ** Sample regions and fixes *)

(** A circle of 1 km on the equator, 0.005 degrees west of the
    antimeridian. *)
Definition dateline : AdvancedGeofenceRegion :=
  {| id := "dateline"; vertices := []; notifyOnEntry := true;
     notifyOnExit := true; wasInside := None; type := circle;
     center := Some {| latitude := 0; longitude := 179995 / 1000 |};
     radius := Some 1000; timeRules := []; conditionalRules := [];
     hierarchy := None; boundingBox := None |}.

(** A point 0.001 degrees east of the antimeridian. *)
Definition eastOfDateline : Point :=
  {| latitude := 0; longitude := - (179999 / 1000) |}.

(** No region that contains the point is missing from the candidates. *)
Definition index_sound : Prop :=
  forall (tz : Z -> Z) (m : Manager) (key : string)
         (g : AdvancedGeofenceRegion) (point : Point),
    reachable tz m ->
    JsMap.get string_dec (geofences m) key = Some g ->
    isPointInside point g = true ->
    In (key, g) (fst (getCandidateGeofences point m)).

Definition square : AdvancedGeofenceRegion :=
  {| id := "square";
     vertices := [ {| latitude := 0; longitude := 0 |};
                   {| latitude := 0; longitude := 10 |};
                   {| latitude := 10; longitude := 10 |};
                   {| latitude := 10; longitude := 0 |} ];
     notifyOnEntry := true; notifyOnExit := true; wasInside := None;
     type := polygon; center := None; radius := None; timeRules := [];
     conditionalRules := []; hierarchy := None; boundingBox := None |}.

Definition office : AdvancedGeofenceRegion :=
  {| id := "office"; vertices := vertices square;
     notifyOnEntry := true; notifyOnExit := true; wasInside := None;
     type := polygon; center := None; radius := None;
     timeRules := [officeHours];
     conditionalRules := []; hierarchy := None; boundingBox := None |}.

Definition middle : Point := {| latitude := 5; longitude := 5 |}.

(** ** Hierarchy *)

(** The parent that the ledger records for an id. *)
Definition parentOf (m : Manager) (k : string) : option string :=
  match JsMap.get string_dec (hierarchies m) k with
  | Some ref =>
      match nth_error (hierarchyObjects m) ref with
      | Some h => parentId h
      | None => None
      end
  | None => None
  end.

(** The ancestor [n] links up. *)
Fixpoint ancestor (m : Manager) (n : nat) (k : string) : option string :=
  match n with
  | O => Some k
  | S n' =>
      match parentOf m k with
      | Some p => ancestor m n' p
      | None => None
      end
  end.

(** No id is its own ancestor. *)
Definition forest (m : Manager) : Prop :=
  forall k n, (0 < n)%nat -> ancestor m n k <> Some k.

Definition hierarchy_stays_forest : Prop :=
  forall tz m, reachable tz m -> forest m.


(** A small triangle at the origin, and a region on it. *)
Definition triangle : list Point :=
  [ {| latitude := 0; longitude := 0 |};
    {| latitude := 0; longitude := 1 / 1000 |};
    {| latitude := 1 / 1000; longitude := 0 |} ].

Definition zone (name : string) (entry : bool) (h : option GeofenceHierarchy)
  : AdvancedGeofenceRegion :=
  {| id := name; vertices := triangle; notifyOnEntry := entry;
     notifyOnExit := true; wasInside := None; type := polygon;
     center := None; radius := None; timeRules := []; conditionalRules := [];
     hierarchy := h; boundingBox := None |}.

Definition childOf (name parent : string) : option GeofenceHierarchy :=
  Some {| h_id := name; parentId := Some parent; children := [];
          inheritSettings := true |}.

(** Region [a] is added as a child of [b], then [b] as a child of [a]. *)
Definition looped : Manager :=
  snd (addGeofence (zone "b" true (childOf "b" "a"))
         (snd (addGeofence (zone "a" true (childOf "a" "b")) empty))).

(** ** Retry delays *)

(** The retry configuration that [addWebhook] fills in by default. *)
Definition defaultRetry : WebhookManager.RetryConfig :=
  {| WebhookManager.maxRetries := 3;
     WebhookManager.backoffStrategy := WebhookManager.exponential;
     WebhookManager.baseDelay := 1000;
     WebhookManager.maxDelay := 60000 |}.



(** ** Compression *)

(** A number with at most six decimal places. *)
Definition sixDecimals (x : R) : Prop := exists z : Z, x = IZR z / 1000000.

(** [Math.round(x * 1000000) / 1000000] *)
Definition round6 (x : R) : R := IZR (round (x * 1000000)) / 1000000.

(** What comes back of an event. *)
Definition restored (e : OfflineManager.OfflineEvent) : OfflineManager.OfflineEvent :=
  {| OfflineManager.e_id := OfflineManager.e_id e;
     OfflineManager.e_type := OfflineManager.e_type e;
     OfflineManager.regionId := OfflineManager.regionId e;
     OfflineManager.location :=
       {| OfflineManager.l_latitude :=
            round6 (OfflineManager.l_latitude (OfflineManager.location e));
          OfflineManager.l_longitude :=
            round6 (OfflineManager.l_longitude (OfflineManager.location e));
          OfflineManager.accuracy := None;
          OfflineManager.l_timestamp := OfflineManager.timestamp e |};
     OfflineManager.timestamp := OfflineManager.timestamp e;
     OfflineManager.synced := false |}.

Definition sampleEvent : OfflineManager.OfflineEvent :=
  {| OfflineManager.e_id := "offline_1";
     OfflineManager.e_type := OfflineManager.exit;
     OfflineManager.regionId := "home";
     OfflineManager.location :=
       {| OfflineManager.l_latitude := 12345678 / 1000000;
          OfflineManager.l_longitude := - (98765432 / 1000000);
          OfflineManager.accuracy := Some 5;
          OfflineManager.l_timestamp := 1700000000000 |};
     OfflineManager.timestamp := 1700000000001;
     OfflineManager.synced := true |}.

End Spec.

Module OfflineSamples.
Import OfflineManager.
Open Scope string_scope.

Definition offlineEmpty : Manager :=
  {| geofences := []; pendingEvents := [];
     networkStatus := {| isConnected := false; connectionType := none;
                         isExpensive := false; lastConnected := 0 |};
     syncCallbacks := []; syncInProgress := false; retryTimeouts := [] |}.

(** A region that reports exits only. *)
Definition home : OfflineGeofence :=
  {| id := "home"; latitude := 0; longitude := 0; radius := 100;
     notifyOnEntry := false; notifyOnExit := true; isActive := true;
     lastEvaluated := 0; wasInside := None |}.

Definition atHome : LocationPoint :=
  {| l_latitude := 0; l_longitude := 0; accuracy := None; l_timestamp := 1 |}.

Definition away : LocationPoint :=
  {| l_latitude := 0; l_longitude := 90; accuracy := None; l_timestamp := 2 |}.

Definition eventIds : nat -> string := fun _ => "offline_event".

Definition visit := evaluateLocation eventIds atHome (addGeofence 0 home offlineEmpty).
Definition leave := evaluateLocation eventIds away (snd visit).

Definition homeOnly (g : OfflineGeofence) : Manager :=
  {| geofences := [("home", g)]; pendingEvents := [];
     networkStatus := networkStatus offlineEmpty;
     syncCallbacks := []; syncInProgress := false; retryTimeouts := [] |}.

End OfflineSamples.

Module SyncSpec.
Import OfflineManager.

(** Membership of a position in a batch. *)
Definition mem (i : nat) (l : list nat) : bool := existsb (Nat.eqb i) l.

(** Every callback resolves on the batch. *)
Definition delivered (settles : nat -> list OfflineEvent -> bool)
           (callbacks : list nat) (queue : list OfflineEvent)
           (batch : list nat) : bool :=
  allSettle settles callbacks (eventsAt queue batch).

Definition rejected (settles : nat -> list OfflineEvent -> bool)
           (callbacks : list nat) (queue : list OfflineEvent)
           (batch : list nat) : bool :=
  negb (delivered settles callbacks queue batch).

(** The loop of [syncPendingEvents] over the batches, before the pruning. *)
Definition flushLoop (settles : nat -> list OfflineEvent -> bool) (m : Manager) : SyncLoop :=
  fold_left (syncBatch settles (syncCallbacks m))
            (batchEvents (unsyncedPositions (pendingEvents m)))
            {| sl_queue := pendingEvents m; syncedCount := 0; failedCount := 0 |}.

(** A chain of retries: the timer armed with [delay] fires, the flush
    meets the first outcome, and so on with the timer that this arms. *)
Fixpoint retryChain (outcomes : list (nat -> list OfflineEvent -> bool))
         (delay : Z) (m : Manager) : Manager :=
  match outcomes with
  | [] => m
  | settles :: rest =>
      retryChain rest (nextDelay delay) (timeoutFired settles delay m)
  end.

(** Every batch is rejected by some callback. *)
Definition rejectsAll (m : Manager) (settles : nat -> list OfflineEvent -> bool) : Prop :=
  forall batch, allSettle settles (syncCallbacks m) batch = false.

End SyncSpec.

Module WebhookSpec.
Import Spec.
Import WebhookManager.
Open Scope string_scope.

(** Passes in which every request fails remove nothing from the queue. *)
Definition never_dropped : Prop :=
  forall (envs : list Env) (m : Manager),
    isProcessing m = false ->
    Forall (fun d => exists w,
                JsMap.get string_dec (webhooks m) (webhookId d) = Some w /\
                isActive w = true) (deliveryQueue m) ->
    Forall (fun e => forall d, httpOk e d = false) envs ->
    List.length (deliveryQueue (fold_left (fun m e => processDeliveryQueue e m) envs m)) =
    List.length (deliveryQueue m).

Definition hook : WebhookConfig :=
  {| w_id := "hook"; isActive := true; retryConfig := defaultRetry |}.

(** The delivery that [queueDelivery] makes. *)
Definition queuedDelivery : WebhookDeliveryAttempt :=
  {| d_id := "delivery"; webhookId := "hook"; attempt := 1; status := pending;
     nextRetryAt := None |}.

Definition oneDelivery (d : WebhookDeliveryAttempt) : Manager :=
  {| webhooks := [("hook", hook)]; deliveryQueue := [d]; isProcessing := false |}.

(** The environment at a time when every request fails and the jitter is 0. *)
Definition failingAt (clock : R) : Env :=
  {| now := clock; httpOk := fun _ => false; random := fun _ => 0 |}.

Definition retryOf (d : WebhookDeliveryAttempt) (clock : R) : WebhookDeliveryAttempt :=
  {| d_id := d_id d; webhookId := webhookId d; attempt := (attempt d + 1)%Z;
     status := retrying;
     nextRetryAt := Some (calculateNextRetryTime clock 0 defaultRetry (attempt d + 1)%Z) |}.

End WebhookSpec.

Module SyncSamples.
Open Scope string_scope.

Definition enteredHome : OfflineManager.OfflineEvent :=
  {| OfflineManager.e_id := "offline_2"; OfflineManager.e_type := OfflineManager.enter;
     OfflineManager.regionId := "home";
     OfflineManager.location :=
       {| OfflineManager.l_latitude := 0; OfflineManager.l_longitude := 0;
          OfflineManager.accuracy := Some 5;
          OfflineManager.l_timestamp := 1700000000000 |};
     OfflineManager.timestamp := 1700000000000;
     OfflineManager.synced := false |}.

(** A connected manager with one event to deliver and one callback. *)
Definition queued : OfflineManager.Manager :=
  {| OfflineManager.geofences := [];
     OfflineManager.pendingEvents := [enteredHome];
     OfflineManager.networkStatus :=
       {| OfflineManager.isConnected := true;
          OfflineManager.connectionType := OfflineManager.wifi;
          OfflineManager.isExpensive := false;
          OfflineManager.lastConnected := 0 |};
     OfflineManager.syncCallbacks := [0%nat];
     OfflineManager.syncInProgress := false;
     OfflineManager.retryTimeouts := [1000%Z] |}.

Definition allRejected : nat -> list OfflineManager.OfflineEvent -> bool :=
  fun _ _ => false.

Definition exhausted : WebhookManager.WebhookDeliveryAttempt :=
  {| WebhookManager.d_id := "delivery"; WebhookManager.webhookId := "hook";
     WebhookManager.attempt := 3; WebhookManager.status := WebhookManager.retrying;
     WebhookManager.nextRetryAt := None |}.

End SyncSamples.


From Stdlib Require Import Permutation Sorted.

(** ** Notions for the geometry of regions *)

Module GeometrySpec.
Import PolygonGeofence.





End GeometrySpec.

(** ** [src/PolygonGeofence.ts]: validation, queries and bulk operations *)

Module PolygonQueries.
Import PolygonGeofence.

(** A message of [validatePolygon].  The texts are
    ['Polygon must have at least 3 vertices'], ['Invalid latitude: ' + v],
    ['Invalid longitude: ' + v] and ['Polygon has self-intersections']; a
    message that prints a number carries the number. *)
Inductive ValidationError :=
| TooFewVertices
| InvalidLatitude (v : R)
| InvalidLongitude (v : R)
| SelfIntersections.

Record Validation := { valid : bool; errors : list ValidationError }.

(** [hasSimpleSelfIntersection]: both loops run with an empty body, and the
    function returns [false]. *)
Definition hasSimpleSelfIntersection (vertices : list Point) : bool := false.

(** The messages that the loop over the vertices pushes for one vertex. *)
Definition vertexErrors (vertex : Point) : list ValidationError :=
  (if Rltb (latitude vertex) (-90) || Rgtb (latitude vertex) 90
   then [InvalidLatitude (latitude vertex)] else []) ++
  (if Rltb (longitude vertex) (-180) || Rgtb (longitude vertex) 180
   then [InvalidLongitude (longitude vertex)] else []).

Definition validatePolygon (vertices : list Point) : Validation :=
  let errors1 := if (List.length vertices <? 3)%nat then [TooFewVertices] else [] in
  let errors2 := errors1 ++ flat_map vertexErrors vertices in
  let errors3 :=
    if (3 <? List.length vertices)%nat && hasSimpleSelfIntersection vertices
    then errors2 ++ [SelfIntersections] else errors2 in
  {| valid := (List.length errors3 =? 0)%nat; errors := errors3 |}.

(** [Partial<AdvancedGeofenceRegion>]: a field is [Some] when the key is
    present; for an optional field the value inside may itself be absent. *)
Record Updates := {
  u_id : option string;
  u_vertices : option (list Point);
  u_notifyOnEntry : option bool;
  u_notifyOnExit : option bool;
  u_metadata : option (option bool);
  u_type : option RegionType;
  u_center : option (option Point);
  u_radius : option (option R);
  u_timeRules : option (list TimeBasedRule);
  u_conditionalRules : option (list ConditionalRule);
  u_hierarchy : option (option GeofenceHierarchy);
  u_boundingBox : option (option BoundingBox)
}.

Definition orElse {A} (o : option A) (d : A) : A :=
  match o with Some v => v | None => d end.

(** [{ ...existing, ...updates }] *)
Definition spread (existing : AdvancedGeofenceRegion) (updates : Updates)
  : AdvancedGeofenceRegion :=
  {| id := orElse (u_id updates) (id existing);
     vertices := orElse (u_vertices updates) (vertices existing);
     notifyOnEntry := orElse (u_notifyOnEntry updates) (notifyOnEntry existing);
     notifyOnExit := orElse (u_notifyOnExit updates) (notifyOnExit existing);
     wasInside := orElse (u_metadata updates) (wasInside existing);
     type := orElse (u_type updates) (type existing);
     center := orElse (u_center updates) (center existing);
     radius := orElse (u_radius updates) (radius existing);
     timeRules := orElse (u_timeRules updates) (timeRules existing);
     conditionalRules := orElse (u_conditionalRules updates) (conditionalRules existing);
     hierarchy := orElse (u_hierarchy updates) (hierarchy existing);
     boundingBox := orElse (u_boundingBox updates) (boundingBox existing) |}.

Definition updateGeofence (regionId : string) (updates : Updates) (m : Manager)
  : bool * Manager :=
  match JsMap.get string_dec (geofences m) regionId with
  | None => (false, m)
  | Some existing =>
      let index1 := removeFromSpatialIndex existing (spatialIndex m) in
      let updated :=
        with_boundingBox (spread existing updates)
                         (calculateBoundingBox (spread existing updates)) in
      (true,
       {| geofences := JsMap.set string_dec (geofences m) regionId updated;
          spatialIndex := addToSpatialIndex updated index1;
          hierarchies := hierarchies m;
          hierarchyObjects := hierarchyObjects m |})
  end.

Definition getGeofence (regionId : string) (m : Manager) : option AdvancedGeofenceRegion :=
  JsMap.get string_dec (geofences m) regionId.

(** [addMultipleGeofences]: the loop pushes the id of every call. *)
Fixpoint addMultipleGeofences (regions : list AdvancedGeofenceRegion) (m : Manager)
  : list string * Manager :=
  match regions with
  | [] => ([], m)
  | geofence :: rest =>
      let (i, m1) := addGeofence geofence m in
      let (ids, m2) := addMultipleGeofences rest m1 in
      (i :: ids, m2)
  end.

(** [regionIds.map(id => this.removeGeofence(id))] *)
Fixpoint removeMultipleGeofences (regionIds : list string) (m : Manager)
  : list bool * Manager :=
  match regionIds with
  | [] => ([], m)
  | i :: rest =>
      let (removed, m1) := removeGeofence i m in
      let (flags, m2) := removeMultipleGeofences rest m1 in
      (removed :: flags, m2)
  end.

(** ** Notions used to state the properties of the polygon manager *)

(** The coordinates of the vertex are in range. *)
Definition inRange (v : Point) : Prop :=
  -90 <= latitude v <= 90 /\ -180 <= longitude v <= 180.

(** A new list of vertices and nothing else. *)
Definition moveTo (vs : list Point) : Updates :=
  {| u_id := None; u_vertices := Some vs; u_notifyOnEntry := None;
     u_notifyOnExit := None; u_metadata := None; u_type := None;
     u_center := None; u_radius := None; u_timeRules := None;
     u_conditionalRules := None; u_hierarchy := None; u_boundingBox := None |}.

(** What [removeCell] leaves of the set of a cell. *)
Definition pruned (k : string) (o : option (list string)) : option (list string) :=
  match o with
  | Some s => if (List.length (remove string_dec k s) =? 0)%nat then None
              else Some (remove string_dec k s)
  | None => None
  end.

(** The stored state of the region says where the point is. *)
Definition settled (point : Point) (g : AdvancedGeofenceRegion) : Prop :=
  wasInside g = Some (isPointInside point g).

(** What a pass reports is consistent: the regions inside contain the point
    and are marked so, the entered are among them, the exited do not contain
    the point and are marked so, and all of them passed the gate. *)
Definition sound (tz : Z -> Z) (point : Point) (ts : Z) (res : CheckResult) : Prop :=
  (forall g, In g (inside res) ->
             isPointInside point g = true /\ wasInside g = Some true /\
             Spec.gateOpen tz g ts = true) /\
  incl (entered res) (inside res) /\
  (forall g, In g (exited res) ->
             isPointInside point g = false /\ wasInside g = Some false /\
             Spec.gateOpen tz g ts = true).

(** A rule for every minute of every day. *)
Definition allDay : TimeBasedRule :=
  {| t_id := "always"; startTime := "00:00"; endTime := "23:59";
     daysOfWeek := [0; 1; 2; 3; 4; 5; 6]%Z; timezone := None; t_isActive := true |}.

(** A rule whose start has no colon. *)
Definition untilNine : TimeBasedRule :=
  {| t_id := "morning"; startTime := "midnight"; endTime := "09:00";
     daysOfWeek := [0; 1; 2; 3; 4; 5; 6]%Z; timezone := None; t_isActive := true |}.

(** An index of two neighbouring cells, with no region stored. *)
Definition twoCells : Manager :=
  {| geofences := [];
     spatialIndex := [((0, 0)%Z, ["a"%string]); ((0, 1)%Z, ["b"%string])];
     hierarchies := []; hierarchyObjects := [] |}.

End PolygonQueries.

(** ** [src/OfflineManager.ts]: callbacks and priorities *)

Module OfflineQueries.
Import OfflineManager.

(** [addSyncCallback]: [this.syncCallbacks.push(callback)] *)
Definition addSyncCallback (callback : nat) (m : Manager) : Manager :=
  {| geofences := geofences m; pendingEvents := pendingEvents m;
     networkStatus := networkStatus m;
     syncCallbacks := syncCallbacks m ++ [callback];
     syncInProgress := syncInProgress m; retryTimeouts := retryTimeouts m |}.

(** [splice(indexOf(callback), 1)] when the callback is found: the first
    occurrence goes. *)
Fixpoint spliceFirst (callback : nat) (callbacks : list nat) : list nat :=
  match callbacks with
  | [] => []
  | c :: r => if Nat.eqb c callback then r else c :: spliceFirst callback r
  end.

Definition removeSyncCallback (callback : nat) (m : Manager) : Manager :=
  {| geofences := geofences m; pendingEvents := pendingEvents m;
     networkStatus := networkStatus m;
     syncCallbacks := spliceFirst callback (syncCallbacks m);
     syncInProgress := syncInProgress m; retryTimeouts := retryTimeouts m |}.

(** The comparator of [prioritizeEvents]. *)
Definition compareEvents (a b : OfflineEvent) : R :=
  if Req_dec_T (timestamp a) (timestamp b) then
    match e_type a, e_type b with
    | enter, exit => -1
    | exit, enter => 1
    | _, _ => 0
    end
  else timestamp a - timestamp b.

(** [Array.prototype.sort] is stable, and with a comparator that orders the
    elements consistently its result is the one stable arrangement in
    order; it is computed here by insertion from the left, an element going
    behind everything that does not compare greater. *)
Fixpoint insertEvent (compare : OfflineEvent -> OfflineEvent -> R)
         (x : OfflineEvent) (sorted : list OfflineEvent) : list OfflineEvent :=
  match sorted with
  | [] => [x]
  | y :: r => if Rltb (compare x y) 0 then x :: y :: r
              else y :: insertEvent compare x r
  end.

Definition sort (compare : OfflineEvent -> OfflineEvent -> R)
           (events : list OfflineEvent) : list OfflineEvent :=
  fold_left (fun sorted x => insertEvent compare x sorted) events [].

Definition prioritizeEvents (m : Manager) : list OfflineEvent :=
  let events := filter (fun e => negb (synced e)) (pendingEvents m) in
  sort compareEvents events.

(** ** Notions used to state the properties of the offline manager *)

(** The order that [prioritizeEvents] promises: older first, and at the
    same instant an exit never before an entry. *)
Definition inOrder (a b : OfflineEvent) : Prop :=
  timestamp a < timestamp b \/
  (timestamp a = timestamp b /\ ~ (e_type a = exit /\ e_type b = enter)).

(** An event of the given kind at the given instant. *)
Definition eventAt (kind : EventType) (ts : R) (sent : bool) : OfflineEvent :=
  {| e_id := "offline_event"; e_type := kind; regionId := "home";
     location := OfflineSamples.atHome; timestamp := ts; synced := sent |}.

(** A connected manager with two events queued and no callback. *)
Definition unheard : Manager :=
  {| geofences := [];
     pendingEvents := [eventAt exit 2 false; eventAt enter 1 false];
     networkStatus := {| isConnected := true; connectionType := wifi;
                         isExpensive := false; lastConnected := 0 |};
     syncCallbacks := []; syncInProgress := false; retryTimeouts := [] |}.

End OfflineQueries.

(** ** [src/WebhookManager.ts]: configuration, rate limit, statistics and
    signature *)

Module WebhookQueries.
Import WebhookManager.

(** [removeWebhook], on the webhooks and the delivery queue: the deliveries
    of a webhook that was removed leave the queue. *)
Definition removeWebhook (id : string) (m : Manager) : bool * Manager :=
  match JsMap.get string_dec (webhooks m) id with
  | Some _ =>
      (true,
       {| webhooks := JsMap.delete string_dec (webhooks m) id;
          deliveryQueue :=
            filter (fun d => negb (String.eqb (webhookId d) id)) (deliveryQueue m);
          isProcessing := isProcessing m |})
  | None => (false, m)
  end.

Definition isFailed (d : WebhookDeliveryAttempt) : bool :=
  match status d with failed => true | _ => false end.

(** [!webhookId || d.webhookId === webhookId]; the empty string is falsy. *)
Definition forWebhook (id : option string) (d : WebhookDeliveryAttempt) : bool :=
  match id with
  | None => true
  | Some EmptyString => true
  | Some i => String.eqb (webhookId d) i
  end.

(** [retryFailedDeliveries]: the failed deliveries of the queue are set
    back to a first pending attempt; their number is returned. *)
Definition retryFailedDeliveries (id : option string) (m : Manager) : nat * Manager :=
  let hit := fun d => isFailed d && forWebhook id d in
  (List.length (filter hit (deliveryQueue m)),
   {| webhooks := webhooks m;
      deliveryQueue :=
        map (fun d => if hit d
                      then {| d_id := d_id d; webhookId := webhookId d; attempt := 1;
                              status := pending; nextRetryAt := None |}
                      else d) (deliveryQueue m);
      isProcessing := isProcessing m |}).

Definition getPendingDeliveries (id : option string) (m : Manager)
  : list WebhookDeliveryAttempt :=
  filter (fun d => isOpen d && forWebhook id d) (deliveryQueue m).

(** *** Rate limit *)

Record RateLimit := { maxRequests : R; windowMs : R }.

Record Tracking := { requests : Z; resetTime : R }.

(** [checkRateLimit], for the id and the [rateLimit] of the webhook, at the
    time [clock]. *)
Definition checkRateLimit (clock : R) (id : string) (rateLimit : option RateLimit)
           (tracking : list (string * Tracking)) : bool * list (string * Tracking) :=
  match rateLimit with
  | None => (true, tracking)
  | Some limit =>
      let fresh := (true, JsMap.set string_dec tracking id
                            {| requests := 1; resetTime := clock + windowMs limit |}) in
      match JsMap.get string_dec tracking id with
      | None => fresh
      | Some t =>
          if Rleb (resetTime t) clock then fresh
          else if Rleb (maxRequests limit) (IZR (requests t)) then (false, tracking)
          else (true, JsMap.set string_dec tracking id
                        {| requests := (requests t + 1)%Z; resetTime := resetTime t |})
      end
  end.

(** *** Statistics *)

Record WebhookStats := {
  s_webhookId : string;
  totalAttempts : Z;
  successfulDeliveries : Z;
  failedDeliveries : Z;
  averageResponseTime : R;
  lastDeliveryAt : option R;
  lastSuccessAt : option R;
  lastFailureAt : option R;
  errorRate : R
}.

Definition initializeStats (id : string) (stats : list (string * WebhookStats))
  : list (string * WebhookStats) :=
  JsMap.set string_dec stats id
    {| s_webhookId := id; totalAttempts := 0; successfulDeliveries := 0;
       failedDeliveries := 0; averageResponseTime := 0;
       lastDeliveryAt := None; lastSuccessAt := None; lastFailureAt := None;
       errorRate := 0 |}.

(** The update of one statistics object. *)
Definition updated (clock : R) (ok : bool) (responseTime : R) (s : WebhookStats)
  : WebhookStats :=
  let total := (totalAttempts s + 1)%Z in
  let failures := if ok then failedDeliveries s else (failedDeliveries s + 1)%Z in
  {| s_webhookId := s_webhookId s;
     totalAttempts := total;
     successfulDeliveries :=
       if ok then (successfulDeliveries s + 1)%Z else successfulDeliveries s;
     failedDeliveries := failures;
     averageResponseTime :=
       (averageResponseTime s * (IZR total - 1) + responseTime) / IZR total;
     lastDeliveryAt := Some clock;
     lastSuccessAt := if ok then Some clock else lastSuccessAt s;
     lastFailureAt := if ok then lastFailureAt s else Some clock;
     errorRate := IZR failures / IZR total |}.

Definition updateStats (clock : R) (id : string) (ok : bool) (responseTime : R)
           (stats : list (string * WebhookStats)) : list (string * WebhookStats) :=
  match JsMap.get string_dec stats id with
  | None => stats
  | Some s => JsMap.set string_dec stats id (updated clock ok responseTime s)
  end.

(** *** Signature *)

Definition alphabet : string :=
  "ABCDEFGHIJKLMNOPQRSTUVWXYZabcdefghijklmnopqrstuvwxyz0123456789+/".

Definition sextet (n : nat) : ascii :=
  match String.get n alphabet with Some c => c | None => "="%char end.

(** [btoa] on a string of bytes. *)
Fixpoint btoa (s : string) : string :=
  match s with
  | EmptyString => EmptyString
  | String a EmptyString =>
      let x := nat_of_ascii a in
      String (sextet (x / 4)) (String (sextet (x mod 4 * 16)) "==")
  | String a (String b EmptyString) =>
      let x := nat_of_ascii a in
      let y := nat_of_ascii b in
      String (sextet (x / 4))
        (String (sextet (x mod 4 * 16 + y / 16))
           (String (sextet (y mod 16 * 4)) "="))
  | String a (String b (String c r)) =>
      let x := nat_of_ascii a in
      let y := nat_of_ascii b in
      let z := nat_of_ascii c in
      String (sextet (x / 4))
        (String (sextet (x mod 4 * 16 + y / 16))
           (String (sextet (y mod 16 * 4 + z / 64))
              (String (sextet (z mod 64)) (btoa r))))
  end.

(** [btoa(data + key).slice(0, 32)] *)
Definition hmacSha256 (data key : string) : string :=
  String.substring 0 32 (btoa (data ++ key)).

Definition verifySignature (secretKey payload signature : string) : bool :=
  String.eqb signature (hmacSha256 payload secretKey).

(** ** Notions used to state the properties of the webhook manager *)

(** The deliveries of the queue that a pass attempts: the first ten that
    are due. *)
Definition attempted (e : Env) (queue : list WebhookDeliveryAttempt) : list nat :=
  firstn 10 (duePositions e queue).

(** A run of calls of [checkRateLimit] for one webhook, at the given times;
    the number of calls let through so far is counted. *)
Definition calls (id : string) (limit : RateLimit) (times : list R)
           (start : nat * list (string * Tracking)) : nat * list (string * Tracking) :=
  fold_left (fun st clock =>
               let (ok, tracking) := checkRateLimit clock id (Some limit) (snd st) in
               ((if ok then S (fst st) else fst st), tracking))
            times start.

(** A run of updates of the statistics of one webhook: each element is the
    outcome and the response time of a request. *)
Definition recorded (clock : R) (id : string) (outcomes : list (bool * R))
           (stats : list (string * WebhookStats)) : list (string * WebhookStats) :=
  fold_left (fun st o => updateStats clock id (fst o) (snd o) st) outcomes stats.

Definition sumTimes (outcomes : list (bool * R)) : R :=
  fold_right (fun o acc => snd o + acc) 0 outcomes.

Definition failures (outcomes : list (bool * R)) : nat :=
  List.length (filter (fun o => negb (fst o)) outcomes).

(** A linear retry configuration. *)
Definition linearRetry : RetryConfig :=
  {| maxRetries := 5; backoffStrategy := linear; baseDelay := 1000; maxDelay := 2500 |}.

End WebhookQueries.
(** * Properties *)

(** ** Facts about maps *)

Module JsMapFacts.
Section Facts.
Variables K V : Type.
Variable K_dec : forall a b : K, {a = b} + {a <> b}.
Implicit Types (m : list (K * V)) (k : K) (v : V).

Lemma get_set_eq m k v : JsMap.get K_dec (JsMap.set K_dec m k v) k = Some v.
Proof.
  induction m as [|[k' v'] r IH]; simpl.
  - destruct (K_dec k k); congruence.
  - destruct (K_dec k k') as [E|N]; simpl.
    + destruct (K_dec k k); congruence.
    + destruct (K_dec k k'); congruence.
Qed.

Lemma get_set_neq m k k' v :
  k' <> k -> JsMap.get K_dec (JsMap.set K_dec m k v) k' = JsMap.get K_dec m k'.
Proof.
  intros Hne. induction m as [|[k0 v0] r IH]; simpl.
  - destruct (K_dec k' k); congruence.
  - destruct (K_dec k k0) as [E|N]; simpl.
    + subst k0. destruct (K_dec k' k); congruence.
    + destruct (K_dec k' k0); congruence.
Qed.

Lemma get_delete_eq m k : JsMap.get K_dec (JsMap.delete K_dec m k) k = None.
Proof.
  induction m as [|[k0 v0] r IH]; simpl; auto.
  destruct (K_dec k k0) as [E|N]; simpl; auto.
  destruct (K_dec k k0); congruence.
Qed.

Lemma get_delete_neq m k k' :
  k' <> k -> JsMap.get K_dec (JsMap.delete K_dec m k) k' = JsMap.get K_dec m k'.
Proof.
  intros Hne. induction m as [|[k0 v0] r IH]; simpl; auto.
  destruct (K_dec k k0) as [E|N]; simpl.
  - subst k0. destruct (K_dec k' k); congruence.
  - destruct (K_dec k' k0); congruence.
Qed.

Lemma get_set m k k' v :
  JsMap.get K_dec (JsMap.set K_dec m k v) k' =
  if K_dec k' k then Some v else JsMap.get K_dec m k'.
Proof.
  destruct (K_dec k' k) as [->|N].
  - apply get_set_eq.
  - now apply get_set_neq.
Qed.

Lemma get_delete m k k' :
  JsMap.get K_dec (JsMap.delete K_dec m k) k' =
  if K_dec k' k then None else JsMap.get K_dec m k'.
Proof.
  destruct (K_dec k' k) as [->|N].
  - apply get_delete_eq.
  - now apply get_delete_neq.
Qed.
End Facts.
End JsMapFacts.

(** ** Facts about numbers *)

Lemma Rltb_true x y : Rltb x y = true <-> x < y.
Proof. unfold Rltb. destruct (Rlt_dec x y); split; intros; auto; discriminate. Qed.

Lemma Rltb_false x y : Rltb x y = false <-> y <= x.
Proof.
  unfold Rltb. destruct (Rlt_dec x y); split; intros; auto; try discriminate; lra.
Qed.

Lemma Rleb_true x y : Rleb x y = true <-> x <= y.
Proof. unfold Rleb. destruct (Rle_dec x y); split; intros; auto; discriminate. Qed.

Lemma Rleb_false x y : Rleb x y = false <-> y < x.
Proof.
  unfold Rleb. destruct (Rle_dec x y); split; intros; auto; try discriminate; lra.
Qed.

Lemma Rgtb_true x y : Rgtb x y = true <-> y < x.
Proof. apply Rltb_true. Qed.

Lemma Rgtb_false x y : Rgtb x y = false <-> x <= y.
Proof. apply Rltb_false. Qed.

Lemma truthy_true x : x <> 0 -> truthy x = true.
Proof. intros H. unfold truthy. destruct (Req_dec_T x 0); congruence. Qed.

Lemma floor_eq (z : Z) (x : R) : IZR z <= x < IZR z + 1 -> floor x = z.
Proof. apply Zfloor_eq. Qed.

Lemma floor_le x y : x <= y -> (floor x <= floor y)%Z.
Proof. apply Zfloor_le. Qed.

Lemma round_IZR (z : Z) : round (IZR z) = z.
Proof. unfold round. apply Zfloor_eq. lra. Qed.

(** ** Time rules *)

Module TimeRules.
Import PolygonGeofence Spec.

Lemma formatParses_all :
  forallb (fun h => forallb (formatParses h) (seq 0 60)) (seq 0 24) = true.
Proof. vm_compute. reflexivity. Qed.

(** Printing a local time as HH:MM and reading it back gives the minute of
    the day. *)
Lemma timeToMinutes_formatTime (h m : Z) :
  (0 <= h < 24)%Z -> (0 <= m < 60)%Z ->
  timeToMinutes (formatTime h m) = Some (h * 60 + m)%Z.
Proof.
  intros Hh Hm.
  pose proof formatParses_all as A.
  rewrite forallb_forall in A.
  specialize (A (Z.to_nat h)).
  rewrite in_seq in A.
  assert (B : forallb (formatParses (Z.to_nat h)) (seq 0 60) = true) by (apply A; lia).
  rewrite forallb_forall in B.
  specialize (B (Z.to_nat m)).
  rewrite in_seq in B.
  assert (C : formatParses (Z.to_nat h) (Z.to_nat m) = true) by (apply B; lia).
  unfold formatParses in C.
  rewrite !Z2Nat.id in C by lia.
  destruct (timeToMinutes (formatTime h m)) as [v|]; [|discriminate].
  apply Z.eqb_eq in C. now subst.
Qed.

Section LocalTime.
Variable utcOffsetMinutes : Z -> Z.

Lemma minuteOfDay_range ts : (0 <= minuteOfDay utcOffsetMinutes ts < 1440)%Z.
Proof.
  unfold minuteOfDay, getHours, getMinutes.
  pose proof (Z.mod_pos_bound (localMillis utcOffsetMinutes ts / 3600000) 24).
  pose proof (Z.mod_pos_bound (localMillis utcOffsetMinutes ts / 60000) 60).
  lia.
Qed.

Lemma timeToMinutes_timeString ts :
  timeToMinutes (timeString utcOffsetMinutes ts) =
  Some (minuteOfDay utcOffsetMinutes ts).
Proof.
  unfold timeString, minuteOfDay.
  apply (timeToMinutes_formatTime (h := getHours utcOffsetMinutes ts)
                                  (m := getMinutes utcOffsetMinutes ts)).
  - unfold getHours. apply Z.mod_pos_bound. lia.
  - unfold getMinutes. apply Z.mod_pos_bound. lia.
Qed.
End LocalTime.

End TimeRules.

Module TimeWindow.
Import PolygonGeofence Spec TimeRules.

Lemma isTimeInRange_minutes time startT endT t s e :
  timeToMinutes time = Some t ->
  timeToMinutes startT = Some s ->
  timeToMinutes endT = Some e ->
  isTimeInRange time startT endT =
  if (s <=? e)%Z then (s <=? t)%Z && (t <=? e)%Z
  else (s <=? t)%Z || (t <=? e)%Z.
Proof.
  intros Ht Hs He. unfold isTimeInRange. rewrite Ht, Hs, He. reflexivity.
Qed.

(** C4, as the code has it: for a rule whose start and end read as the
    minutes [s] and [e], the rule's window matches exactly when the minute of
    the day lies in the closed interval from [s] to [e] (both ends in) when
    [s <= e], and when it is at least [s] or at most [e] when [s > e]. *)
Theorem time_window_inclusive (utcOffsetMinutes : Z -> Z) (rule : TimeBasedRule)
        (timestamp s e : Z) :
  timeToMinutes (startTime rule) = Some s ->
  timeToMinutes (endTime rule) = Some e ->
  let now := minuteOfDay utcOffsetMinutes timestamp in
  let hit := isTimeInRange (timeString utcOffsetMinutes timestamp)
                           (startTime rule) (endTime rule) in
  ((s <= e)%Z -> (hit = true <-> (s <= now <= e)%Z)) /\
  ((e < s)%Z -> (hit = true <-> (s <= now \/ now <= e)%Z)).
Proof.
  intros Hs He now hit.
  assert (E : hit = if (s <=? e)%Z then (s <=? now)%Z && (now <=? e)%Z
                    else (s <=? now)%Z || (now <=? e)%Z).
  { unfold hit. apply isTimeInRange_minutes; auto.
    apply timeToMinutes_timeString. }
  rewrite E. split; intros Hse.
  - destruct (Z.leb_spec s e); [|lia].
    rewrite andb_true_iff, !Z.leb_le. tauto.
  - destruct (Z.leb_spec s e); [lia|].
    rewrite orb_true_iff, !Z.leb_le. tauto.
Qed.

(** At 17:00 the rule 09:00-17:00 still matches. *)
Lemma time_window_inclusive_witness :
  isTimeInRange (timeString utc 61200000) (startTime officeHours)
                (endTime officeHours) = true.
Proof.
  destruct (@time_window_inclusive utc officeHours 61200000 540 1020
              eq_refl eq_refl) as [H _].
  apply H; [lia|].
  change (minuteOfDay utc 61200000) with 1020%Z. lia.
Defined.

(** The end minute is inside the window: a half-open reading fails. *)
Lemma half_open_window_fails : ~ half_open_window.
Proof.
  intros H.
  destruct (H utc officeHours 61200000%Z 540%Z 1020%Z eq_refl eq_refl) as [A _].
  assert (B : (540 <= 1020)%Z) by lia.
  apply A in B.
  assert (C : (minuteOfDay utc 61200000 < 1020)%Z).
  { apply B. vm_compute. reflexivity. }
  vm_compute in C. discriminate.
Qed.

End TimeWindow.

(** ** Retry delays *)

Module Backoff.
Import Spec.
Import WebhookManager.


Lemma backoffDelay_le_max c a : backoffDelay c a <= maxDelay c.
Proof. unfold backoffDelay. apply Rbasic_fun.Rmin_r. Qed.








Lemma backoffDelay_default_8 : backoffDelay defaultRetry 8 = 60000.
Proof.
  unfold backoffDelay. simpl. apply Rmin_right. lra.
Qed.


End Backoff.

(** ** Compression of events *)

Module Compression.
Import Spec.
Import OfflineManager.

Lemma round6_sixDecimals x : sixDecimals x -> round6 x = x.
Proof.
  intros [z ->]. unfold round6.
  replace (IZR z / 1000000 * 1000000) with (IZR z) by (field; lra).
  now rewrite round_IZR.
Qed.

Lemma decompress_compress_event e :
  decompressEvent (compressEvent e) = Some (restored e).
Proof.
  unfold decompressEvent, compressEvent, field. cbn.
  unfold restored, round6. do 2 f_equal.
  destruct (e_type e).
  - destruct (Req_dec_T 1 1); [reflexivity|lra].
  - destruct (Req_dec_T 0 1); [lra|reflexivity].
Qed.

Lemma decompress_compress events :
  decompressEvents (compressEvents events) = Some (map restored events).
Proof.
  unfold decompressEvents, compressEvents.
  induction events as [|e r IH]; cbn [map mapOption]; auto.
  now rewrite decompress_compress_event, IH.
Qed.

(** C10: for events whose coordinates have at most six decimal places,
    decompressing the compressed list gives a list of the same length whose
    elements keep, position by position, the id, type, region id and
    timestamp and the rounded coordinates (which are then the coordinates
    themselves), with [synced] false and no accuracy in the location. *)
Theorem decompress_compress_events (events : list OfflineEvent) :
  Forall (fun e => sixDecimals (l_latitude (location e)) /\
                   sixDecimals (l_longitude (location e))) events ->
  exists out,
    decompressEvents (compressEvents events) = Some out /\
    List.length out = List.length events /\
    Forall2 (fun e o =>
               e_id o = e_id e /\ e_type o = e_type e /\
               regionId o = regionId e /\ timestamp o = timestamp e /\
               l_latitude (location o) = round6 (l_latitude (location e)) /\
               l_longitude (location o) = round6 (l_longitude (location e)) /\
               l_latitude (location o) = l_latitude (location e) /\
               l_longitude (location o) = l_longitude (location e) /\
               synced o = false /\ accuracy (location o) = None)
            events out.
Proof.
  intros H. exists (map restored events).
  split; [apply decompress_compress|].
  split; [apply length_map|].
  induction H as [|e r [Hlat Hlng] _ IH]; simpl; constructor; auto.
  simpl. rewrite !round6_sixDecimals by assumption.
  repeat split; reflexivity.
Qed.

Lemma decompress_compress_events_witness :
  exists out,
    decompressEvents (compressEvents [sampleEvent]) = Some out /\
    List.length out = 1%nat.
Proof.
  assert (H : Forall (fun e => sixDecimals (l_latitude (location e)) /\
                               sixDecimals (l_longitude (location e)))
                     [sampleEvent]).
  { constructor; [|constructor]. split.
    - exists 12345678%Z. reflexivity.
    - exists (-98765432)%Z. simpl. lra. }
  destruct (decompress_compress_events H) as (out & A & B & _).
  exists out. split; assumption.
Defined.

End Compression.

(** ** Geometry: bounding boxes, grid cells, ray casting *)

Module Geometry.
Import PolygonGeofence Spec.

Lemma fold_min_le_acc xs x : fold_left Rmin xs x <= x.
Proof.
  revert x. induction xs as [|a r IH]; intros x; simpl; [lra|].
  eapply Rle_trans; [apply IH|]. apply Rbasic_fun.Rmin_l.
Qed.

Lemma fold_min_le_in xs x y : In y xs -> fold_left Rmin xs x <= y.
Proof.
  revert x. induction xs as [|a r IH]; intros x; simpl; [tauto|].
  intros [->|H].
  - eapply Rle_trans; [apply fold_min_le_acc|]. apply Rbasic_fun.Rmin_r.
  - now apply IH.
Qed.

Lemma fold_max_ge_acc xs x : x <= fold_left Rmax xs x.
Proof.
  revert x. induction xs as [|a r IH]; intros x; simpl; [lra|].
  eapply Rle_trans; [|apply IH]. apply Rbasic_fun.Rmax_l.
Qed.

Lemma fold_max_ge_in xs x y : In y xs -> y <= fold_left Rmax xs x.
Proof.
  revert x. induction xs as [|a r IH]; intros x; simpl; [tauto|].
  intros [->|H].
  - eapply Rle_trans; [|apply fold_max_ge_acc]. apply Rbasic_fun.Rmax_r.
  - now apply IH.
Qed.

Lemma polygonBox_vertex vs b v :
  polygonBox vs = Some b -> In v vs -> inBox v b.
Proof.
  destruct vs as [|v0 rest]; [discriminate|]. intros [= <-] Hin.
  unfold inBox, minOf, maxOf; simpl.
  destruct Hin as [->|Hin].
  - repeat split; first [apply fold_min_le_acc | apply fold_max_ge_acc].
  - repeat split;
      first [apply fold_min_le_in | apply fold_max_ge_in]; now apply in_map.
Qed.

Lemma in_range a b z : In z (range a b) <-> (a <= z <= b)%Z.
Proof.
  unfold range. rewrite in_map_iff. split.
  - intros (i & <- & Hi). apply in_seq in Hi. lia.
  - intros H. exists (Z.to_nat (z - a)). split; [lia|]. apply in_seq. lia.
Qed.

Lemma in_getGridCells b la ln :
  In (la, ln) (getGridCells b) <->
  (floor (minLat b / GRID_SIZE)%R <= la <= floor (maxLat b / GRID_SIZE)%R)%Z /\
  (floor (minLng b / GRID_SIZE)%R <= ln <= floor (maxLng b / GRID_SIZE)%R)%Z.
Proof.
  unfold getGridCells. rewrite in_flat_map. split.
  - intros (x & Hx & Hin). apply in_map_iff in Hin. destruct Hin as (y & [= <- <-] & Hy).
    apply in_range in Hx. apply in_range in Hy. tauto.
  - intros [H1 H2]. exists la. split; [now apply in_range|].
    apply in_map_iff. exists ln. split; auto. now apply in_range.
Qed.

Lemma div_grid_le x y : x <= y -> x / GRID_SIZE <= y / GRID_SIZE.
Proof. unfold GRID_SIZE. lra. Qed.

Lemma inBox_cell p b :
  inBox p b -> In (getGridCell (latitude p) (longitude p)) (getGridCells b).
Proof.
  intros [[H1 H2] [H3 H4]]. unfold getGridCell. apply in_getGridCells.
  repeat split; apply floor_le, div_grid_le; assumption.
Qed.

Lemma crossing_abscissa x xi xj y yi yj :
  (yj <= y < yi \/ yi <= y < yj) ->
  x < xi -> x < xj ->
  x < (xj - xi) * (y - yi) / (yj - yi) + xi.
Proof.
  intros Hy Hxi Hxj.
  assert (Hd : yj - yi <> 0) by lra.
  set (t := (y - yi) / (yj - yi)).
  assert (Ht : t * (yj - yi) = y - yi) by (unfold t; field; exact Hd).
  replace ((xj - xi) * (y - yi) / (yj - yi) + xi) with ((xj - xi) * t + xi)
    by (unfold t; field; exact Hd).
  assert (H01 : 0 <= t <= 1).
  { destruct Hy as [Hy|Hy]; split; nra. }
  destruct (Rle_lt_dec xi xj); nra.
Qed.

Lemma crossing_abscissa_max x xi xj y yi yj :
  (yj <= y < yi \/ yi <= y < yj) ->
  x < (xj - xi) * (y - yi) / (yj - yi) + xi ->
  x < xi \/ x < xj.
Proof.
  intros Hy Hx.
  assert (Hd : yj - yi <> 0) by lra.
  set (t := (y - yi) / (yj - yi)) in *.
  assert (Ht : t * (yj - yi) = y - yi) by (unfold t; field; exact Hd).
  replace ((xj - xi) * (y - yi) / (yj - yi) + xi) with ((xj - xi) * t + xi) in Hx
    by (unfold t; field; exact Hd).
  assert (H01 : 0 <= t <= 1).
  { destruct Hy as [Hy|Hy]; split; nra. }
  destruct (Rle_lt_dec xi xj); [right|left]; nra.
Qed.

Lemma xorb_above y vi vj :
  xorb (above y vi) (above y vj) = true ->
  latitude vj <= y < latitude vi \/ latitude vi <= y < latitude vj.
Proof.
  unfold above.
  destruct (Rgtb (latitude vi) y) eqn:A, (Rgtb (latitude vj) y) eqn:B;
    simpl; try discriminate; intros _;
    repeat match goal with
           | H : Rgtb _ _ = true |- _ => apply Rgtb_true in H
           | H : Rgtb _ _ = false |- _ => apply Rgtb_false in H
           end; lra.
Qed.

Lemma edgeCrosses_left p vi vj :
  longitude p < longitude vi -> longitude p < longitude vj ->
  edgeCrosses p vi vj = xorb (above (latitude p) vi) (above (latitude p) vj).
Proof.
  intros Hi Hj. unfold edgeCrosses.
  fold (above (latitude p) vi). fold (above (latitude p) vj).
  destruct (xorb (above (latitude p) vi) (above (latitude p) vj)) eqn:E; auto.
  apply xorb_above in E. simpl. apply Rltb_true.
  now apply crossing_abscissa.
Qed.

Lemma edgeCrosses_bounds p vi vj :
  edgeCrosses p vi vj = true ->
  (latitude vj <= latitude p < latitude vi \/ latitude vi <= latitude p < latitude vj) /\
  (longitude p < longitude vi \/ longitude p < longitude vj).
Proof.
  unfold edgeCrosses.
  fold (above (latitude p) vi). fold (above (latitude p) vj).
  intros H. apply andb_true_iff in H. destruct H as [A B].
  apply xorb_above in A. apply Rltb_true in B.
  split; auto. eapply crossing_abscissa_max; eauto.
Qed.

Lemma rayCast_true_edge p vs : forall vj b,
  rayCast p vj vs b = true ->
  b = true \/
  exists vi vj', In vi vs /\ In vj' (vj :: vs) /\ edgeCrosses p vi vj' = true.
Proof.
  induction vs as [|vi rest IH]; intros vj b H; simpl in H; [now left|].
  apply IH in H. destruct H as [H|(v & v' & A & B & C)].
  - destruct (edgeCrosses p vi vj) eqn:E.
    + right. exists vi, vj. simpl. auto.
    + now left.
  - right. exists v, v'. simpl. simpl in B. tauto.
Qed.

Lemma last_In {A} (l : list A) d : l <> [] -> In (last l d) l.
Proof.
  induction l as [|a r IH]; [congruence|]. intros _.
  destruct r as [|b r']; [now left|].
  right. apply IH. discriminate.
Qed.

Lemma last_nonempty {A} (l : list A) d d' : l <> [] -> last l d = last l d'.
Proof.
  induction l as [|a r IH]; [congruence|]. intros _.
  destruct r as [|b r']; [reflexivity|].
  change (last (a :: b :: r') d) with (last (b :: r') d).
  change (last (a :: b :: r') d') with (last (b :: r') d').
  apply IH. discriminate.
Qed.

Lemma rayCast_left p vs : forall vj b,
  (forall v, In v (vj :: vs) -> longitude p < longitude v) ->
  rayCast p vj vs b =
  xorb b (xorb (above (latitude p) vj) (above (latitude p) (last vs vj))).
Proof.
  induction vs as [|vi rest IH]; intros vj b H.
  - simpl. rewrite xorb_nilpotent. now rewrite xorb_false_r.
  - cbn [rayCast]. rewrite IH by (intros v Hv; apply H; simpl in *; tauto).
    rewrite edgeCrosses_left by (apply H; simpl; auto).
    assert (L : last (vi :: rest) vj = last rest vi).
    { destruct rest as [|a r]; [reflexivity|].
      change (last (vi :: a :: r) vj) with (last (a :: r) vj).
      apply last_nonempty. discriminate. }
    rewrite L.
    destruct b, (above (latitude p) vi), (above (latitude p) vj),
      (above (latitude p) (last rest vi)); reflexivity.
Qed.

(** A polygon contains only points of its bounding box. *)
Lemma polygon_inside_box p vs :
  isPointInPolygon p vs = true ->
  exists b, polygonBox vs = Some b /\ inBox p b.
Proof.
  unfold isPointInPolygon.
  destruct (List.length vs <? 3)%nat eqn:L; [discriminate|].
  intros H.
  assert (Hne : vs <> []) by (intros ->; discriminate).
  destruct (polygonBox vs) as [b|] eqn:Hb;
    [|destruct vs; [congruence|discriminate]].
  exists b. split; auto.
  assert (Hlast : In (last vs origin) vs) by now apply last_In.
  pose proof (@rayCast_true_edge _ _ _ _ H) as [F|(vi & vj & Hi & Hj & E)];
    [discriminate|].
  assert (Hj' : In vj vs) by (destruct Hj as [<-|]; auto).
  apply edgeCrosses_bounds in E. destruct E as [Ey Ex].
  pose proof (@polygonBox_vertex _ _ _ Hb Hi) as [[? ?] [? ?]].
  pose proof (@polygonBox_vertex _ _ _ Hb Hj') as [[? ?] [? ?]].
  unfold inBox. split; [lra|]. split; [|lra].
  destruct (Rle_lt_dec (minLng b) (longitude p)) as [|Hlt]; auto.
  exfalso.
  rewrite rayCast_left in H.
  - rewrite (@last_nonempty _ vs (last vs origin) origin Hne) in H.
    rewrite xorb_nilpotent in H. discriminate.
  - intros v [<-|Hv].
    + pose proof (@polygonBox_vertex _ _ _ Hb Hlast) as [_ [? _]]. lra.
    + pose proof (@polygonBox_vertex _ _ _ Hb Hv) as [_ [? _]]. lra.
Qed.

End Geometry.

(** ** The spatial index *)

Module IndexFacts.
Import PolygonGeofence Spec Geometry.

Lemma addCell_get k idx cell c :
  JsMap.get Cell_dec (addCell k idx cell) c =
  if Cell_dec c cell then Some (set_add string_dec k (cellSet idx cell))
  else JsMap.get Cell_dec idx c.
Proof.
  unfold addCell, JsMap.has, cellSet.
  destruct (JsMap.get Cell_dec idx cell) as [s|] eqn:E.
  - rewrite E. apply JsMapFacts.get_set.
  - rewrite JsMapFacts.get_set_eq. rewrite JsMapFacts.get_set.
    destruct (Cell_dec c cell) as [->|N]; auto.
    now rewrite JsMapFacts.get_set_neq.
Qed.

Lemma addCell_mono k idx cell c k' :
  inCell idx c k' -> inCell (addCell k idx cell) c k'.
Proof.
  intros (s & Hs & Hin). unfold inCell. rewrite addCell_get.
  destruct (Cell_dec c cell) as [->|N]; [|eauto].
  eexists. split; [reflexivity|].
  apply set_add_intro1. unfold cellSet. now rewrite Hs.
Qed.

Lemma addCell_new k idx cell : inCell (addCell k idx cell) cell k.
Proof.
  unfold inCell. rewrite addCell_get.
  destruct (Cell_dec cell cell); [|congruence].
  eexists. split; [reflexivity|]. now apply set_add_intro2.
Qed.

Lemma fold_addCell_mono k cells : forall idx c k',
  inCell idx c k' -> inCell (fold_left (addCell k) cells idx) c k'.
Proof.
  induction cells as [|a r IH]; intros idx c k' H; simpl; auto.
  apply IH. now apply addCell_mono.
Qed.

Lemma fold_addCell_new k cells : forall idx c,
  In c cells -> inCell (fold_left (addCell k) cells idx) c k.
Proof.
  induction cells as [|a r IH]; intros idx c H; simpl; [destruct H|].
  destruct H as [->|H].
  - apply fold_addCell_mono, addCell_new.
  - now apply IH.
Qed.

Lemma removeCell_keeps k idx cell c k' :
  k' <> k -> inCell idx c k' -> inCell (removeCell k idx cell) c k'.
Proof.
  intros Hne (s & Hs & Hin). unfold removeCell, inCell.
  destruct (JsMap.get Cell_dec idx cell) as [l|] eqn:E; [|eauto].
  destruct (Cell_dec c cell) as [->|N].
  - assert (l = s) by congruence. subst l.
    assert (Hin' : In k' (remove string_dec k s)) by now apply in_in_remove.
    destruct (List.length (remove string_dec k s) =? 0)%nat eqn:L.
    + apply Nat.eqb_eq in L. apply length_zero_iff_nil in L.
      rewrite L in Hin'. destruct Hin'.
    + rewrite JsMapFacts.get_set_eq. eauto.
  - destruct (List.length (remove string_dec k l) =? 0)%nat.
    + rewrite JsMapFacts.get_delete_neq by assumption. eauto.
    + rewrite JsMapFacts.get_set_neq by assumption. eauto.
Qed.

Lemma fold_removeCell_keeps k cells : forall idx c k',
  k' <> k -> inCell idx c k' -> inCell (fold_left (removeCell k) cells idx) c k'.
Proof.
  induction cells as [|a r IH]; intros idx c k' Hne H; simpl; auto.
  apply IH; auto. now apply removeCell_keeps.
Qed.

Lemma addAll_mono ids : forall acc k, In k acc -> In k (addAll acc ids).
Proof.
  unfold addAll. induction ids as [|i r IH]; intros acc k H; simpl; auto.
  apply IH. now apply set_add_intro1.
Qed.

Lemma candidateIdsOf_own idx cell k :
  inCell idx cell k -> In k (candidateIdsOf idx cell).
Proof.
  intros (s & Hs & Hin). unfold candidateIdsOf. rewrite Hs.
  generalize (getAdjacentCells cell). intros cells.
  clear Hs. revert s Hin.
  induction cells as [|c r IH]; intros s Hin; simpl; auto.
  apply IH. destruct (JsMap.get Cell_dec idx c); auto.
  now apply addAll_mono.
Qed.

Lemma candidates_In p m key g :
  In (key, g) (fst (getCandidateGeofences p m)) <->
  In key (candidateIdsOf (spatialIndex m)
            (getGridCell (latitude p) (longitude p))) /\
  JsMap.get string_dec (geofences m) key = Some g.
Proof.
  unfold getCandidateGeofences. cbn [fst]. rewrite in_flat_map. split.
  - intros (i & Hi & Hin).
    destruct (JsMap.get string_dec (geofences m) i) as [g'|] eqn:E;
      [|destruct Hin].
    destruct Hin as [[= <- <-]|[]]. auto.
  - intros [Hi Hg]. exists key. split; auto. rewrite Hg. now left.
Qed.

Lemma candidates_geofences p m :
  geofences (snd (getCandidateGeofences p m)) = geofences m.
Proof. reflexivity. Qed.

Lemma candidates_index_mono p m c k :
  inCell (spatialIndex m) c k ->
  inCell (spatialIndex (snd (getCandidateGeofences p m))) c k.
Proof.
  intros H. unfold getCandidateGeofences. cbn [snd spatialIndex].
  set (cellKey := getGridCell (latitude p) (longitude p)).
  destruct (JsMap.get Cell_dec (spatialIndex m) cellKey) as [s|] eqn:E; auto.
  unfold inCell. rewrite JsMapFacts.get_set.
  destruct (Cell_dec c cellKey) as [->|N]; [|exact H].
  eexists. split; [reflexivity|]. now apply candidateIdsOf_own.
Qed.

End IndexFacts.

(** ** One evaluation pass *)

Module PassFacts.
Import PolygonGeofence Spec.

Section Pass.
Variable tz : Z -> Z.
Variable point : Point.
Variable ts : Z.

Let Store := list (string * AdvancedGeofenceRegion).

Lemma checkOne_closed acc key g :
  gateOpen tz g ts = false -> checkOne tz point ts acc (key, g) = acc.
Proof.
  unfold gateOpen, checkOne. destruct acc as [res store].
  destruct (isTimeRuleActive tz g ts); simpl; auto.
  intros ->. reflexivity.
Qed.

Lemma checkOne_open_store res (store : Store) key g :
  gateOpen tz g ts = true ->
  snd (checkOne tz point ts (res, store) (key, g)) =
  JsMap.set string_dec store key (with_wasInside g (isPointInside point g)).
Proof.
  unfold gateOpen, checkOne. intros H. apply andb_true_iff in H.
  destruct H as [-> ->]. reflexivity.
Qed.

Lemma checkOne_open_entered res (store : Store) key g :
  gateOpen tz g ts = true ->
  entered (fst (checkOne tz point ts (res, store) (key, g))) =
  if isPointInside point g && negb (wasInsideOf g) && notifyOnEntry g
  then entered res ++ [with_wasInside g (isPointInside point g)]
  else entered res.
Proof.
  unfold gateOpen, checkOne. intros H. apply andb_true_iff in H.
  destruct H as [-> ->]. cbn [negb fst].
  destruct (isPointInside point g); cbn [andb].
  - destruct (negb (wasInsideOf g) && notifyOnEntry g); reflexivity.
  - destruct (wasInsideOf g && notifyOnExit g); reflexivity.
Qed.

(** A key that no open candidate carries keeps its region. *)
Lemma pass_untouched cands key : forall acc,
  (forall g, In (key, g) cands -> gateOpen tz g ts = false) ->
  JsMap.get string_dec (snd (fold_left (checkOne tz point ts) cands acc)) key =
  JsMap.get string_dec (snd acc) key.
Proof.
  induction cands as [|[k g] r IH]; intros acc H; simpl; auto.
  rewrite IH by (intros g' Hg'; apply H; now right).
  destruct (gateOpen tz g ts) eqn:G.
  - destruct acc as [res store]. rewrite checkOne_open_store by assumption.
    cbn [snd]. apply JsMapFacts.get_set_neq.
    intros ->. specialize (H g (or_introl eq_refl)). congruence.
  - now rewrite checkOne_closed.
Qed.

(** Once written, the state of a key stays: every later write of the pass
    to that key writes the same region. *)
Lemma pass_written_stays cands key g : forall acc,
  (forall g', In (key, g') cands -> g' = g) ->
  JsMap.get string_dec (snd acc) key =
    Some (with_wasInside g (isPointInside point g)) ->
  JsMap.get string_dec (snd (fold_left (checkOne tz point ts) cands acc)) key =
    Some (with_wasInside g (isPointInside point g)).
Proof.
  induction cands as [|[k g0] r IH]; intros acc Hsame Hget; simpl; auto.
  apply IH; [intros g' Hg'; apply Hsame; now right|].
  destruct (gateOpen tz g0 ts) eqn:G.
  - destruct acc as [res store]. rewrite checkOne_open_store by assumption.
    cbn [snd] in *. rewrite JsMapFacts.get_set.
    destruct (string_dec key k) as [->|N]; auto.
    rewrite (Hsame g0 (or_introl eq_refl)). reflexivity.
  - now rewrite checkOne_closed.
Qed.

(** The pass writes the containment result of every open candidate. *)
Lemma pass_writes cands key g : forall acc,
  (forall g', In (key, g') cands -> g' = g) ->
  In (key, g) cands ->
  gateOpen tz g ts = true ->
  JsMap.get string_dec (snd (fold_left (checkOne tz point ts) cands acc)) key =
    Some (with_wasInside g (isPointInside point g)).
Proof.
  induction cands as [|[k g0] r IH]; intros acc Hsame Hin Hopen; [destruct Hin|].
  simpl. destruct Hin as [[= -> ->]|Hin].
  - apply pass_written_stays; [intros g' Hg'; apply Hsame; now right|].
    destruct acc as [res store]. rewrite checkOne_open_store by assumption.
    cbn [snd]. apply JsMapFacts.get_set_eq.
  - apply IH; auto. intros g' Hg'. apply Hsame. now right.
Qed.

(** What the store holds after the pass is what it held before, or the
    region of a candidate with its state written. *)
Lemma pass_store_origin cands key gf : forall acc,
  JsMap.get string_dec (snd (fold_left (checkOne tz point ts) cands acc)) key = Some gf ->
  JsMap.get string_dec (snd acc) key = Some gf \/
  exists g b, In (key, g) cands /\ gf = with_wasInside g b.
Proof.
  induction cands as [|[k g0] r IH]; intros acc H; simpl in H; auto.
  apply IH in H. destruct H as [H|(g & b & Hin & E)].
  - destruct (gateOpen tz g0 ts) eqn:G.
    + destruct acc as [res store].
      rewrite checkOne_open_store in H by assumption. cbn [snd] in *.
      rewrite JsMapFacts.get_set in H.
      destruct (string_dec key k) as [->|N]; auto.
      injection H as <-. right. exists g0, (isPointInside point g0).
      split; [now left|reflexivity].
    + rewrite checkOne_closed in H by assumption. auto.
  - right. exists g, b. split; [now right|assumption].
Qed.

(** Every region reported as entered comes from an open candidate that was
    stored as outside. *)
Lemma pass_entered_origin cands r : forall acc,
  In r (entered (fst (fold_left (checkOne tz point ts) cands acc))) ->
  In r (entered (fst acc)) \/
  exists key g, In (key, g) cands /\ gateOpen tz g ts = true /\
                wasInsideOf g = false /\ id r = id g.
Proof.
  induction cands as [|[k g0] rest IH]; intros acc H; simpl in H; auto.
  apply IH in H. destruct H as [H|(key & g & Hin & A & B & C)].
  - destruct (gateOpen tz g0 ts) eqn:G.
    + destruct acc as [res store].
      rewrite checkOne_open_entered in H by assumption. cbn [fst].
      destruct (isPointInside point g0 && negb (wasInsideOf g0) && notifyOnEntry g0) eqn:E;
        auto.
      apply in_app_iff in H. destruct H as [H|[<-|[]]]; auto.
      right. exists k, g0. split; [now left|]. split; auto.
      apply andb_true_iff in E. destruct E as [E _].
      apply andb_true_iff in E. destruct E as [_ E].
      apply negb_true_iff in E. auto.
    + rewrite checkOne_closed in H by assumption. auto.
  - right. exists key, g. split; [now right|]. auto.
Qed.
End Pass.

End PassFacts.

(** ** The index invariant and the evaluation engine *)

Module Engine.
Import PolygonGeofence Spec Geometry IndexFacts PassFacts.

Lemma addGeofence_geofences region m :
  geofences (snd (addGeofence region m)) =
  JsMap.set string_dec (geofences m) (id region)
            (with_boundingBox region (calculateBoundingBox region)).
Proof.
  unfold addGeofence. cbn [hierarchy with_boundingBox].
  destruct (hierarchy region); [|reflexivity].
  destruct (updateHierarchyReferences _ _ _). reflexivity.
Qed.

Lemma addGeofence_index region m :
  spatialIndex (snd (addGeofence region m)) =
  addToSpatialIndex (with_boundingBox region (calculateBoundingBox region))
                    (spatialIndex m).
Proof.
  unfold addGeofence. cbn [hierarchy with_boundingBox].
  destruct (hierarchy region); [|reflexivity].
  destruct (updateHierarchyReferences _ _ _). reflexivity.
Qed.

Lemma addGeofence_id region m : fst (addGeofence region m) = id region.
Proof.
  unfold addGeofence. cbn [hierarchy with_boundingBox].
  destruct (hierarchy region); [|reflexivity].
  destruct (updateHierarchyReferences _ _ _). reflexivity.
Qed.

Lemma addToSpatialIndex_mono g idx c k :
  inCell idx c k -> inCell (addToSpatialIndex g idx) c k.
Proof.
  unfold addToSpatialIndex. destruct (boundingBox g); auto.
  apply fold_addCell_mono.
Qed.

Lemma addToSpatialIndex_new g idx b c :
  boundingBox g = Some b -> In c (getGridCells b) ->
  inCell (addToSpatialIndex g idx) c (id g).
Proof.
  unfold addToSpatialIndex. intros -> H. now apply fold_addCell_new.
Qed.

Lemma removeFromSpatialIndex_keeps g idx c k :
  k <> id g -> inCell idx c k -> inCell (removeFromSpatialIndex g idx) c k.
Proof.
  unfold removeFromSpatialIndex. destruct (boundingBox g); auto.
  intros. now apply fold_removeCell_keeps.
Qed.

Lemma indexed_empty : indexed empty.
Proof. intros key g H. discriminate. Qed.

Lemma indexed_add region m : indexed m -> indexed (snd (addGeofence region m)).
Proof.
  intros I key g H.
  rewrite addGeofence_geofences in H. rewrite addGeofence_index.
  rewrite JsMapFacts.get_set in H.
  destruct (string_dec key (id region)) as [->|N].
  - injection H as <-. split; [reflexivity|]. split; [reflexivity|].
    intros b cell Hb Hc.
    exact (@addToSpatialIndex_new
             (with_boundingBox region (calculateBoundingBox region)) _ b cell Hb Hc).
  - destruct (I key g H) as (A & B & C). split; auto. split; auto.
    intros b cell Hb Hc. apply addToSpatialIndex_mono. eauto.
Qed.

Lemma removeGeofence_geofences regionId m g :
  JsMap.get string_dec (geofences m) regionId = Some g ->
  geofences (snd (removeGeofence regionId m)) =
    JsMap.delete string_dec (geofences m) regionId /\
  spatialIndex (snd (removeGeofence regionId m)) =
    removeFromSpatialIndex g (spatialIndex m).
Proof.
  intros H. unfold removeGeofence. rewrite H.
  destruct (hierarchy g); [|split; reflexivity].
  destruct (removeFromHierarchy _ _ _). split; reflexivity.
Qed.

Lemma indexed_remove regionId m : indexed m -> indexed (snd (removeGeofence regionId m)).
Proof.
  intros I.
  destruct (JsMap.get string_dec (geofences m) regionId) as [g0|] eqn:E.
  - destruct (@removeGeofence_geofences regionId m g0 E) as [Eg Ei].
    intros key g H. rewrite Eg in H. rewrite Ei.
    rewrite JsMapFacts.get_delete in H.
    destruct (string_dec key regionId) as [->|N]; [discriminate|].
    destruct (I key g H) as (A & B & C). split; auto. split; auto.
    intros b cell Hb Hc. apply removeFromSpatialIndex_keeps; eauto.
    destruct (I regionId g0 E) as (A0 & _). congruence.
  - unfold removeGeofence. rewrite E. exact I.
Qed.

Lemma checkLocation_geofences tz p ts m :
  geofences (snd (checkLocation tz p ts m)) =
  snd (fold_left (checkOne tz p ts) (fst (getCandidateGeofences p m))
                 (noResult, geofences m)).
Proof.
  unfold checkLocation, getCandidateGeofences. cbn [fst snd geofences].
  destruct (fold_left _ _ _). reflexivity.
Qed.

Lemma checkLocation_result tz p ts m :
  fst (checkLocation tz p ts m) =
  fst (fold_left (checkOne tz p ts) (fst (getCandidateGeofences p m))
                 (noResult, geofences m)).
Proof.
  unfold checkLocation, getCandidateGeofences. cbn [fst snd geofences].
  destruct (fold_left _ _ _). reflexivity.
Qed.

Lemma checkLocation_index tz p ts m :
  spatialIndex (snd (checkLocation tz p ts m)) =
  spatialIndex (snd (getCandidateGeofences p m)).
Proof.
  unfold checkLocation, getCandidateGeofences. cbn [fst snd geofences spatialIndex].
  destruct (fold_left _ _ _). reflexivity.
Qed.

Lemma indexed_check tz p ts m : indexed m -> indexed (snd (checkLocation tz p ts m)).
Proof.
  intros I key gf H. rewrite checkLocation_geofences in H.
  rewrite checkLocation_index.
  apply pass_store_origin in H. cbn [snd] in H.
  destruct H as [H|(g & b & Hin & ->)].
  - destruct (I key gf H) as (A & B & C). split; auto. split; auto.
    intros bb cell Hb Hc. apply candidates_index_mono. eauto.
  - apply candidates_In in Hin. destruct Hin as [_ Hg].
    destruct (I key g Hg) as (A & B & C). split; auto. split; auto.
    intros bb cell Hb Hc. apply candidates_index_mono. eauto.
Qed.

Lemma reachable_indexed tz m : reachable tz m -> indexed m.
Proof.
  induction 1.
  - apply indexed_empty.
  - now apply indexed_add.
  - now apply indexed_remove.
  - now apply indexed_check.
Qed.

Lemma reachable_passes tz fixes : forall m,
  reachable tz m -> reachable tz (passes tz fixes m).
Proof.
  unfold passes. induction fixes as [|f r IH]; intros m H; simpl; auto.
  apply IH. now constructor.
Qed.

(** C3, as the code has it: in every manager built by adding, removing and
    evaluating, a live region is among the candidates of a point whenever
    the point lies in the region's bounding box, and so whenever a polygon
    region contains the point (a polygon lies within its box).  A circle's
    box is a rough conversion of its radius to degrees and is not claimed to
    enclose the circle. *)
Theorem candidates_cover_box tz m key g point :
  reachable tz m ->
  JsMap.get string_dec (geofences m) key = Some g ->
  ((exists b, boundingBox g = Some b /\ inBox point b) \/
   (type g = polygon /\ isPointInside point g = true)) ->
  In (key, g) (fst (getCandidateGeofences point m)).
Proof.
  intros Hr Hg Hin. apply reachable_indexed in Hr.
  destruct (Hr key g Hg) as (A & B & C).
  assert (Hbox : exists b, boundingBox g = Some b /\ inBox point b).
  { destruct Hin as [H|[Ht Hi]]; auto.
    unfold isPointInside in Hi. rewrite Ht in Hi.
    apply polygon_inside_box in Hi. destruct Hi as (b & Hb & Hi).
    exists b. split; auto. rewrite B. unfold calculateBoundingBox.
    now rewrite Ht. }
  destruct Hbox as (b & Hb & Hi).
  apply candidates_In. split; auto.
  apply candidateIdsOf_own. apply (C b); auto. now apply inBox_cell.
Qed.

Lemma checkLocation_skips tz p ts m key g :
  JsMap.get string_dec (geofences m) key = Some g ->
  gateOpen tz g ts = false ->
  JsMap.get string_dec (geofences (snd (checkLocation tz p ts m))) key = Some g.
Proof.
  intros Hg Hc. rewrite checkLocation_geofences.
  rewrite pass_untouched; auto.
  intros g' Hin. apply candidates_In in Hin. destruct Hin as [_ Hg'].
  congruence.
Qed.

(** The polygon manager writes the containment result of every candidate
    that passes the gate, whether or not an event is reported. *)
Lemma checkLocation_tracks tz p ts m key g :
  In (key, g) (fst (getCandidateGeofences p m)) ->
  gateOpen tz g ts = true ->
  storedState (snd (checkLocation tz p ts m)) key = Some (isPointInside p g).
Proof.
  intros Hin Ho. unfold storedState. rewrite checkLocation_geofences.
  rewrite (@pass_writes tz p ts _ key g); auto.
  intros g' Hin'. apply candidates_In in Hin. apply candidates_In in Hin'.
  destruct Hin, Hin'. congruence.
Qed.

(** C2: a region that fails the activation gate at every fix of a run of
    passes is stored after the run exactly as before, its inside/outside
    state included; and if it was stored as inside, the next pass, whatever
    its fix and time, does not report it as entered. *)
Theorem gate_skip_preserves_state tz m key g fixes :
  reachable tz m ->
  JsMap.get string_dec (geofences m) key = Some g ->
  (forall f, In f fixes -> gateOpen tz g (snd f) = false) ->
  let m' := passes tz fixes m in
  JsMap.get string_dec (geofences m') key = Some g /\
  storedState m' key = storedState m key /\
  (wasInside g = Some true ->
   forall p ts r, In r (entered (fst (checkLocation tz p ts m'))) -> id r <> key).
Proof.
  intros Hr Hg Hf m'.
  assert (Hg' : JsMap.get string_dec (geofences m') key = Some g).
  { unfold m', passes. clear Hr m'. revert m Hg.
    induction fixes as [|f r IH]; intros m Hg; simpl; auto.
    apply IH; [intros f' Hf'; apply Hf; now right|].
    apply checkLocation_skips; auto. apply Hf. now left. }
  split; auto. split; [unfold storedState; now rewrite Hg, Hg'|].
  intros Hw p ts r Hin.
  rewrite checkLocation_result in Hin.
  apply pass_entered_origin in Hin. cbn [fst entered noResult] in Hin.
  destruct Hin as [[]|(k & g0 & Hc & _ & Hout & Hid)].
  apply candidates_In in Hc. destruct Hc as [_ Hc].
  assert (I : indexed m') by (eapply reachable_indexed, reachable_passes; eauto).
  destruct (I k g0 Hc) as (A & _).
  intros E. assert (k = key) by congruence. subst k.
  assert (g0 = g) by congruence. subst g0.
  unfold wasInsideOf in Hout. rewrite Hw in Hout. discriminate.
Qed.

End Engine.

(** ** Distances *)

Module Distances.
Import PolygonGeofence Spec.

Lemma atan2_sin_cos e : 0 <= e < PI / 2 -> atan2 (sin e) (cos e) = e.
Proof.
  intros He.
  assert (Hc : 0 < cos e) by (apply cos_gt_0; lra).
  unfold atan2. destruct (Rlt_dec 0 (cos e)); [|contradiction].
  change (sin e / cos e) with (tan e).
  apply atan_tan. lra.
Qed.

(** The haversine distance when the term under the root is [sin e * sin e]. *)
Lemma calculateDistance_arc lat1 lon1 lat2 lon2 e :
  0 <= e < PI / 2 ->
  sin (toRadians (lat2 - lat1) / 2) * sin (toRadians (lat2 - lat1) / 2) +
  cos (toRadians lat1) * cos (toRadians lat2) *
  sin (toRadians (lon2 - lon1) / 2) * sin (toRadians (lon2 - lon1) / 2) =
  sin e * sin e ->
  calculateDistance lat1 lon1 lat2 lon2 = 6371000 * (2 * e).
Proof.
  intros He Ha. unfold calculateDistance. cbv zeta. rewrite Ha.
  assert (Hs : 0 <= sin e) by (apply sin_ge_0; pose proof PI_RGT_0; lra).
  assert (Hc : 0 <= cos e) by (apply cos_ge_0; lra).
  rewrite sqrt_square by assumption.
  replace (1 - sin e * sin e) with (cos e * cos e).
  - rewrite sqrt_square by assumption. now rewrite atan2_sin_cos.
  - pose proof (sin2_cos2 e) as H. unfold Rsqr in H. lra.
Qed.

Lemma calculateDistance_same lat lon : calculateDistance lat lon lat lon = 0.
Proof.
  rewrite (@calculateDistance_arc lat lon lat lon 0).
  - lra.
  - pose proof PI_RGT_0. lra.
  - unfold toRadians.
    replace ((lat - lat) * (PI / 180) / 2) with 0 by lra.
    replace ((lon - lon) * (PI / 180) / 2) with 0 by lra.
    rewrite sin_0. lra.
Qed.

(** Across the antimeridian: from longitude -179.999 to 179.995 on the
    equator it is 0.006 degrees of arc, less than 850 m. *)
Lemma calculateDistance_dateline :
  calculateDistance 0 (- (179999 / 1000)) 0 (179995 / 1000) <= 850.
Proof.
  pose proof PI_RGT_0. pose proof PI_4.
  rewrite (@calculateDistance_arc _ _ _ _ (PI / 60000)).
  - lra.
  - lra.
  - unfold toRadians.
    replace ((0 - 0) * (PI / 180) / 2) with 0 by lra.
    replace (0 * (PI / 180)) with 0 by lra.
    replace ((179995 / 1000 - - (179999 / 1000)) * (PI / 180) / 2)
      with (PI - PI / 60000) by lra.
    rewrite sin_PI_x, sin_0, cos_0. lra.
Qed.

(** A quarter of the equator away. *)
Lemma calculateDistance_quarter :
  calculateDistance 0 90 0 0 > 6371000.
Proof.
  pose proof PI_RGT_0. pose proof PI2_1.
  rewrite (@calculateDistance_arc _ _ _ _ (PI / 4)).
  - lra.
  - lra.
  - unfold toRadians.
    replace ((0 - 0) * (PI / 180) / 2) with 0 by lra.
    replace (0 * (PI / 180)) with 0 by lra.
    replace ((0 - 90) * (PI / 180) / 2) with (- (PI / 4)) by lra.
    rewrite sin_neg, sin_0, cos_0. lra.
Qed.

End Distances.

(** ** The index across the antimeridian, and sample evaluations *)

Module IndexSamples.
Import PolygonGeofence Spec Geometry IndexFacts PassFacts Engine Distances.
Open Scope string_scope.

Ltac floor_is z :=
  match goal with
  | |- context [floor ?x] => rewrite (@floor_eq z x) by lra
  end.

Lemma dateline_box :
  calculateBoundingBox dateline =
  Some (circleBox {| latitude := 0; longitude := 179995 / 1000 |} 1000).
Proof.
  unfold calculateBoundingBox. cbn [type center radius dateline].
  rewrite truthy_true by lra. reflexivity.
Qed.

Lemma dateline_cells :
  getGridCells (circleBox {| latitude := 0; longitude := 179995 / 1000 |} 1000) =
  [(-1, 17998); (-1, 17999); (-1, 18000); (0, 17998); (0, 17999); (0, 18000)]%Z.
Proof.
  unfold getGridCells, circleBox, GRID_SIZE.
  cbn [minLat maxLat minLng maxLng latitude longitude].
  replace (0 * PI / 180) with 0 by lra. rewrite cos_0.
  floor_is (-1)%Z.
  floor_is (0)%Z.
  floor_is (17998)%Z.
  floor_is (18000)%Z.
  reflexivity.
Qed.

Lemma eastOfDateline_cell :
  getGridCell (latitude eastOfDateline) (longitude eastOfDateline) = (0, -18000)%Z.
Proof.
  unfold getGridCell, GRID_SIZE. cbn [latitude longitude eastOfDateline].
  floor_is (0)%Z.
  floor_is (-18000)%Z.
  reflexivity.
Qed.

Lemma dateline_inside :
  isPointInside eastOfDateline
    (with_boundingBox dateline (calculateBoundingBox dateline)) = true.
Proof.
  unfold isPointInside, isPointInCircle.
  cbn [type center radius with_boundingBox dateline latitude longitude eastOfDateline].
  rewrite truthy_true by lra. apply Rleb_true.
  pose proof calculateDistance_dateline. lra.
Qed.

Lemma dateline_index :
  spatialIndex (snd (addGeofence dateline empty)) =
  [((-1, 17998), ["dateline"]); ((-1, 17999), ["dateline"]);
   ((-1, 18000), ["dateline"]); ((0, 17998), ["dateline"]);
   ((0, 17999), ["dateline"]); ((0, 18000), ["dateline"])]%Z.
Proof.
  rewrite addGeofence_index. unfold addToSpatialIndex.
  cbn [boundingBox with_boundingBox]. rewrite dateline_box, dateline_cells.
  vm_compute. reflexivity.
Qed.

(** A circle next to the antimeridian contains a point on the other side
    of it, and the index does not offer the circle for that point. *)
Lemma index_sound_fails : ~ index_sound.
Proof.
  intros H.
  specialize (H utc (snd (addGeofence dateline empty)) "dateline"
                (with_boundingBox dateline (calculateBoundingBox dateline))
                eastOfDateline).
  assert (Hin : In ("dateline", with_boundingBox dateline (calculateBoundingBox dateline))
                   (fst (getCandidateGeofences eastOfDateline
                           (snd (addGeofence dateline empty))))).
  { apply H.
    - apply reach_add, reach_empty.
    - rewrite addGeofence_geofences. apply JsMapFacts.get_set_eq.
    - apply dateline_inside. }
  apply candidates_In in Hin. destruct Hin as [Hin _].
  rewrite dateline_index, eastOfDateline_cell in Hin.
  vm_compute in Hin. exact Hin.
Qed.

Ltac real_tests :=
  unfold Rgtb;
  repeat match goal with
         | |- context [Rltb ?a ?b] =>
             first [ rewrite (proj2 (Rltb_true a b)) by lra
                   | rewrite (proj2 (Rltb_false a b)) by lra ];
             cbn [xorb andb negb orb]
         end.

Lemma square_contains_middle :
  isPointInside middle
    (with_boundingBox square (calculateBoundingBox square)) = true.
Proof.
  unfold isPointInside, isPointInPolygon.
  cbn [type vertices with_boundingBox square List.length Nat.ltb Nat.leb last rayCast].
  unfold edgeCrosses. cbn [latitude longitude middle origin].
  real_tests. reflexivity.
Qed.

Lemma candidates_cover_box_witness :
  In ("square", with_boundingBox square (calculateBoundingBox square))
     (fst (getCandidateGeofences middle (snd (addGeofence square empty)))).
Proof.
  apply (@candidates_cover_box utc).
  - apply reach_add, reach_empty.
  - rewrite addGeofence_geofences. apply JsMapFacts.get_set_eq.
  - right. split; [reflexivity|apply square_contains_middle].
Defined.

Lemma office_closed_at_midnight :
  gateOpen utc (with_boundingBox office (calculateBoundingBox office)) 0 = false.
Proof.
  unfold gateOpen, isTimeRuleActive.
  cbn [timeRules with_boundingBox office existsb].
  replace (ruleMatches utc officeHours 0) with false by (vm_compute; reflexivity).
  reflexivity.
Qed.

Lemma gate_skip_preserves_state_witness :
  storedState (passes utc [(middle, 0%Z)] (snd (addGeofence office empty))) "office" =
  storedState (snd (addGeofence office empty)) "office".
Proof.
  refine (proj1 (proj2 (@gate_skip_preserves_state utc
            (snd (addGeofence office empty)) "office"
            (with_boundingBox office (calculateBoundingBox office))
            [(middle, 0%Z)] _ _ _))).
  - apply reach_add, reach_empty.
  - rewrite addGeofence_geofences. apply JsMapFacts.get_set_eq.
  - intros f [<-|[]]. apply office_closed_at_midnight.
Defined.

End IndexSamples.

(** ** The offline evaluator and the state of a silent region *)

Module OfflineEvaluation.
Import Spec Distances.
Import OfflineManager OfflineSamples.
Open Scope string_scope.

Lemma offline_distance_is_polygon_distance a b c d :
  calculateDistance a b c d = PolygonGeofence.calculateDistance a b c d.
Proof. reflexivity. Qed.

(** A region that does not notify entries and is stored as outside: the
    pass makes no event and leaves the stored state as it is, wherever the
    fix lies. *)
Lemma evaluateOne_silent gen loc st key g :
  notifyOnEntry g = false -> wasInsideOf g = false ->
  evaluateOne gen loc st (key, g) =
  {| ev_events := ev_events st;
     ev_geofences := JsMap.set string_dec (ev_geofences st) key
                       (with_state g (l_timestamp loc) (wasInside g));
     ev_pending := ev_pending st |}.
Proof.
  intros Hn Hw. unfold evaluateOne. rewrite Hn, Hw.
  rewrite andb_false_r. cbn [andb]. rewrite andb_false_r. reflexivity.
Qed.

Lemma visit_value : visit = ([], homeOnly (with_state home 1 None)).
Proof.
  unfold visit.
  change (addGeofence 0 home offlineEmpty) with (homeOnly home).
  unfold evaluateLocation, getActiveGeofences.
  cbn [homeOnly geofences filter isActive home snd fold_left].
  rewrite evaluateOne_silent by reflexivity.
  reflexivity.
Qed.

Lemma leave_value : leave = ([], homeOnly (with_state home 2 None)).
Proof.
  unfold leave. rewrite visit_value.
  unfold evaluateLocation, getActiveGeofences.
  cbn [homeOnly geofences filter isActive home with_state snd fold_left].
  rewrite evaluateOne_silent by reflexivity.
  reflexivity.
Qed.

(** C1 on [OfflineManager.evaluateLocation]: the region [home] reports
    exits only.  The first fix is inside it; no event is due, and the stored
    state is not written.  The second fix is outside; the exit is not
    reported, because the region was never stored as inside. *)
Theorem evaluateLocation_loses_occupancy :
  notifyOnExit home = true /\
  calculateDistance (l_latitude atHome) (l_longitude atHome)
                    (latitude home) (longitude home) <= radius home /\
  fst visit = [] /\
  storedState (snd visit) "home" = None /\
  radius home <
    calculateDistance (l_latitude away) (l_longitude away)
                      (latitude home) (longitude home) /\
  fst leave = [].
Proof.
  split; [reflexivity|].
  split.
  { cbn [l_latitude l_longitude atHome latitude longitude radius home].
    rewrite offline_distance_is_polygon_distance, calculateDistance_same. lra. }
  split; [now rewrite visit_value|].
  split; [now rewrite visit_value|].
  split.
  { cbn [l_latitude l_longitude away latitude longitude radius home].
    rewrite offline_distance_is_polygon_distance.
    pose proof calculateDistance_quarter. lra. }
  now rewrite leave_value.
Qed.

End OfflineEvaluation.

(** ** The hierarchy ledger and duplicate ids *)

Module Hierarchy.
Import PolygonGeofence Spec Geometry IndexFacts PassFacts Engine.
Open Scope string_scope.

Lemma nth_error_updateAt_from {A} (f : A -> A) n (l : list A) : forall s i,
  nth_error (map (fun p => if (fst p =? n)%nat then f (snd p) else snd p)
                 (combine (seq s (List.length l)) l)) i =
  option_map (fun x => if (s + i =? n)%nat then f x else x) (nth_error l i).
Proof.
  induction l as [|a r IH]; intros s i; simpl.
  - destruct i; reflexivity.
  - destruct i as [|i]; simpl.
    + now rewrite Nat.add_0_r.
    + rewrite IH. now rewrite Nat.add_succ_r.
Qed.

Lemma nth_error_updateAt {A} (f : A -> A) n (l : list A) i :
  nth_error (updateAt l n f) i =
  option_map (fun x => if (i =? n)%nat then f x else x) (nth_error l i).
Proof. unfold updateAt. apply nth_error_updateAt_from. Qed.

(** After [updateHierarchyReferences] the object's id leads to the object in
    the ledger, with the parent it came with. *)
Lemma updateHierarchyReferences_links ref ledger objs h :
  nth_error objs ref = Some h ->
  let (ledger', objs') := updateHierarchyReferences ref ledger objs in
  JsMap.get string_dec ledger' (h_id h) = Some ref /\
  exists h', nth_error objs' ref = Some h' /\ parentId h' = parentId h.
Proof.
  intros Hn. unfold updateHierarchyReferences. rewrite Hn.
  assert (G : JsMap.get string_dec (JsMap.set string_dec ledger (h_id h) ref) (h_id h)
              = Some ref) by apply JsMapFacts.get_set_eq.
  assert (Same : exists h', nth_error objs ref = Some h' /\ parentId h' = parentId h)
    by (exists h; auto).
  destruct (parentId h) as [pid|] eqn:EP; [|auto].
  destruct (nonEmpty pid); [|auto].
  destruct (JsMap.get string_dec _ pid) as [pref|]; [|auto].
  destruct (nth_error objs pref) as [parent|]; [|auto].
  destruct (negb (strIncludes (children parent) (h_id h))); [|auto].
  split; auto.
  rewrite nth_error_updateAt, Hn. cbn [option_map].
  destruct (ref =? pref)%nat; eexists;
    (split; [reflexivity|cbn [parentId with_children]; auto]).
Qed.

(** C9, as the code has it: the ledger has no cycle check.  Adding a region
    with a hierarchy never fails: the call returns the region's id and the
    ledger then records, under the hierarchy's id, the parent that the
    caller gave, whatever the ledger held before. *)
Theorem link_is_unchecked (m : Manager) (region : AdvancedGeofenceRegion)
        (h : GeofenceHierarchy) :
  hierarchy region = Some h ->
  fst (addGeofence region m) = id region /\
  parentOf (snd (addGeofence region m)) (h_id h) = parentId h.
Proof.
  intros Hh. split; [apply addGeofence_id|].
  unfold addGeofence. cbn [hierarchy with_boundingBox]. rewrite Hh.
  pose proof (@updateHierarchyReferences_links
                (List.length (hierarchyObjects m))
                (JsMap.set string_dec (hierarchies m) (id region)
                           (List.length (hierarchyObjects m)))
                (hierarchyObjects m ++ [h]) h) as L.
  destruct (updateHierarchyReferences _ _ _) as [ledger' objs'].
  destruct L as (G & h' & N & P).
  { rewrite nth_error_app2 by lia. now rewrite Nat.sub_diag. }
  unfold parentOf. cbn [snd hierarchies hierarchyObjects].
  now rewrite G, N.
Qed.

Lemma looped_parents :
  parentOf looped "a" = Some "b" /\ parentOf looped "b" = Some "a".
Proof. split; reflexivity. Qed.

Lemma link_is_unchecked_witness :
  parentOf looped "b" = Some "a".
Proof.
  exact (proj2 (@link_is_unchecked
                  (snd (addGeofence (zone "a" true (childOf "a" "b")) empty))
                  (zone "b" true (childOf "b" "a"))
                  {| h_id := "b"; parentId := Some "a"; children := [];
                     inheritSettings := true |} eq_refl)).
Defined.

(** After [a] was added as a child of [b], adding [b] as a child of [a] is
    accepted: [a] is its own ancestor two links up. *)
Lemma hierarchy_stays_forest_fails : ~ hierarchy_stays_forest.
Proof.
  intros H.
  assert (R : reachable utc looped) by (apply reach_add, reach_add, reach_empty).
  apply (H utc looped R "a" 2%nat); [lia|].
  destruct looped_parents as [A B].
  cbn [ancestor]. rewrite A, B. reflexivity.
Qed.



End Hierarchy.

(** ** The flush of the offline queue *)

Module FlushFacts.
Import Spec SyncSpec.
Import OfflineManager.

Lemma mem_In i l : mem i l = true <-> In i l.
Proof.
  unfold mem. rewrite existsb_exists. split.
  - intros (x & Hx & E). apply Nat.eqb_eq in E. now subst.
  - intros H. exists i. split; auto. apply Nat.eqb_refl.
Qed.

Lemma mem_not_In i l : mem i l = false <-> ~ In i l.
Proof.
  rewrite <- mem_In. destruct (mem i l); split; intros; congruence.
Qed.

Lemma mem_app i a b : mem i (a ++ b) = mem i a || mem i b.
Proof. apply existsb_app. Qed.

Section Indexed.
Variables A B : Type.

Lemma nth_error_indexed (F : nat * A -> B) (l : list A) : forall s i,
  nth_error (map F (combine (seq s (List.length l)) l)) i =
  option_map (fun x => F ((s + i)%nat, x)) (nth_error l i).
Proof.
  induction l as [|a r IH]; intros s i; simpl.
  - destruct i; reflexivity.
  - destruct i as [|i]; simpl.
    + now rewrite Nat.add_0_r.
    + rewrite IH. now rewrite Nat.add_succ_r.
Qed.

Lemma In_indexed (l : list A) : forall s i x,
  In (i, x) (combine (seq s (List.length l)) l) ->
  (s <= i)%nat /\ nth_error l (i - s) = Some x.
Proof.
  induction l as [|a r IH]; intros s i x H; simpl in H; [destruct H|].
  destruct H as [[= <- <-]|H].
  - split; [lia|]. now rewrite Nat.sub_diag.
  - apply IH in H. destruct H as [H1 H2]. split; [lia|].
    replace (i - s)%nat with (S (i - S s)) by lia. exact H2.
Qed.

Lemma map_fst_indexed (l : list A) : forall s,
  map fst (combine (seq s (List.length l)) l) = seq s (List.length l).
Proof.
  induction l as [|a r IH]; intros s; simpl; auto. now rewrite IH.
Qed.

Lemma NoDup_map_fst_filter (f : nat * A -> bool) (l : list (nat * A)) :
  NoDup (map fst l) -> NoDup (map fst (filter f l)).
Proof.
  induction l as [|p r IH]; simpl; intros H; [constructor|].
  inversion H as [|x xs Hn Hr]; subst.
  destruct (f p); simpl; auto.
  constructor; auto.
  intros Hin. apply Hn. apply in_map_iff in Hin.
  destruct Hin as (q & Eq & Hq). apply filter_In in Hq.
  apply in_map_iff. exists q. tauto.
Qed.
End Indexed.

Lemma unsyncedPositions_NoDup queue : NoDup (unsyncedPositions queue).
Proof.
  unfold unsyncedPositions. apply NoDup_map_fst_filter.
  rewrite map_fst_indexed. apply seq_NoDup.
Qed.

Lemma markSynced_nth queue batch i :
  nth_error (markSynced queue batch) i =
  option_map (fun e => if mem i batch then with_synced e true else e)
             (nth_error queue i).
Proof.
  unfold markSynced.
  rewrite (nth_error_indexed
             (fun p => if existsb (Nat.eqb (fst p)) batch
                       then with_synced (snd p) true else snd p) queue 0 i).
  reflexivity.
Qed.

Lemma markSynced_nil queue : markSynced queue [] = queue.
Proof.
  apply nth_error_ext. intros n. rewrite markSynced_nth.
  destruct (nth_error queue n); reflexivity.
Qed.

Lemma markSynced_app queue a b :
  markSynced (markSynced queue a) b = markSynced queue (a ++ b).
Proof.
  apply nth_error_ext. intros n. rewrite !markSynced_nth, mem_app.
  destruct (nth_error queue n) as [e|]; [|reflexivity]. cbn [option_map].
  destruct (mem n a), (mem n b); reflexivity.
Qed.

Lemma eventsAt_markSynced queue a b :
  (forall i, In i b -> mem i a = false) ->
  eventsAt (markSynced queue a) b = eventsAt queue b.
Proof.
  unfold eventsAt. induction b as [|i r IH]; intros H; simpl; auto.
  rewrite IH by (intros j Hj; apply H; now right).
  rewrite markSynced_nth, (H i (or_introl eq_refl)).
  destruct (nth_error queue i); reflexivity.
Qed.

Lemma filter_none {X} (f : X -> bool) (l : list X) :
  (forall x, In x l -> f x = false) -> filter f l = [].
Proof.
  induction l as [|a r IH]; intros H; simpl; auto.
  rewrite (H a (or_introl eq_refl)). apply IH. intros x Hx. apply H. now right.
Qed.

Lemma In_concat_filter {X} (f : list X -> bool) (ls : list (list X)) x :
  In x (List.concat (filter f ls)) -> In x (List.concat ls).
Proof.
  rewrite !in_concat. intros (l & Hl & Hx). apply filter_In in Hl.
  exists l. tauto.
Qed.

Section Flush.
Variable settles : nat -> list OfflineEvent -> bool.
Variable callbacks : list nat.
Variable queue : list OfflineEvent.

Lemma syncLoop batches : forall marked n f,
  (forall b i, In b batches -> In i b -> mem i marked = false) ->
  NoDup (List.concat batches) ->
  fold_left (syncBatch settles callbacks) batches
    {| sl_queue := markSynced queue marked; syncedCount := n; failedCount := f |} =
  {| sl_queue := markSynced queue (marked ++ List.concat (filter (delivered settles callbacks queue) batches));
     syncedCount := n + List.length (List.concat (filter (delivered settles callbacks queue) batches));
     failedCount := f + List.length (List.concat (filter (rejected settles callbacks queue) batches)) |}.
Proof.
  induction batches as [|b r IH]; intros marked n f Hm Hnd.
  - simpl. now rewrite app_nil_r, !Nat.add_0_r.
  - cbn [fold_left]. unfold syncBatch at 2. cbn [sl_queue syncedCount failedCount].
    rewrite eventsAt_markSynced by (intros i Hi; apply (Hm b); simpl; auto).
    fold (delivered settles callbacks queue b). cbn [List.concat] in Hnd.
    cbn [filter]. unfold rejected at 1.
    destruct (delivered settles callbacks queue b) eqn:D; cbn [negb].
    + rewrite markSynced_app. rewrite IH.
      * cbn [List.concat]. rewrite length_app, <- app_assoc.
        f_equal. lia.
      * intros b' i Hb' Hi. rewrite mem_app.
        rewrite (Hm b' i) by (simpl; auto). cbn [orb].
        apply mem_not_In. intros Hib.
        apply NoDup_app_remove_l in Hnd as Hr.
        clear - Hnd Hib Hb' Hi.
        induction b as [|x xs IHx]; [destruct Hib|].
        cbn in Hnd. inversion Hnd as [|y ys Hn Hr']; subst.
        destruct Hib as [->|Hib]; auto.
        apply Hn. apply in_or_app. right. apply in_concat. eauto.
      * now apply NoDup_app_remove_l in Hnd.
    + rewrite IH.
      * cbn [List.concat]. rewrite length_app. f_equal. lia.
      * intros b' i Hb' Hi. apply (Hm b'); simpl; auto.
      * now apply NoDup_app_remove_l in Hnd.
Qed.

Lemma rejected_positions batches :
  NoDup (List.concat batches) ->
  List.concat (filter (rejected settles callbacks queue) batches) =
  filter (fun i => negb (mem i (List.concat (filter (delivered settles callbacks queue) batches))))
         (List.concat batches).
Proof.
  induction batches as [|b r IH]; intros Hnd; [reflexivity|].
  cbn [List.concat] in Hnd.
  assert (Hr : NoDup (List.concat r)) by now apply NoDup_app_remove_l in Hnd.
  assert (Hdis : forall i, In i b -> ~ In i (List.concat r)).
  { clear - Hnd. induction b as [|x xs IHx]; intros i Hi; [destruct Hi|].
    cbn in Hnd. inversion Hnd as [|y ys Hn Hr']; subst.
    destruct Hi as [->|Hi]; auto.
    intros Hc. apply Hn. apply in_or_app. now right. }
  cbn [filter List.concat]. unfold rejected at 1. rewrite filter_app.
  destruct (delivered settles callbacks queue b) eqn:D; cbn [negb List.concat].
  - replace (filter _ b) with (@nil nat).
    + cbn [app]. rewrite IH by assumption.
      apply filter_ext_in. intros i Hi. rewrite mem_app.
      replace (mem i b) with false; auto.
      symmetry. apply mem_not_In. intros Hb. now apply (Hdis i).
    + symmetry. apply filter_none. intros i Hi. rewrite mem_app.
      rewrite (proj2 (mem_In i b) Hi). reflexivity.
  - rewrite IH by assumption. f_equal.
    symmetry. apply forallb_filter_id. apply forallb_forall. intros i Hi.
    apply negb_true_iff, mem_not_In. intros Hc.
    apply In_concat_filter in Hc. now apply (Hdis i).
Qed.
End Flush.

Lemma concat_batchLoop {X} (n : nat) : (0 < n)%nat -> forall fuel (l : list X),
  (List.length l <= fuel)%nat -> List.concat (batchLoop fuel l n) = l.
Proof.
  intros Hn. induction fuel as [|f IH]; intros l Hl.
  - destruct l; [reflexivity|simpl in Hl; lia].
  - destruct l as [|x r]; [reflexivity|].
    cbn [batchLoop List.concat]. rewrite IH.
    + apply firstn_skipn.
    + rewrite length_skipn. cbn [List.length] in *. lia.
Qed.

Lemma concat_batchEvents {X} (l : list X) : List.concat (batchEvents l) = l.
Proof. unfold batchEvents. apply concat_batchLoop; lia. Qed.

(** What is left of a marked queue once the synced events are pruned: the
    events at the unsynced positions that were not marked. *)
Lemma prune_marked (queue : list OfflineEvent) (marked : list nat) :
  filter (fun e => negb (synced e)) (markSynced queue marked) =
  eventsAt queue (filter (fun i => negb (mem i marked)) (unsyncedPositions queue)).
Proof.
  unfold markSynced, unsyncedPositions, eventsAt.
  assert (P : forall i e, In (i, e) (combine (seq 0 (List.length queue)) queue) ->
                          nth_error queue i = Some e).
  { intros i e H. apply In_indexed in H. destruct H as [_ H].
    now rewrite Nat.sub_0_r in H. }
  revert P. generalize (combine (seq 0 (List.length queue)) queue).
  intros l. induction l as [|[i e] r IH]; intros P; [reflexivity|].
  cbn [map filter fst snd].
  assert (IH' := IH (fun j x H => P j x (or_intror H))).
  fold (mem i marked).
  destruct (mem i marked) eqn:M.
  - cbn [synced with_synced negb]. rewrite IH'.
    destruct (negb (synced e)); [|reflexivity].
    cbn [map filter fst]. rewrite M. reflexivity.
  - destruct (negb (synced e)) eqn:U.
    + cbn [map filter fst]. rewrite M. cbn [negb flat_map].
      rewrite (P i e (or_introl eq_refl)). cbn [app]. now rewrite IH'.
    + exact IH'.
Qed.

Lemma eventsAt_unsynced (queue : list OfflineEvent) (ps : list nat) e :
  (forall i, In i ps -> In i (unsyncedPositions queue)) ->
  In e (eventsAt queue ps) -> synced e = false.
Proof.
  intros Hps H. unfold eventsAt in H. apply in_flat_map in H.
  destruct H as (i & Hi & He).
  destruct (nth_error queue i) as [e'|] eqn:N; [|destruct He].
  destruct He as [->|[]].
  apply Hps in Hi. unfold unsyncedPositions in Hi.
  apply in_map_iff in Hi. destruct Hi as ([j x] & Ej & Hj). cbn in Ej. subst j.
  apply filter_In in Hj. destruct Hj as [Hj U]. cbn in U.
  apply In_indexed in Hj. destruct Hj as [_ Hj]. rewrite Nat.sub_0_r in Hj.
  assert (x = e) by congruence. subst x.
  now apply negb_true_iff in U.
Qed.


Lemma syncPendingEvents_runs settles m :
  syncInProgress m = false -> isConnected (networkStatus m) = true ->
  unsyncedPositions (pendingEvents m) <> [] ->
  syncPendingEvents settles m =
  ({| success := (0 <? syncedCount (flushLoop settles m))%nat;
      r_synced := syncedCount (flushLoop settles m);
      r_failed := failedCount (flushLoop settles m) |},
   with_queue m (filter (fun e => negb (synced e)) (sl_queue (flushLoop settles m)))).
Proof.
  intros Hp Hc Hu. unfold syncPendingEvents, flushLoop. rewrite Hp, Hc.
  cbn [negb orb].
  destruct (unsyncedPositions (pendingEvents m)); [congruence|reflexivity].
Qed.

Lemma flushLoop_value settles m :
  let queue := pendingEvents m in
  let batches := batchEvents (unsyncedPositions queue) in
  flushLoop settles m =
  {| sl_queue := markSynced queue
                   (List.concat (filter (delivered settles (syncCallbacks m) queue) batches));
     syncedCount :=
       List.length (List.concat (filter (delivered settles (syncCallbacks m) queue) batches));
     failedCount :=
       List.length (List.concat (filter (rejected settles (syncCallbacks m) queue) batches)) |}.
Proof.
  intros queue batches. unfold flushLoop. fold queue. fold batches.
  rewrite <- (markSynced_nil queue) at 1.
  rewrite syncLoop.
  - reflexivity.
  - reflexivity.
  - unfold batches. rewrite concat_batchEvents. apply unsyncedPositions_NoDup.
Qed.


End FlushFacts.

(** ** Retries *)

Module OfflineRetries.
Import Spec SyncSpec FlushFacts.
Import OfflineManager.

Lemma eventsAt_unsyncedPositions queue :
  eventsAt queue (unsyncedPositions queue) = filter (fun e => negb (synced e)) queue.
Proof.
  transitivity (filter (fun e => negb (synced e)) (markSynced queue [])).
  - rewrite prune_marked. f_equal. symmetry.
    apply forallb_filter_id. apply forallb_forall. reflexivity.
  - now rewrite markSynced_nil.
Qed.

Lemma filter_unsynced_all queue :
  Forall (fun e => synced e = false) queue ->
  filter (fun e => negb (synced e)) queue = queue.
Proof.
  intros H. apply forallb_filter_id. apply forallb_forall.
  rewrite Forall_forall in H. intros e He. now rewrite (H e He).
Qed.

Lemma unsyncedPositions_nonempty queue :
  queue <> [] -> Forall (fun e => synced e = false) queue ->
  unsyncedPositions queue <> [].
Proof.
  intros Hne Hall E.
  pose proof (eventsAt_unsyncedPositions queue) as H.
  rewrite E, filter_unsynced_all in H by assumption.
  cbn in H. congruence.
Qed.

Lemma flushLoop_rejected settles m :
  rejectsAll m settles ->
  sl_queue (flushLoop settles m) = pendingEvents m /\
  syncedCount (flushLoop settles m) = 0%nat.
Proof.
  intros Hr. rewrite flushLoop_value. cbn [sl_queue syncedCount].
  rewrite (@filter_none _ (delivered settles (syncCallbacks m) (pendingEvents m))).
  - cbn [List.concat List.length]. split; [apply markSynced_nil|reflexivity].
  - intros b _. apply Hr.
Qed.

(** A flush in which every batch is rejected keeps the whole queue. *)
Lemma syncPendingEvents_rejected settles m :
  syncInProgress m = false -> isConnected (networkStatus m) = true ->
  pendingEvents m <> [] -> Forall (fun e => synced e = false) (pendingEvents m) ->
  rejectsAll m settles ->
  success (fst (syncPendingEvents settles m)) = false /\
  snd (syncPendingEvents settles m) = with_queue m (pendingEvents m).
Proof.
  intros Hp Hc Hne Hall Hr.
  rewrite syncPendingEvents_runs; auto using unsyncedPositions_nonempty.
  destruct (flushLoop_rejected Hr) as [Q S]. cbn [fst snd success].
  rewrite Q, S, filter_unsynced_all by assumption. split; reflexivity.
Qed.

Lemma timeoutFired_rejected settles delay m :
  syncInProgress m = false -> isConnected (networkStatus m) = true ->
  pendingEvents m <> [] -> Forall (fun e => synced e = false) (pendingEvents m) ->
  rejectsAll m settles ->
  timeoutFired settles delay m =
  {| geofences := geofences m; pendingEvents := pendingEvents m;
     networkStatus := networkStatus m; syncCallbacks := syncCallbacks m;
     syncInProgress := false;
     retryTimeouts := removeTimeout delay (retryTimeouts m) ++ [nextDelay delay] |}.
Proof.
  intros Hp Hc Hne Hall Hr. unfold timeoutFired.
  set (m0 := {| geofences := geofences m; pendingEvents := pendingEvents m;
                networkStatus := networkStatus m; syncCallbacks := syncCallbacks m;
                syncInProgress := syncInProgress m;
                retryTimeouts := removeTimeout delay (retryTimeouts m) |}).
  destruct (@syncPendingEvents_rejected settles m0 Hp Hc Hne Hall Hr) as [S M].
  destruct (syncPendingEvents settles m0) as [result m1]. cbn [fst snd] in S, M.
  rewrite S, M. cbn [negb andb].
  unfold getPendingEventsCount, with_queue. cbn [pendingEvents m0].
  rewrite filter_unsynced_all by assumption.
  destruct (pendingEvents m) as [|e r] eqn:E; [congruence|].
  cbn [List.length Nat.ltb Nat.leb]. unfold scheduleSyncAttempt.
  reflexivity.
Qed.

Lemma retryChain_rejected outcomes : forall delay m,
  syncInProgress m = false -> isConnected (networkStatus m) = true ->
  pendingEvents m <> [] -> Forall (fun e => synced e = false) (pendingEvents m) ->
  Forall (rejectsAll m) outcomes ->
  pendingEvents (retryChain outcomes delay m) = pendingEvents m /\
  (outcomes <> [] ->
   In (Nat.iter (List.length outcomes) nextDelay delay)
      (retryTimeouts (retryChain outcomes delay m))).
Proof.
  induction outcomes as [|s rest IH]; intros delay m Hp Hc Hne Hall Hr.
  - split; [reflexivity|congruence].
  - inversion Hr as [|x xs Hs Hrest]; subst.
    cbn [retryChain]. rewrite (timeoutFired_rejected delay Hp Hc Hne Hall Hs).
    set (m1 := {| geofences := geofences m; pendingEvents := pendingEvents m;
                  networkStatus := networkStatus m; syncCallbacks := syncCallbacks m;
                  syncInProgress := false;
                  retryTimeouts := removeTimeout delay (retryTimeouts m) ++ [nextDelay delay] |}).
    destruct (IH (nextDelay delay) m1) as [A B]; auto.
    split; [exact A|]. intros _.
    destruct rest as [|s' rest'].
    + cbn. apply in_or_app. right. now left.
    + cbn [List.length]. rewrite Nat.iter_succ_r. apply B. discriminate.
Qed.

End OfflineRetries.

Module WebhookRetries.
Import Spec WebhookSpec.
Import WebhookManager.
Open Scope string_scope.

Lemma attemptDelivery_failed_request e hooks d w :
  JsMap.get string_dec hooks (webhookId d) = Some w ->
  isActive w = true -> httpOk e d = false ->
  attemptDelivery e hooks d =
  if (attempt d <? maxRetries (retryConfig w))%Z then
    {| d_id := d_id d; webhookId := webhookId d; attempt := (attempt d + 1)%Z;
       status := retrying;
       nextRetryAt := Some (calculateNextRetryTime (now e) (random e d)
                              (retryConfig w) (attempt d + 1)%Z) |}
  else with_status d failed.
Proof.
  intros Hw Ha Hh. unfold attemptDelivery. rewrite Hw, Ha, Hh. reflexivity.
Qed.

Lemma processDeliveryQueue_single e m d :
  isProcessing m = false -> deliveryQueue m = [d] -> isDue e d = true ->
  processDeliveryQueue e m =
  {| webhooks := webhooks m;
     deliveryQueue := filter isOpen [attemptDelivery e (webhooks m) d];
     isProcessing := false |}.
Proof.
  intros Hp Hq Hd. unfold processDeliveryQueue, duePositions, attemptAt.
  rewrite Hp, Hq. cbn [List.length Nat.eqb orb seq combine filter snd map fst].
  rewrite Hd. reflexivity.
Qed.

Lemma retry_is_due d clock clock' :
  clock + 60000 <= clock' -> isDue (failingAt clock') (retryOf d clock) = true.
Proof.
  intros H. unfold isDue, retryOf. cbn [status nextRetryAt now failingAt].
  replace (Rleb _ clock') with true; [apply orb_true_r|].
  symmetry. apply Rleb_true.
  unfold calculateNextRetryTime, scheduledDelay.
  pose proof (Backoff.backoffDelay_le_max defaultRetry (attempt d + 1)) as B.
  cbn [maxDelay defaultRetry] in B. lra.
Qed.

Lemma failed_attempt_retried d clock :
  (attempt d < 3)%Z -> webhookId d = "hook" -> isDue (failingAt clock) d = true ->
  processDeliveryQueue (failingAt clock) (oneDelivery d) = oneDelivery (retryOf d clock).
Proof.
  intros Ha Hw Hd.
  rewrite (@processDeliveryQueue_single _ _ d) by auto.
  rewrite (@attemptDelivery_failed_request _ _ _ hook); auto.
  - cbn [retryConfig hook maxRetries defaultRetry].
    rewrite (proj2 (Z.ltb_lt _ _) Ha). reflexivity.
  - rewrite Hw. reflexivity.
Qed.

Lemma failed_attempt_dropped d clock :
  (3 <= attempt d)%Z -> webhookId d = "hook" -> isDue (failingAt clock) d = true ->
  deliveryQueue (processDeliveryQueue (failingAt clock) (oneDelivery d)) = [].
Proof.
  intros Ha Hw Hd.
  rewrite (@processDeliveryQueue_single _ _ d) by auto.
  rewrite (@attemptDelivery_failed_request _ _ _ hook); auto.
  - cbn [retryConfig hook maxRetries defaultRetry].
    rewrite (proj2 (Z.ltb_ge _ _) Ha). reflexivity.
  - rewrite Hw. reflexivity.
Qed.

(** Three failed requests, 100 s apart, and the delivery is gone. *)
Lemma third_failure_drops :
  deliveryQueue
    (fold_left (fun m e => processDeliveryQueue e m)
               [failingAt 0; failingAt 100000; failingAt 200000]
               (oneDelivery queuedDelivery)) = [].
Proof.
  cbn [fold_left].
  rewrite (@failed_attempt_retried queuedDelivery 0);
    [|cbn; lia|reflexivity|reflexivity].
  rewrite (@failed_attempt_retried (retryOf queuedDelivery 0) 100000);
    [|cbn; lia|reflexivity|apply retry_is_due; lra].
  apply failed_attempt_dropped;
    [cbn; lia|reflexivity|apply retry_is_due; lra].
Qed.

Lemma never_dropped_fails : ~ never_dropped.
Proof.
  intros H.
  specialize (H [failingAt 0; failingAt 100000; failingAt 200000]
                (oneDelivery queuedDelivery) eq_refl).
  rewrite third_failure_drops in H. cbn [List.length deliveryQueue oneDelivery] in H.
  assert (0 = 1)%nat; [|discriminate].
  apply H.
  - constructor; [|constructor]. exists hook. split; reflexivity.
  - repeat constructor.
Qed.

End WebhookRetries.

Module Retries.
Import Spec SyncSpec WebhookSpec SyncSamples FlushFacts OfflineRetries WebhookRetries.
Open Scope string_scope.
Import OfflineManager WebhookManager.


(** C5, as the code has it.  The offline queue has no attempt count: a
    chain of flushes that are all rejected, however long, leaves the pending
    events as they are and arms the next timer after each of them.  The
    webhook delivery queue counts: a failed request is tried again only
    while [attempt < maxRetries]; from then on the delivery is marked failed
    and the queue drops it. *)
Theorem retries_by_queue
        (outcomes : list (nat -> list OfflineEvent -> bool)) (delay : Z)
        (m : OfflineManager.Manager)
        (e : Env) (hooks : list (string * WebhookConfig))
        (d : WebhookDeliveryAttempt) (w : WebhookConfig) :
  syncInProgress m = false ->
  isConnected (networkStatus m) = true ->
  pendingEvents m <> [] ->
  Forall (fun ev => synced ev = false) (pendingEvents m) ->
  Forall (rejectsAll m) outcomes ->
  JsMap.get string_dec hooks (webhookId d) = Some w ->
  WebhookManager.isActive w = true ->
  httpOk e d = false ->
  (pendingEvents (retryChain outcomes delay m) = pendingEvents m /\
   (outcomes <> [] ->
    In (Nat.iter (List.length outcomes) nextDelay delay)
       (retryTimeouts (retryChain outcomes delay m)))) /\
  ((attempt d < maxRetries (retryConfig w))%Z ->
   status (attemptDelivery e hooks d) = retrying /\
   attempt (attemptDelivery e hooks d) = (attempt d + 1)%Z) /\
  ((maxRetries (retryConfig w) <= attempt d)%Z ->
   status (attemptDelivery e hooks d) = failed /\
   filter isOpen [attemptDelivery e hooks d] = []).
Proof.
  intros Hp Hc Hne Hall Hr Hw Ha Hh.
  split; [now apply retryChain_rejected|].
  rewrite (@attemptDelivery_failed_request e hooks d w Hw Ha Hh).
  split; intros Hlt.
  - rewrite (proj2 (Z.ltb_lt _ _) Hlt). split; reflexivity.
  - rewrite (proj2 (Z.ltb_ge _ _) Hlt). split; reflexivity.
Qed.

Lemma retries_by_queue_witness :
  pendingEvents (retryChain [allRejected; allRejected; allRejected] 1000 queued) =
    [enteredHome] /\
  In 8000%Z (retryTimeouts (retryChain [allRejected; allRejected; allRejected] 1000 queued)) /\
  status (attemptDelivery (failingAt 0) [("hook", hook)] exhausted) = failed.
Proof.
  assert (Hne : pendingEvents queued <> []) by discriminate.
  assert (Hall : Forall (fun ev => synced ev = false) (pendingEvents queued))
    by (repeat constructor).
  assert (Hr : Forall (rejectsAll queued) [allRejected; allRejected; allRejected])
    by (repeat constructor).
  destruct (@retries_by_queue [allRejected; allRejected; allRejected] 1000 queued
              (failingAt 0) [("hook", hook)] exhausted hook
              eq_refl eq_refl Hne Hall Hr eq_refl eq_refl eq_refl)
    as [[A B] [_ C]].
  split; [exact A|]. split.
  - apply B. discriminate.
  - apply C. cbn. lia.
Defined.


End Retries.

(** ** Distances, circles and polygons *)

Module GeometryMore.
Import PolygonGeofence Spec GeometrySpec Geometry Distances.


(** X1: the haversine distance does not depend on the order of its two
    points. *)
Theorem calculateDistance_symmetric (lat1 lon1 lat2 lon2 : R) :
  calculateDistance lat1 lon1 lat2 lon2 = calculateDistance lat2 lon2 lat1 lon1.
Proof.
  unfold calculateDistance. cbv zeta.
  replace (toRadians (lat1 - lat2) / 2) with (- (toRadians (lat2 - lat1) / 2))
    by (unfold toRadians; lra).
  replace (toRadians (lon1 - lon2) / 2) with (- (toRadians (lon2 - lon1) / 2))
    by (unfold toRadians; lra).
  rewrite !sin_neg.
  set (s1 := sin (toRadians (lat2 - lat1) / 2)).
  set (s2 := sin (toRadians (lon2 - lon1) / 2)).
  set (c1 := cos (toRadians lat1)). set (c2 := cos (toRadians lat2)).
  replace (- s1 * - s1 + c2 * c1 * - s2 * - s2)
    with (s1 * s1 + c1 * c2 * s2 * s2) by ring.
  reflexivity.
Qed.




(** *** Ray casting does not depend on where the vertex list starts or on
    its orientation *)

Lemma rayCast_app p l1 : forall l2 vj b,
  rayCast p vj (l1 ++ l2) b = rayCast p (last l1 vj) l2 (rayCast p vj l1 b).
Proof.
  induction l1 as [|v r IH]; intros l2 vj b; [reflexivity|].
  cbn [app rayCast]. rewrite IH.
  replace (last (v :: r) vj) with (last r v); [reflexivity|].
  destruct r as [|a r']; [reflexivity|].
  change (last (v :: a :: r') vj) with (last (a :: r') vj).
  apply last_nonempty. discriminate.
Qed.

Lemma rayCast_xorb p l : forall vj b,
  rayCast p vj l b = xorb b (rayCast p vj l false).
Proof.
  induction l as [|v r IH]; intros vj b; cbn [rayCast].
  - now rewrite xorb_false_r.
  - rewrite IH. rewrite (IH v (if edgeCrosses p v vj then negb false else false)).
    destruct b, (edgeCrosses p v vj), (rayCast p v r false); reflexivity.
Qed.

Lemma last_cons_default (v : Point) (l : list Point) (d : Point) :
  last (v :: l) d = last l v.
Proof.
  destruct l as [|a r]; [reflexivity|].
  change (last (v :: a :: r) d) with (last (a :: r) d).
  apply last_nonempty. discriminate.
Qed.

Lemma isPointInPolygon_shift p v vs :
  isPointInPolygon p (vs ++ [v]) = isPointInPolygon p (v :: vs).
Proof.
  unfold isPointInPolygon.
  replace (List.length (vs ++ [v])) with (List.length (v :: vs))
    by (rewrite length_app; simpl; lia).
  destruct (List.length (v :: vs) <? 3)%nat; [reflexivity|].
  rewrite last_last, rayCast_app. cbn [rayCast].
  rewrite last_cons_default.
  rewrite (rayCast_xorb p vs v (if edgeCrosses p v (last vs v) then negb false else false)).
  destruct (edgeCrosses p v (last vs v)), (rayCast p v vs false); reflexivity.
Qed.

(** X4: the answer of the ray casting test is the same wherever the
    vertex list of the polygon starts. *)
Theorem isPointInPolygon_rotation (p : Point) (l1 l2 : list Point) :
  isPointInPolygon p (l2 ++ l1) = isPointInPolygon p (l1 ++ l2).
Proof.
  revert l2. induction l1 as [|v r IH]; intros l2.
  - now rewrite app_nil_r.
  - replace (l2 ++ v :: r) with ((l2 ++ [v]) ++ r) by now rewrite <- app_assoc.
    rewrite IH. rewrite app_assoc. apply isPointInPolygon_shift.
Qed.





End GeometryMore.

(** ** Validation of polygons *)

Module ValidationFacts.
Import PolygonGeofence Spec PolygonQueries.

Lemma vertexErrors_nil v : vertexErrors v = [] <-> inRange v.
Proof.
  unfold vertexErrors, inRange.
  destruct (Rltb (latitude v) (-90)) eqn:A, (Rgtb (latitude v) 90) eqn:B,
           (Rltb (longitude v) (-180)) eqn:C, (Rgtb (longitude v) 180) eqn:D;
    cbn [orb app];
    repeat match goal with
           | H : Rltb _ _ = true |- _ => apply Rltb_true in H
           | H : Rltb _ _ = false |- _ => apply Rltb_false in H
           | H : Rgtb _ _ = true |- _ => apply Rgtb_true in H
           | H : Rgtb _ _ = false |- _ => apply Rgtb_false in H
           end;
    split; intros H; try discriminate; try reflexivity; try lra.
Qed.

Lemma flat_map_nil {A B} (f : A -> list B) (l : list A) :
  flat_map f l = [] <-> Forall (fun x => f x = []) l.
Proof.
  induction l as [|a r IH]; cbn [flat_map].
  - split; auto.
  - split.
    + intros H. apply app_eq_nil in H. destruct H as [H1 H2].
      constructor; auto. now apply IH.
    + intros H. inversion H as [|x xs H1 H2]; subst.
      rewrite H1. now apply IH.
Qed.

(** X6: [validatePolygon] accepts a list of vertices exactly when it has at
    least three vertices and every latitude lies in [-90, 90] and every
    longitude in [-180, 180]; it never reports a self-intersection, whatever
    the shape. *)
Theorem validatePolygon_valid (vertices : list Point) :
  (valid (validatePolygon vertices) = true <->
   (3 <= List.length vertices)%nat /\ Forall inRange vertices) /\
  ~ In SelfIntersections (errors (validatePolygon vertices)).
Proof.
  unfold validatePolygon, hasSimpleSelfIntersection.
  rewrite andb_false_r. cbn [valid errors]. split.
  - rewrite Nat.eqb_eq, length_zero_iff_nil.
    destruct (Nat.ltb_spec (List.length vertices) 3) as [L|L].
    + split; [discriminate|]. intros [H _]. lia.
    + cbn [app]. rewrite flat_map_nil. split.
      * intros H. split; auto. eapply Forall_impl; [|exact H].
        intros v. apply vertexErrors_nil.
      * intros [_ H]. eapply Forall_impl; [|exact H].
        intros v. apply vertexErrors_nil.
  - intros H. apply in_app_iff in H. destruct H as [H|H].
    + destruct (List.length vertices <? 3)%nat; simpl in H; [|destruct H].
      destruct H as [H|[]]. discriminate.
    + apply in_flat_map in H. destruct H as (v & _ & H). unfold vertexErrors in H.
      apply in_app_iff in H.
      destruct H as [H|H];
        match type of H with
        | In _ (if ?c then _ else _) => destruct c
        end; simpl in H; intuition discriminate.
Qed.

End ValidationFacts.

(** ** More on the spatial index and the evaluation pass *)

Module IndexMore.
Import PolygonGeofence Spec PolygonQueries IndexFacts PassFacts Engine.

Lemma calculateBoundingBox_with_boundingBox g b :
  calculateBoundingBox (with_boundingBox g b) = calculateBoundingBox g.
Proof. reflexivity. Qed.

(** X7: [updateGeofence] with an update that leaves the id alone keeps the
    index complete: every stored region is still filed under its id, with
    the box of its shape, in every cell that the box spans. *)
Theorem updateGeofence_indexed (regionId : string) (updates : Updates) (m : Manager) :
  indexed m -> u_id updates = None ->
  indexed (snd (updateGeofence regionId updates m)).
Proof.
  intros I U. unfold updateGeofence.
  destruct (JsMap.get string_dec (geofences m) regionId) as [existing|] eqn:E;
    [|exact I].
  cbn [snd]. intros key g H. cbn [geofences spatialIndex] in *.
  destruct (I regionId existing E) as (A0 & _).
  rewrite JsMapFacts.get_set in H.
  destruct (string_dec key regionId) as [->|N].
  - injection H as <-. split.
    + cbn [with_boundingBox id spread]. rewrite U. exact A0.
    + split; [reflexivity|]. intros b cell Hb Hc.
      replace regionId with
        (id (with_boundingBox (spread existing updates)
                              (calculateBoundingBox (spread existing updates))))
        by (cbn [with_boundingBox id spread]; rewrite U; exact A0).
      exact (@addToSpatialIndex_new _ _ b cell Hb Hc).
  - destruct (I key g H) as (A & B & C). split; auto. split; auto.
    intros b cell Hb Hc. apply addToSpatialIndex_mono.
    apply removeFromSpatialIndex_keeps; eauto. congruence.
Qed.

Lemma updateGeofence_indexed_witness :
  indexed (snd (updateGeofence "square" (moveTo (vertices square))
                               (snd (addGeofence square empty)))).
Proof.
  apply updateGeofence_indexed.
  - apply indexed_add, indexed_empty.
  - reflexivity.
Defined.

Lemma set_add_present (k : string) (s : list string) :
  In k s -> set_add string_dec k s = s.
Proof.
  induction s as [|a r IH]; intros H; [destruct H|].
  cbn [set_add]. destruct (string_dec k a) as [->|N]; [reflexivity|].
  destruct H as [H|H]; [congruence|]. now rewrite IH.
Qed.

Lemma set_add_absent (k : string) (s : list string) :
  ~ In k s -> set_add string_dec k s = s ++ [k].
Proof.
  induction s as [|a r IH]; intros H; [reflexivity|].
  cbn [set_add]. destruct (string_dec k a) as [->|N].
  - exfalso. apply H. now left.
  - cbn [app]. rewrite IH; auto. intros H'. apply H. now right.
Qed.

Lemma set_add_twice (k : string) (s : list string) :
  set_add string_dec k (set_add string_dec k s) = set_add string_dec k s.
Proof. apply set_add_present. now apply set_add_intro2. Qed.

Lemma remove_twice (k : string) (s : list string) :
  remove string_dec k (remove string_dec k s) = remove string_dec k s.
Proof. apply notin_remove. apply remove_In. Qed.

Lemma fold_addCell_get k cells : forall idx c,
  JsMap.get Cell_dec (fold_left (addCell k) cells idx) c =
  if in_dec Cell_dec c cells
  then Some (set_add string_dec k (cellSet idx c))
  else JsMap.get Cell_dec idx c.
Proof.
  induction cells as [|a r IH]; intros idx c; [reflexivity|].
  cbn [fold_left]. rewrite IH. unfold cellSet at 1. rewrite !addCell_get.
  destruct (in_dec Cell_dec c r) as [Hr|Hr];
    destruct (in_dec Cell_dec c (a :: r)) as [Ha|Ha];
    destruct (Cell_dec c a) as [->|N]; try reflexivity.
  - now rewrite set_add_twice.
  - exfalso. apply Ha. now right.
  - exfalso. apply Ha. now right.
  - destruct Ha as [Ha|Ha]; [congruence|contradiction].
  - exfalso. apply Ha. now left.
Qed.

Lemma pruned_twice k o : pruned k (pruned k o) = pruned k o.
Proof.
  destruct o as [s|]; [|reflexivity]. cbn [pruned].
  destruct (List.length (remove string_dec k s) =? 0)%nat eqn:L; [reflexivity|].
  cbn [pruned]. rewrite remove_twice, L. reflexivity.
Qed.

Lemma removeCell_get k idx cell c :
  JsMap.get Cell_dec (removeCell k idx cell) c =
  if Cell_dec c cell then pruned k (JsMap.get Cell_dec idx cell)
  else JsMap.get Cell_dec idx c.
Proof.
  unfold removeCell, pruned.
  destruct (JsMap.get Cell_dec idx cell) as [s|] eqn:E.
  - destruct (List.length (remove string_dec k s) =? 0)%nat.
    + rewrite JsMapFacts.get_delete. destruct (Cell_dec c cell); reflexivity.
    + rewrite JsMapFacts.get_set. destruct (Cell_dec c cell); reflexivity.
  - destruct (Cell_dec c cell) as [->|N]; auto.
Qed.

Lemma fold_removeCell_get k cells : forall idx c,
  JsMap.get Cell_dec (fold_left (removeCell k) cells idx) c =
  if in_dec Cell_dec c cells then pruned k (JsMap.get Cell_dec idx c)
  else JsMap.get Cell_dec idx c.
Proof.
  induction cells as [|a r IH]; intros idx c; [reflexivity|].
  cbn [fold_left]. rewrite IH. rewrite !removeCell_get.
  destruct (in_dec Cell_dec c r) as [Hr|Hr];
    destruct (in_dec Cell_dec c (a :: r)) as [Ha|Ha];
    destruct (Cell_dec c a) as [->|N]; try reflexivity.
  - now rewrite pruned_twice.
  - exfalso. apply Ha. now right.
  - exfalso. apply Ha. now right.
  - destruct Ha as [Ha|Ha]; [congruence|contradiction].
  - exfalso. apply Ha. now left.
Qed.

(** X8: filing a region in the index and taking it out again restores
    every cell, when the id is new to the index and the index holds no
    empty set: a cell that the filing created is deleted again, and a set
    that the id joined loses it again. *)
Theorem index_add_remove (g : AdvancedGeofenceRegion) (idx : Index) :
  (forall c s, JsMap.get Cell_dec idx c = Some s -> s <> [] /\ ~ In (id g) s) ->
  forall c, JsMap.get Cell_dec (removeFromSpatialIndex g (addToSpatialIndex g idx)) c =
            JsMap.get Cell_dec idx c.
Proof.
  intros H c. unfold removeFromSpatialIndex, addToSpatialIndex.
  destruct (boundingBox g) as [b|]; [|reflexivity].
  rewrite fold_removeCell_get, fold_addCell_get.
  destruct (in_dec Cell_dec c (getGridCells b)) as [Hc|Hc]; [|reflexivity].
  unfold cellSet, pruned.
  destruct (JsMap.get Cell_dec idx c) as [s|] eqn:E.
  - destruct (H c s E) as [Hne Hnin].
    rewrite set_add_absent by assumption.
    rewrite remove_app. cbn [remove]. destruct (string_dec (id g) (id g)); [|congruence].
    rewrite app_nil_r, notin_remove by assumption.
    destruct s; [congruence|reflexivity].
  - cbn [empty_set set_add remove].
    destruct (string_dec (id g) (id g)); [|congruence]. reflexivity.
Qed.

Lemma index_add_remove_witness :
  JsMap.get Cell_dec
    (removeFromSpatialIndex
       (with_boundingBox square (calculateBoundingBox square))
       (addToSpatialIndex
          (with_boundingBox square (calculateBoundingBox square))
          (spatialIndex twoCells))) (0, 1)%Z =
  JsMap.get Cell_dec (spatialIndex twoCells) (0, 1)%Z.
Proof.
  apply index_add_remove. intros c s H. cbn [JsMap.get spatialIndex twoCells] in H.
  destruct (Cell_dec c (0, 0)%Z).
  - injection H as <-. split; [discriminate|]. cbn. intros [H|[]]. discriminate.
  - destruct (Cell_dec c (0, 1)%Z); [|discriminate].
    injection H as <-. split; [discriminate|]. cbn. intros [H|[]]. discriminate.
Defined.

Lemma addAll_present ids : forall acc,
  incl ids acc -> addAll acc ids = acc.
Proof.
  unfold addAll. induction ids as [|i r IH]; intros acc H; [reflexivity|].
  cbn [fold_left]. rewrite set_add_present by (apply H; now left).
  apply IH. intros x Hx. apply H. now right.
Qed.

Lemma addAll_new ids : forall acc k, In k ids -> In k (addAll acc ids).
Proof.
  unfold addAll. induction ids as [|i r IH]; intros acc k H; [destruct H|].
  cbn [fold_left]. destruct H as [->|H].
  - apply (@addAll_mono r). now apply set_add_intro2.
  - now apply IH.
Qed.

Lemma gather_mono idx cells : forall acc k,
  In k acc ->
  In k (fold_left (fun acc cell =>
                     match JsMap.get Cell_dec idx cell with
                     | Some cellIds => addAll acc cellIds
                     | None => acc
                     end) cells acc).
Proof.
  induction cells as [|c r IH]; intros acc k H; cbn [fold_left]; auto.
  apply IH. destruct (JsMap.get Cell_dec idx c); auto. now apply addAll_mono.
Qed.

Lemma gather_new idx cells : forall acc c k,
  In c cells -> inCell idx c k ->
  In k (fold_left (fun acc cell =>
                     match JsMap.get Cell_dec idx cell with
                     | Some cellIds => addAll acc cellIds
                     | None => acc
                     end) cells acc).
Proof.
  induction cells as [|a r IH]; intros acc c k H Hk; [destruct H|].
  cbn [fold_left]. destruct H as [->|H].
  - apply gather_mono. destruct Hk as (s & Hs & Hin). rewrite Hs.
    now apply addAll_new.
  - eapply IH; eauto.
Qed.

Lemma candidateIdsOf_adjacent idx cell c k :
  In c (getAdjacentCells cell) -> inCell idx c k ->
  In k (candidateIdsOf idx cell).
Proof. intros H Hk. unfold candidateIdsOf. eapply gather_new; eauto. Qed.

Lemma getAdjacentCells_other cell : ~ In cell (getAdjacentCells cell).
Proof.
  destruct cell as [lat lng]. unfold getAdjacentCells. cbn.
  intros H.
  repeat (destruct H as [H|H]; [injection H; intros; lia|]).
  destruct H.
Qed.

Lemma gather_fixed idx cells : forall acc,
  (forall c s, In c cells -> JsMap.get Cell_dec idx c = Some s -> incl s acc) ->
  fold_left (fun acc cell =>
               match JsMap.get Cell_dec idx cell with
               | Some cellIds => addAll acc cellIds
               | None => acc
               end) cells acc = acc.
Proof.
  induction cells as [|a r IH]; intros acc H; [reflexivity|].
  cbn [fold_left]. destruct (JsMap.get Cell_dec idx a) as [s|] eqn:E.
  - rewrite addAll_present by (eapply H; [now left|exact E]).
    apply IH. intros c s' Hc. apply H. now right.
  - apply IH. intros c s' Hc. apply H. now right.
Qed.

Lemma candidateIdsOf_settled idx cell s :
  JsMap.get Cell_dec idx cell = Some s ->
  candidateIdsOf (JsMap.set Cell_dec idx cell (candidateIdsOf idx cell)) cell =
  candidateIdsOf idx cell.
Proof.
  intros E. unfold candidateIdsOf at 1. rewrite JsMapFacts.get_set_eq.
  apply gather_fixed. intros c s' Hc Hs' k Hk.
  assert (N : c <> cell).
  { intros ->. exact (@getAdjacentCells_other _ Hc). }
  rewrite JsMapFacts.get_set_neq in Hs' by assumption.
  eapply candidateIdsOf_adjacent; [exact Hc|]. exists s'. auto.
Qed.

Lemma set_set {K V} (K_dec : forall a b : K, {a = b} + {a <> b})
      (m : list (K * V)) k v v' :
  JsMap.set K_dec (JsMap.set K_dec m k v) k v' = JsMap.set K_dec m k v'.
Proof.
  induction m as [|[k0 v0] r IH]; cbn [JsMap.set].
  - destruct (K_dec k k); [reflexivity|congruence].
  - destruct (K_dec k k0) as [->|N]; cbn [JsMap.set].
    + destruct (K_dec k0 k0); [reflexivity|congruence].
    + destruct (K_dec k k0); [congruence|]. now rewrite IH.
Qed.

Lemma candidateIdsOf_after_query (point : Point) (m : Manager) :
  let cellKey := getGridCell (latitude point) (longitude point) in
  candidateIdsOf (spatialIndex (snd (getCandidateGeofences point m))) cellKey =
  candidateIdsOf (spatialIndex m) cellKey.
Proof.
  intros cellKey. unfold getCandidateGeofences. cbn [snd spatialIndex]. fold cellKey.
  destruct (JsMap.get Cell_dec (spatialIndex m) cellKey) as [s|] eqn:E; [|reflexivity].
  exact (@candidateIdsOf_settled _ _ _ E).
Qed.

(** X9: a query for candidates changes the index at most once: the same
    query asked again returns the same candidates and leaves the manager as
    the first query left it. *)
Theorem getCandidateGeofences_settles (point : Point) (m : Manager) :
  getCandidateGeofences point (snd (getCandidateGeofences point m)) =
  getCandidateGeofences point m.
Proof.
  unfold getCandidateGeofences. cbn [snd geofences spatialIndex hierarchies hierarchyObjects].
  set (cellKey := getGridCell (latitude point) (longitude point)).
  destruct (JsMap.get Cell_dec (spatialIndex m) cellKey) as [s|] eqn:E.
  - rewrite JsMapFacts.get_set_eq.
    rewrite (@candidateIdsOf_settled _ _ _ E), set_set. reflexivity.
  - rewrite E. reflexivity.
Qed.

(** X10: a query reads and writes: when the cell of the point has a set in
    the index, the query leaves in that set every id of the eight cells
    around it, so that the index then files those regions under a cell that
    their boxes need not touch. *)
Theorem getCandidateGeofences_leaks (point : Point) (m : Manager) (s : list string)
        (c : Cell) (k : string) :
  let cellKey := getGridCell (latitude point) (longitude point) in
  JsMap.get Cell_dec (spatialIndex m) cellKey = Some s ->
  In c (getAdjacentCells cellKey) ->
  inCell (spatialIndex m) c k ->
  inCell (spatialIndex (snd (getCandidateGeofences point m))) cellKey k.
Proof.
  intros cellKey E Hc Hk. unfold getCandidateGeofences.
  cbn [snd spatialIndex]. fold cellKey. rewrite E.
  unfold inCell. rewrite JsMapFacts.get_set_eq.
  eexists. split; [reflexivity|]. eapply candidateIdsOf_adjacent; eauto.
Qed.

Lemma getGridCell_origin : getGridCell 0 0 = (0, 0)%Z.
Proof.
  unfold getGridCell, GRID_SIZE.
  f_equal; apply floor_eq; simpl; lra.
Qed.

Lemma getCandidateGeofences_leaks_witness :
  inCell (spatialIndex (snd (getCandidateGeofences origin twoCells)))
         (getGridCell (latitude origin) (longitude origin)) "b".
Proof.
  apply (@getCandidateGeofences_leaks origin twoCells ["a"%string] (0, 1)%Z "b"%string).
  - cbn [latitude longitude origin]. rewrite getGridCell_origin. reflexivity.
  - cbn [latitude longitude origin]. rewrite getGridCell_origin. cbn. auto 10.
  - exists ["b"%string]. split; [reflexivity|now left].
Defined.

End IndexMore.

(** ** More on the evaluation pass *)

Module PassMore.
Import PolygonGeofence Spec PolygonQueries IndexFacts PassFacts Engine IndexMore.

Lemma gateOpen_with_wasInside tz g b ts :
  gateOpen tz (with_wasInside g b) ts = gateOpen tz g ts.
Proof. reflexivity. Qed.

Lemma isPointInside_with_wasInside p g b :
  isPointInside p (with_wasInside g b) = isPointInside p g.
Proof. reflexivity. Qed.

Section Pass.
Variable tz : Z -> Z.
Variable point : Point.
Variable ts : Z.

Lemma checkOne_settled acc key g :
  (gateOpen tz g ts = true -> settled point g) ->
  entered (fst (checkOne tz point ts acc (key, g))) = entered (fst acc) /\
  exited (fst (checkOne tz point ts acc (key, g))) = exited (fst acc).
Proof.
  intros H. destruct (gateOpen tz g ts) eqn:G.
  - specialize (H eq_refl). destruct acc as [res store].
    unfold gateOpen in G. apply andb_true_iff in G. destruct G as [G1 G2].
    unfold checkOne. rewrite G1, G2. cbn [negb].
    unfold wasInsideOf. unfold settled in H. rewrite H.
    destruct (isPointInside point g); cbn [negb andb fst entered exited]; auto.
  - rewrite checkOne_closed by assumption. auto.
Qed.

Lemma pass_settled cands : forall acc,
  (forall key g, In (key, g) cands -> gateOpen tz g ts = true -> settled point g) ->
  entered (fst (fold_left (checkOne tz point ts) cands acc)) = entered (fst acc) /\
  exited (fst (fold_left (checkOne tz point ts) cands acc)) = exited (fst acc).
Proof.
  induction cands as [|[key g] r IH]; intros acc H; [auto|].
  cbn [fold_left].
  destruct (IH (checkOne tz point ts acc (key, g))) as [A B].
  { intros k g' Hin. apply (H k g'). now right. }
  destruct (@checkOne_settled acc key g) as [C D].
  { apply (H key g). now left. }
  rewrite A, B. auto.
Qed.

Lemma checkOne_sound acc key g :
  sound tz point ts (fst acc) -> sound tz point ts (fst (checkOne tz point ts acc (key, g))).
Proof.
  intros (A & B & C). destruct (gateOpen tz g ts) eqn:G.
  - destruct acc as [res store]. cbn [fst] in *.
    pose proof G as G'.
    unfold gateOpen in G. apply andb_true_iff in G. destruct G as [G1 G2].
    unfold checkOne. rewrite G1, G2. cbn [negb].
    destruct (isPointInside point g) eqn:P.
    + cbn [fst]. split; [|split]; cbn [inside entered exited].
      * intros g' Hin. apply in_app_iff in Hin.
        destruct Hin as [Hin|[<-|[]]]; [now apply A|].
        rewrite isPointInside_with_wasInside, gateOpen_with_wasInside. auto.
      * destruct (negb (wasInsideOf g) && notifyOnEntry g).
        -- intros g' Hin. apply in_app_iff in Hin. apply in_app_iff.
           destruct Hin as [Hin|Hin]; auto.
        -- intros g' Hin. apply in_app_iff. auto.
      * exact C.
    + destruct (wasInsideOf g && notifyOnExit g); cbn [fst].
      * split; [|split]; cbn [inside entered exited]; auto.
        intros g' Hin. apply in_app_iff in Hin.
        destruct Hin as [Hin|[<-|[]]]; [now apply C|].
        rewrite isPointInside_with_wasInside, gateOpen_with_wasInside. auto.
      * split; [|split]; auto.
  - rewrite checkOne_closed by assumption. split; [|split]; auto.
Qed.

Lemma pass_sound cands : forall acc,
  sound tz point ts (fst acc) -> sound tz point ts (fst (fold_left (checkOne tz point ts) cands acc)).
Proof.
  induction cands as [|[key g] r IH]; intros acc H; [exact H|].
  cbn [fold_left]. apply IH. now apply checkOne_sound.
Qed.

End Pass.

(** X11: the same fix evaluated twice reports no transition the second
    time: after a pass at a point and an instant, a second pass at that
    point and instant returns no entered and no exited region. *)
Theorem checkLocation_repeat (tz : Z -> Z) (point : Point) (ts : Z) (m : Manager) :
  let again := fst (checkLocation tz point ts (snd (checkLocation tz point ts m))) in
  entered again = [] /\ exited again = [].
Proof.
  intros again. unfold again. rewrite checkLocation_result.
  apply (@pass_settled tz point ts _ (noResult, _)).
  intros key g1 Hin G.
  apply candidates_In in Hin. destruct Hin as [Hid Hg1].
  rewrite checkLocation_index in Hid.
  rewrite checkLocation_geofences in Hg1.
  assert (Hid0 : In key (candidateIdsOf (spatialIndex m)
                    (getGridCell (latitude point) (longitude point)))).
  { pose proof (candidateIdsOf_after_query point m) as E.
    rewrite <- E. exact Hid. }
  assert (Hstore : exists g0, JsMap.get string_dec (geofences m) key = Some g0).
  { apply pass_store_origin in Hg1. destruct Hg1 as [H|(g & b & H & _)].
    - eauto.
    - apply candidates_In in H. destruct H as [_ H]. eauto. }
  destruct Hstore as [g0 Hg0].
  assert (Hc : In (key, g0) (fst (getCandidateGeofences point m))).
  { apply candidates_In. auto. }
  assert (Hu : forall g', In (key, g') (fst (getCandidateGeofences point m)) -> g' = g0).
  { intros g' H. apply candidates_In in H. destruct H as [_ H]. congruence. }
  assert (G0 : gateOpen tz g0 ts = true).
  { pose proof Hg1 as H. apply pass_store_origin in H.
    destruct H as [H|(g & b & H & ->)].
    - cbn [snd] in H. congruence.
    - apply Hu in H. subst g. exact G. }
  pose proof (@pass_writes tz point ts _ key g0 (noResult, geofences m) Hu Hc G0) as W.
  rewrite W in Hg1. injection Hg1 as <-.
  reflexivity.
Qed.

(** X12: what a pass reports is consistent: every region listed as inside
    contains the point and carries the state inside, every entered region
    is also listed as inside, every exited region does not contain the
    point and carries the state outside, and every reported region passed
    the activation gate. *)
Theorem checkLocation_report (tz : Z -> Z) (point : Point) (ts : Z) (m : Manager) :
  let res := fst (checkLocation tz point ts m) in
  (forall g, In g (inside res) ->
             isPointInside point g = true /\ wasInside g = Some true /\
             gateOpen tz g ts = true) /\
  incl (entered res) (inside res) /\
  (forall g, In g (exited res) ->
             isPointInside point g = false /\ wasInside g = Some false /\
             gateOpen tz g ts = true).
Proof.
  intros res. unfold res. rewrite checkLocation_result.
  apply (@pass_sound tz point ts _ (noResult, _)).
  split; [|split]; cbn; intros ? [].
Qed.

End PassMore.

(** ** More on the time rules *)

Module RulesMore.
Import PolygonGeofence Spec PolygonQueries TimeRules TimeWindow.

Lemma getDay_range tz ts : (0 <= getDay tz ts < 7)%Z.
Proof. unfold getDay. apply Z.mod_pos_bound. lia. Qed.

(** X13: a region with an active rule that lists the seven days and runs
    from 00:00 to 23:59 passes the time check at every instant, whatever the
    time zone of the host. *)
Theorem isTimeRuleActive_all_day (tz : Z -> Z) (g : AdvancedGeofenceRegion)
        (rule : TimeBasedRule) (ts : Z) :
  In rule (timeRules g) ->
  t_isActive rule = true ->
  (forall d, (0 <= d < 7)%Z -> includes (daysOfWeek rule) d = true) ->
  timeToMinutes (startTime rule) = Some 0%Z ->
  timeToMinutes (endTime rule) = Some 1439%Z ->
  isTimeRuleActive tz g ts = true.
Proof.
  intros Hin Ha Hd Hs He. unfold isTimeRuleActive.
  assert (M : ruleMatches tz rule ts = true).
  { unfold ruleMatches. rewrite Ha, (Hd _ (getDay_range tz ts)). cbn [andb].
    rewrite (@isTimeInRange_minutes _ _ _ _ _ _
               (timeToMinutes_timeString tz ts) Hs He).
    pose proof (minuteOfDay_range tz ts).
    cbn [Z.leb Z.compare Pos.compare].
    apply andb_true_iff. rewrite !Z.leb_le. lia. }
  destruct (timeRules g) as [|r0 rs] eqn:E; [reflexivity|].
  apply existsb_exists. exists rule. auto.
Qed.

Lemma isTimeRuleActive_all_day_witness :
  isTimeRuleActive utc
    {| id := "open"; vertices := triangle; notifyOnEntry := true;
       notifyOnExit := true; wasInside := None; type := polygon;
       center := None; radius := None; timeRules := [officeHours; allDay];
       conditionalRules := []; hierarchy := None; boundingBox := None |}
    1700000000000%Z = true.
Proof.
  apply (@isTimeRuleActive_all_day utc _ allDay).
  - cbn. auto.
  - reflexivity.
  - intros d Hd. cbn [includes daysOfWeek allDay existsb].
    assert (d = 0 \/ d = 1 \/ d = 2 \/ d = 3 \/ d = 4 \/ d = 5 \/ d = 6)%Z as D by lia.
    destruct D as [->|[->|[->|[->|[->|[->| ->]]]]]]; reflexivity.
  - reflexivity.
  - reflexivity.
Defined.

(** X14: a time that has no colon reads as NaN, and every comparison with
    it is false.  A rule whose start has no colon therefore takes the branch
    of a window over midnight and matches every minute of the day up to its
    end, the end included; a rule whose end has no colon matches every
    minute from its start on. *)
Theorem isTimeInRange_without_colon (tz : Z -> Z) (rule : TimeBasedRule)
        (ts : Z) (part : string) :
  let now := minuteOfDay tz ts in
  let hit := isTimeInRange (timeString tz ts) (startTime rule) (endTime rule) in
  (split ":" (startTime rule) = [part] ->
   forall e, timeToMinutes (endTime rule) = Some e ->
             (hit = true <-> (now <= e)%Z)) /\
  (split ":" (endTime rule) = [part] ->
   forall s, timeToMinutes (startTime rule) = Some s ->
             (hit = true <-> (s <= now)%Z)).
Proof.
  intros now hit. unfold hit, isTimeInRange.
  rewrite timeToMinutes_timeString. fold now. split.
  - intros Hs e He.
    assert (N : timeToMinutes (startTime rule) = None)
      by (unfold timeToMinutes; rewrite Hs; reflexivity).
    rewrite He, N. cbn [nan_le nan_ge orb]. apply Z.leb_le.
  - intros He s Hs.
    assert (N : timeToMinutes (endTime rule) = None)
      by (unfold timeToMinutes; rewrite He; reflexivity).
    rewrite Hs, N. cbn [nan_le nan_ge]. rewrite orb_false_r. apply Z.leb_le.
Qed.

Lemma isTimeInRange_without_colon_witness :
  isTimeInRange (timeString utc 3600000) (startTime untilNine) (endTime untilNine)
  = true.
Proof.
  destruct (@isTimeInRange_without_colon utc untilNine 3600000 "midnight") as [H _].
  apply (H eq_refl 540%Z eq_refl).
  vm_compute. discriminate.
Defined.

End RulesMore.

(** ** Removal from the ledger, and the bulk operations *)

Module HierarchyMore.
Import PolygonGeofence Spec PolygonQueries Engine Hierarchy.

Lemma clearParent_nth ledger objs kid i x :
  nth_error (clearParent ledger objs kid) i = Some x ->
  exists x0, nth_error objs i = Some x0 /\ children x = children x0 /\
             (parentId x = parentId x0 \/ parentId x = None).
Proof.
  unfold clearParent. destruct (JsMap.get string_dec ledger kid) as [cref|].
  - rewrite nth_error_updateAt. destruct (nth_error objs i) as [x0|]; [|discriminate].
    cbn [option_map]. intros [= <-]. exists x0. split; auto.
    destruct (i =? cref)%nat; cbn [with_parentId children parentId]; auto.
  - intros H. exists x. auto.
Qed.

Lemma clearParent_orphan ledger objs kid cref c :
  JsMap.get string_dec ledger kid = Some cref ->
  nth_error (clearParent ledger objs kid) cref = Some c ->
  parentId c = None.
Proof.
  intros E. unfold clearParent. rewrite E, nth_error_updateAt.
  destruct (nth_error objs cref) as [x0|]; [|discriminate].
  cbn [option_map]. rewrite Nat.eqb_refl. intros [= <-]. reflexivity.
Qed.

Lemma fold_clearParent_nth ledger kids : forall objs i x,
  nth_error (fold_left (clearParent ledger) kids objs) i = Some x ->
  exists x0, nth_error objs i = Some x0 /\ children x = children x0 /\
             (parentId x = parentId x0 \/ parentId x = None).
Proof.
  induction kids as [|k r IH]; intros objs i x H; cbn [fold_left] in H.
  - exists x. auto.
  - apply IH in H. destruct H as (x1 & H1 & C1 & P1).
    apply clearParent_nth in H1. destruct H1 as (x0 & H0 & C0 & P0).
    exists x0. split; auto. split; [congruence|].
    destruct P1 as [P1|P1]; [|auto]. destruct P0 as [P0|P0]; [left|right]; congruence.
Qed.

Lemma fold_clearParent_orphan ledger kids : forall objs kid cref c,
  In kid kids ->
  JsMap.get string_dec ledger kid = Some cref ->
  nth_error (fold_left (clearParent ledger) kids objs) cref = Some c ->
  parentId c = None.
Proof.
  induction kids as [|k r IH]; intros objs kid cref c Hin E H; [destruct Hin|].
  cbn [fold_left] in H. destruct Hin as [->|Hin].
  - apply fold_clearParent_nth in H. destruct H as (x0 & H0 & _ & P).
    pose proof (@clearParent_orphan ledger objs kid cref x0 E H0) as O.
    destruct P; congruence.
  - eapply IH; eauto.
Qed.

(** X15: removing a region from the ledger unlinks it on both sides: its
    id leaves the ledger and the children list of its parent, and every
    child it listed loses its parent, rather than moving up to the parent of
    the removed region. *)
Theorem removeFromHierarchy_unlinks (regionId : string) (ledger : Ledger)
        (objs : list GeofenceHierarchy) (ref : nat) (h : GeofenceHierarchy) :
  JsMap.get string_dec ledger regionId = Some ref ->
  nth_error objs ref = Some h ->
  let ledger' := fst (removeFromHierarchy regionId ledger objs) in
  let objs' := snd (removeFromHierarchy regionId ledger objs) in
  JsMap.get string_dec ledger' regionId = None /\
  (forall k, k <> regionId ->
             JsMap.get string_dec ledger' k = JsMap.get string_dec ledger k) /\
  (forall pid pref p,
     parentId h = Some pid -> pid <> EmptyString ->
     JsMap.get string_dec ledger pid = Some pref ->
     nth_error objs' pref = Some p -> ~ In regionId (children p)) /\
  (forall kid cref c,
     In kid (children h) -> kid <> regionId ->
     JsMap.get string_dec ledger kid = Some cref ->
     nth_error objs' cref = Some c -> parentId c = None).
Proof.
  intros E N ledger' objs'. unfold ledger', objs', removeFromHierarchy.
  rewrite E, N. cbn [fst snd].
  split; [apply JsMapFacts.get_delete_eq|].
  split; [intros k Hk; now apply JsMapFacts.get_delete_neq|].
  set (objs1 := match parentId h with
                | Some pid =>
                    if nonEmpty pid then
                      match JsMap.get string_dec ledger pid with
                      | Some pref =>
                          updateAt objs pref
                            (fun p => with_children p
                               (filter (fun i => negb (String.eqb i regionId)) (children p)))
                      | None => objs
                      end
                    else objs
                | None => objs
                end).
  split.
  - intros pid pref p Hp Hne Hl Hn.
    apply fold_clearParent_nth in Hn. destruct Hn as (x0 & H0 & C & _).
    rewrite C. unfold objs1 in H0. rewrite Hp in H0.
    destruct pid as [|a pid']; [congruence|]. cbn [nonEmpty] in H0.
    rewrite Hl, nth_error_updateAt in H0.
    destruct (nth_error objs pref) as [p0|]; [|discriminate].
    cbn [option_map] in H0. rewrite Nat.eqb_refl in H0. injection H0 as <-.
    cbn [with_children children]. intros Hin. apply filter_In in Hin.
    destruct Hin as [_ Hin]. rewrite String.eqb_refl in Hin. discriminate.
  - intros kid cref c Hin Hne Hl Hn.
    eapply fold_clearParent_orphan; [|exact Hl|exact Hn].
    assert (K : exists h1, nth_error objs1 ref = Some h1 /\
                           (children h1 = children h \/
                            children h1 =
                              filter (fun i => negb (String.eqb i regionId)) (children h))).
    { unfold objs1. destruct (parentId h) as [pid|]; [|eauto].
      destruct (nonEmpty pid); [|eauto].
      destruct (JsMap.get string_dec ledger pid) as [pref|]; [|eauto].
      rewrite nth_error_updateAt, N. cbn [option_map].
      destruct (ref =? pref)%nat; eexists; split; try reflexivity; auto. }
    destruct K as (h1 & K1 & K2). rewrite K1.
    destruct K2 as [-> | ->]; auto.
    apply filter_In. split; auto.
    destruct (String.eqb_spec kid regionId); [contradiction|reflexivity].
Qed.

Lemma removeFromHierarchy_unlinks_witness :
  JsMap.get string_dec
    (fst (removeFromHierarchy "a" (hierarchies looped) (hierarchyObjects looped)))
    "a" = None.
Proof.
  refine (proj1 (@removeFromHierarchy_unlinks "a" (hierarchies looped)
                   (hierarchyObjects looped) 0%nat
                   {| h_id := "a"; parentId := Some "b"; children := ["b"];
                      inheritSettings := true |} _ _)).
  - reflexivity.
  - reflexivity.
Defined.

Lemma addMultipleGeofences_ids regions : forall m,
  fst (addMultipleGeofences regions m) = map id regions.
Proof.
  induction regions as [|g r IH]; intros m; [reflexivity|].
  cbn [addMultipleGeofences map].
  destruct (addGeofence g m) as [i m1] eqn:E.
  specialize (IH m1). destruct (addMultipleGeofences r m1) as [ids m2].
  cbn [fst] in *. rewrite IH. f_equal.
  change i with (fst (i, m1)). rewrite <- E. apply addGeofence_id.
Qed.

Lemma addMultipleGeofences_indexed regions : forall m,
  indexed m -> indexed (snd (addMultipleGeofences regions m)).
Proof.
  induction regions as [|g r IH]; intros m I; [exact I|].
  cbn [addMultipleGeofences].
  pose proof (@indexed_add g m I) as I1.
  destruct (addGeofence g m) as [i m1]. cbn [snd] in I1.
  specialize (IH m1 I1). destruct (addMultipleGeofences r m1) as [ids m2].
  exact IH.
Qed.

(** X16: [addMultipleGeofences] returns the ids of the regions in the order
    given, keeps the index complete, and stores under each id the last
    region of the list that carries it: an earlier region with the same id
    is replaced without notice, though its id is returned too. *)
Theorem addMultipleGeofences_stores (regions : list AdvancedGeofenceRegion) (m : Manager) :
  fst (addMultipleGeofences regions m) = map id regions /\
  (indexed m -> indexed (snd (addMultipleGeofences regions m))) /\
  (forall front g back,
     regions = (front ++ g :: back)%list -> ~ In (id g) (map id back) ->
     JsMap.get string_dec (geofences (snd (addMultipleGeofences regions m))) (id g) =
     Some (with_boundingBox g (calculateBoundingBox g))).
Proof.
  split; [apply addMultipleGeofences_ids|].
  split; [apply addMultipleGeofences_indexed|].
  intros front g back -> Hb. revert m.
  induction front as [|a f IH]; intros m.
  - cbn [app addMultipleGeofences].
    pose proof (addGeofence_geofences g m) as G.
    destruct (addGeofence g m) as [i m1]. cbn [snd] in G.
    assert (K : forall rs m0,
              ~ In (id g) (map id rs) ->
              JsMap.get string_dec (geofences (snd (addMultipleGeofences rs m0))) (id g) =
              JsMap.get string_dec (geofences m0) (id g)).
    { clear. induction rs as [|b rs IH]; intros m0 H; [reflexivity|].
      cbn [addMultipleGeofences].
      pose proof (addGeofence_geofences b m0) as G.
      destruct (addGeofence b m0) as [i m1]. cbn [snd] in G.
      specialize (IH m1). destruct (addMultipleGeofences rs m1) as [ids m2].
      cbn [snd] in *. rewrite IH, G.
      - apply JsMapFacts.get_set_neq. intros Heq. apply H. left. now symmetry.
      - intros Hin. apply H. now right. }
    specialize (K back m1 Hb). destruct (addMultipleGeofences back m1) as [ids m2].
    cbn [snd] in *. rewrite K, G. apply JsMapFacts.get_set_eq.
  - cbn [app addMultipleGeofences].
    destruct (addGeofence a m) as [i m1].
    specialize (IH m1). destruct (addMultipleGeofences (f ++ g :: back)%list m1) as [ids m2].
    exact IH.
Qed.

Lemma addMultipleGeofences_stores_witness :
  JsMap.get string_dec
    (geofences (snd (addMultipleGeofences [zone "a" true None; zone "a" false None] empty)))
    "a" =
  Some (with_boundingBox (zone "a" false None)
                         (calculateBoundingBox (zone "a" false None))).
Proof.
  refine (proj2 (proj2 (@addMultipleGeofences_stores
            [zone "a" true None; zone "a" false None] empty))
            [zone "a" true None] (zone "a" false None) [] eq_refl _).
  cbn. tauto.
Defined.

Lemma removeGeofence_gone regionId m :
  JsMap.get string_dec (geofences (snd (removeGeofence regionId m))) regionId = None.
Proof.
  destruct (JsMap.get string_dec (geofences m) regionId) as [g|] eqn:E.
  - destruct (@removeGeofence_geofences regionId m g E) as [-> _].
    apply JsMapFacts.get_delete_eq.
  - unfold removeGeofence. rewrite E. exact E.
Qed.

Lemma removeGeofence_flag regionId m :
  fst (removeGeofence regionId m) = JsMap.has string_dec (geofences m) regionId.
Proof.
  unfold removeGeofence, JsMap.has.
  destruct (JsMap.get string_dec (geofences m) regionId) as [g|]; [|reflexivity].
  destruct (hierarchy g); [|reflexivity].
  destruct (removeFromHierarchy _ _ _). reflexivity.
Qed.

Lemma removeGeofence_stays_gone regionId k m :
  JsMap.get string_dec (geofences m) k = None ->
  JsMap.get string_dec (geofences (snd (removeGeofence regionId m))) k = None.
Proof.
  intros H.
  destruct (JsMap.get string_dec (geofences m) regionId) as [g|] eqn:E.
  - destruct (@removeGeofence_geofences regionId m g E) as [-> _].
    rewrite JsMapFacts.get_delete. destruct (string_dec k regionId); auto.
  - unfold removeGeofence. rewrite E. exact H.
Qed.

(** X17: after [removeMultipleGeofences] none of the listed ids is stored,
    the call returns one flag per id, and the flag of an id that was not
    stored is [false], as is the flag of the second mention of an id. *)
Theorem removeMultipleGeofences_clears (regionIds : list string) (m : Manager) :
  let flags := fst (removeMultipleGeofences regionIds m) in
  let m' := snd (removeMultipleGeofences regionIds m) in
  List.length flags = List.length regionIds /\
  (forall k, In k regionIds -> getGeofence k m' = None) /\
  (forall n k, nth_error regionIds n = Some k ->
     (getGeofence k m = None \/ In k (firstn n regionIds)) ->
     nth_error flags n = Some false).
Proof.
  revert m. induction regionIds as [|i r IH]; intros m flags m'.
  - split; [reflexivity|]. split; [intros k []|]. intros [|n] k H; discriminate.
  - unfold flags, m'. cbn [removeMultipleGeofences].
    pose proof (removeGeofence_gone i m) as G.
    pose proof (removeGeofence_flag i m) as F.
    pose proof (fun k => @removeGeofence_stays_gone i k m) as S.
    destruct (removeGeofence i m) as [removed m1]. cbn [fst snd] in *.
    destruct (IH m1) as (A & B & C).
    assert (K : forall ids m0 k,
              JsMap.get string_dec (geofences m0) k = None ->
              JsMap.get string_dec
                (geofences (snd (removeMultipleGeofences ids m0))) k = None).
    { clear. induction ids as [|j ids IH]; intros m0 k H; [exact H|].
      cbn [removeMultipleGeofences].
      pose proof (@removeGeofence_stays_gone j k m0 H) as S.
      destruct (removeGeofence j m0) as [b m1]. cbn [snd] in S.
      specialize (IH m1 k S). destruct (removeMultipleGeofences ids m1). exact IH. }
    pose proof (K r m1) as K1.
    destruct (removeMultipleGeofences r m1) as [fl m2]. cbn [fst snd] in *.
    split; [cbn [List.length]; now rewrite A|].
    split.
    + intros k [<-|Hk]; [apply K1, G|now apply B].
    + intros [|n] k Hn Hor.
      * cbn [nth_error] in *. injection Hn as ->. f_equal. rewrite F.
        unfold JsMap.has. destruct Hor as [H|[]].
        unfold getGeofence in H. now rewrite H.
      * cbn [nth_error firstn] in *. apply (C n k Hn).
        unfold getGeofence in *.
        destruct Hor as [H|[<-|H]]; [left; apply S; exact H|left; exact G|right; exact H].
Qed.

Lemma removeMultipleGeofences_clears_witness :
  nth_error (fst (removeMultipleGeofences ["a"; "a"]%string
                    (snd (addGeofence (zone "a" true None) empty)))) 1 = Some false.
Proof.
  refine (proj2 (proj2 (@removeMultipleGeofences_clears ["a"; "a"]%string
            (snd (addGeofence (zone "a" true None) empty)))) 1%nat "a"%string eq_refl _).
  right. cbn. auto.
Defined.

End HierarchyMore.

(** ** More on the offline queue *)

Module OfflineMore.
Import Spec SyncSpec.
Import OfflineManager OfflineSamples OfflineQueries FlushFacts.

Lemma batchLoop_sizes {X} (n : nat) : (0 < n)%nat -> forall fuel (l : list X),
  (List.length l <= fuel)%nat ->
  Forall (fun b => (1 <= List.length b <= n)%nat) (batchLoop fuel l n) /\
  List.length (batchLoop fuel l n) = ((List.length l + (n - 1)) / n)%nat.
Proof.
  intros Hn. induction fuel as [|f IH]; intros l Hl.
  - destruct l; [|cbn in Hl; lia]. cbn [batchLoop List.length]. split; [constructor|].
    rewrite Nat.div_small; lia.
  - destruct l as [|x r].
    + cbn [batchLoop List.length]. split; [constructor|]. rewrite Nat.div_small; lia.
    + cbn [batchLoop].
      assert (Hs : (List.length (skipn n (x :: r)) = List.length (x :: r) - n)%nat)
        by apply length_skipn.
      assert (Hf : (List.length (firstn n (x :: r)) = Nat.min n (List.length (x :: r)))%nat)
        by apply length_firstn.
      cbn [List.length] in *.
      destruct (IH (skipn n (x :: r))) as [A B]; [lia|].
      split.
      * constructor; [lia|exact A].
      * cbn [List.length]. rewrite B, Hs.
        destruct (Nat.le_gt_cases n (S (List.length r))) as [L|L].
        -- replace (S (List.length r) + (n - 1))%nat
             with ((S (List.length r) - n + (n - 1)) + 1 * n)%nat by lia.
           rewrite Nat.div_add by lia. lia.
        -- replace (S (List.length r) - n)%nat with 0%nat by lia.
           rewrite (Nat.div_small (0 + (n - 1))) by lia.
           assert (E : ((S (List.length r) + (n - 1)) / n = 1)%nat).
           { replace (S (List.length r) + (n - 1))%nat
               with (List.length r + 1 * n)%nat by lia.
             rewrite Nat.div_add by lia. rewrite Nat.div_small; lia. }
           lia.
Qed.

(** X18: [batchEvents] cuts a list into consecutive batches: put end to
    end the batches give the list back, no batch is empty, none holds more
    than 50 elements, and there are as many as the length divided by 50,
    rounded up. *)
Theorem batchEvents_partition {X} (events : list X) :
  List.concat (batchEvents events) = events /\
  Forall (fun b => (1 <= List.length b <= 50)%nat) (batchEvents events) /\
  List.length (batchEvents events) = ((List.length events + 49) / 50)%nat.
Proof.
  split; [apply concat_batchEvents|].
  unfold batchEvents.
  destruct (@batchLoop_sizes X 50 ltac:(lia) (List.length events) events (le_n _)) as [A B].
  split; [exact A|exact B].
Qed.

Lemma length_concat_split {X} (f : list X -> bool) (ls : list (list X)) :
  (List.length (List.concat (filter f ls)) +
   List.length (List.concat (filter (fun b => negb (f b)) ls)) =
   List.length (List.concat ls))%nat.
Proof.
  induction ls as [|b r IH]; [reflexivity|].
  cbn [filter List.concat]. destruct (f b); cbn [negb List.concat];
    rewrite !length_app; lia.
Qed.

Lemma length_unsyncedPositions queue :
  List.length (unsyncedPositions queue) =
  List.length (filter (fun e => negb (synced e)) queue).
Proof.
  unfold unsyncedPositions. rewrite length_map.
  generalize 0%nat. induction queue as [|e r IH]; intros s; [reflexivity|].
  cbn [List.length seq combine filter snd].
  destruct (negb (synced e)); cbn [List.length]; now rewrite IH.
Qed.

Lemma In_unsyncedPositions queue i :
  In i (unsyncedPositions queue) -> (i < List.length queue)%nat.
Proof.
  unfold unsyncedPositions. intros H. apply in_map_iff in H.
  destruct H as ([j e] & <- & H). apply filter_In in H. destruct H as [H _].
  apply in_combine_l in H. apply in_seq in H. cbn [fst]. lia.
Qed.

Lemma length_eventsAt queue ps :
  (forall i, In i ps -> (i < List.length queue)%nat) ->
  List.length (eventsAt queue ps) = List.length ps.
Proof.
  unfold eventsAt. induction ps as [|p r IH]; intros H; [reflexivity|].
  cbn [flat_map]. rewrite length_app, IH by (intros i Hi; apply H; now right).
  destruct (nth_error queue p) eqn:E; [reflexivity|].
  apply nth_error_None in E. specialize (H p (or_introl eq_refl)). lia.
Qed.

(** X19: the result of a flush that runs accounts for every event that was
    waiting: the synced and the failed count add up to the number of
    unsynced events before the flush, the queue afterwards holds as many
    events as failed, all of them unsynced, and [success] says that some
    batch went through. *)
Theorem syncPendingEvents_accounts (settles : nat -> list OfflineEvent -> bool)
        (m : Manager) :
  syncInProgress m = false ->
  isConnected (networkStatus m) = true ->
  unsyncedPositions (pendingEvents m) <> [] ->
  let result := fst (syncPendingEvents settles m) in
  let m' := snd (syncPendingEvents settles m) in
  (r_synced result + r_failed result = getPendingEventsCount m)%nat /\
  List.length (pendingEvents m') = r_failed result /\
  getPendingEventsCount m' = r_failed result /\
  (success result = true <-> (0 < r_synced result)%nat) /\
  syncInProgress m' = false.
Proof.
  intros Hp Hc Hu result m'. unfold result, m'.
  rewrite syncPendingEvents_runs by assumption. cbn [fst snd success r_synced r_failed].
  rewrite flushLoop_value. cbn [syncedCount failedCount sl_queue].
  set (queue := pendingEvents m).
  set (batches := batchEvents (unsyncedPositions queue)).
  set (ok := delivered settles (syncCallbacks m) queue).
  assert (Hcat : List.concat batches = unsyncedPositions queue)
    by apply concat_batchEvents.
  assert (Hnd : NoDup (List.concat batches))
    by (rewrite Hcat; apply unsyncedPositions_NoDup).
  assert (Hq : pendingEvents
                 (with_queue m (filter (fun e => negb (synced e))
                    (markSynced queue (List.concat (filter ok batches))))) =
               eventsAt queue (List.concat (filter (rejected settles (syncCallbacks m) queue)
                                                   batches))).
  { cbn [with_queue pendingEvents]. rewrite prune_marked.
    rewrite <- Hcat. unfold ok.
    rewrite <- (rejected_positions settles (syncCallbacks m) queue batches Hnd).
    reflexivity. }
  assert (Hvalid : forall i,
            In i (List.concat (filter (rejected settles (syncCallbacks m) queue) batches)) ->
            In i (unsyncedPositions queue)).
  { intros i Hi. rewrite <- Hcat. apply in_concat in Hi.
    destruct Hi as (b & Hb & Hi). apply filter_In in Hb. apply in_concat.
    exists b. tauto. }
  assert (Hlen : List.length (eventsAt queue
                   (List.concat (filter (rejected settles (syncCallbacks m) queue) batches))) =
                 List.length (List.concat (filter (rejected settles (syncCallbacks m) queue)
                                                  batches))).
  { apply length_eventsAt. intros i Hi. apply In_unsyncedPositions. auto. }
  split.
  { unfold getPendingEventsCount. fold queue.
    rewrite <- length_unsyncedPositions, <- Hcat.
    apply (length_concat_split ok batches). }
  split; [rewrite Hq; exact Hlen|].
  split.
  { unfold getPendingEventsCount. rewrite Hq.
    rewrite forallb_filter_id; [exact Hlen|].
    apply forallb_forall. intros e He. apply negb_true_iff.
    apply (@eventsAt_unsynced queue _ e) in He; auto. }
  split; [apply Nat.ltb_lt|reflexivity].
Qed.

Lemma syncPendingEvents_accounts_witness :
  (r_synced (fst (syncPendingEvents (fun _ _ => true) unheard)) +
   r_failed (fst (syncPendingEvents (fun _ _ => true) unheard)) =
   getPendingEventsCount unheard)%nat.
Proof.
  refine (proj1 (@syncPendingEvents_accounts (fun _ _ => true) unheard _ _ _)).
  - reflexivity.
  - reflexivity.
  - discriminate.
Defined.

Lemma filter_all {X} (f : X -> bool) (l : list X) :
  (forall x, In x l -> f x = true) -> filter f l = l.
Proof. intros H. apply forallb_filter_id. now apply forallb_forall. Qed.

(** X20: with no callback registered a flush that runs delivers nothing
    and still counts every waiting event as synced: it reports success with
    no failure and empties the queue. *)
Theorem syncPendingEvents_unheard (settles : nat -> list OfflineEvent -> bool)
        (m : Manager) :
  syncCallbacks m = [] ->
  syncInProgress m = false ->
  isConnected (networkStatus m) = true ->
  unsyncedPositions (pendingEvents m) <> [] ->
  fst (syncPendingEvents settles m) =
    {| success := true; r_synced := getPendingEventsCount m; r_failed := 0 |} /\
  pendingEvents (snd (syncPendingEvents settles m)) = [].
Proof.
  intros Hcb Hp Hc Hu.
  rewrite syncPendingEvents_runs by assumption. cbn [fst snd].
  rewrite flushLoop_value. cbn [syncedCount failedCount sl_queue].
  set (queue := pendingEvents m).
  set (batches := batchEvents (unsyncedPositions queue)).
  assert (Hok : filter (delivered settles (syncCallbacks m) queue) batches = batches).
  { apply filter_all. intros b _. unfold delivered, allSettle. now rewrite Hcb. }
  assert (Hrej : filter (rejected settles (syncCallbacks m) queue) batches = []).
  { apply filter_none. intros b _. unfold rejected, delivered, allSettle.
    now rewrite Hcb. }
  assert (Hcat : List.concat batches = unsyncedPositions queue)
    by apply concat_batchEvents.
  rewrite Hok, Hrej, Hcat. cbn [List.concat List.length].
  assert (Hn : List.length (unsyncedPositions queue) = getPendingEventsCount m)
    by apply length_unsyncedPositions.
  split.
  - rewrite Hn. f_equal.
    apply Nat.ltb_lt. rewrite <- Hn.
    destruct (unsyncedPositions queue) eqn:EU;
      [unfold queue in EU; congruence|cbn; lia].
  - cbn [with_queue pendingEvents]. rewrite prune_marked.
    rewrite filter_none; [reflexivity|]. intros i Hi.
    apply negb_false_iff. apply mem_In. exact Hi.
Qed.

Lemma syncPendingEvents_unheard_witness :
  pendingEvents (snd (syncPendingEvents (fun _ _ => false) unheard)) = [].
Proof.
  refine (proj2 (@syncPendingEvents_unheard (fun _ _ => false) unheard _ _ _ _)).
  - reflexivity.
  - reflexivity.
  - reflexivity.
  - discriminate.
Defined.

End OfflineMore.

(** ** Priorities, evaluation and compression of offline events *)

Module OfflineOrder.
Import Spec.
Import OfflineManager OfflineSamples OfflineQueries Compression.
Local Open Scope list_scope.

Lemma compareEvents_lt x y : compareEvents x y < 0 -> inOrder x y.
Proof.
  unfold compareEvents, inOrder.
  destruct (Req_dec_T (timestamp x) (timestamp y)) as [E|N].
  - destruct (e_type x), (e_type y); intros H; try lra.
    right. split; auto. intros [A _]. discriminate.
  - intros H. left. lra.
Qed.

Lemma compareEvents_ge x y : ~ compareEvents x y < 0 -> inOrder y x.
Proof.
  unfold compareEvents, inOrder.
  destruct (Req_dec_T (timestamp x) (timestamp y)) as [E|N].
  - destruct (e_type x), (e_type y); intros H; try lra;
      right; (split; [auto|intros [A B]; discriminate]).
  - intros H. left. lra.
Qed.

Lemma inOrder_trans x y z : inOrder x y -> inOrder y z -> inOrder x z.
Proof.
  unfold inOrder. intros [A|[A B]] [C|[C D]]; try (left; lra).
  right. split; [lra|]. intros [E F].
  destruct (e_type y); [apply B|apply D]; auto.
Qed.

Lemma insertEvent_perm x l :
  Permutation (insertEvent compareEvents x l) (x :: l).
Proof.
  induction l as [|y r IH]; cbn [insertEvent]; [apply Permutation_refl|].
  destruct (Rltb (compareEvents x y) 0); [apply Permutation_refl|].
  eapply Permutation_trans; [apply perm_skip, IH|apply perm_swap].
Qed.

Lemma insertEvent_sorted x l :
  StronglySorted inOrder l -> StronglySorted inOrder (insertEvent compareEvents x l).
Proof.
  induction l as [|y r IH]; intros S; cbn [insertEvent].
  - constructor; constructor.
  - inversion S as [|y' r' Sr Fy]; subst.
    destruct (Rltb (compareEvents x y) 0) eqn:C.
    + apply Rltb_true in C. apply compareEvents_lt in C.
      constructor; [exact S|]. constructor; [exact C|].
      eapply Forall_impl; [|exact Fy]. intros z. now apply inOrder_trans.
    + assert (C' : ~ compareEvents x y < 0).
      { intros H. apply Rltb_true in H. congruence. }
      apply compareEvents_ge in C'.
      constructor; [now apply IH|].
      apply Forall_forall. intros z Hz.
      apply (Permutation_in _ (insertEvent_perm x r)) in Hz.
      destruct Hz as [<-|Hz]; [exact C'|].
      rewrite Forall_forall in Fy. now apply Fy.
Qed.

Lemma sort_from events : forall acc,
  StronglySorted inOrder acc ->
  StronglySorted inOrder
    (fold_left (fun sorted x => insertEvent compareEvents x sorted) events acc) /\
  Permutation
    (fold_left (fun sorted x => insertEvent compareEvents x sorted) events acc)
    (acc ++ events).
Proof.
  induction events as [|e r IH]; intros acc S; cbn [fold_left].
  - split; [exact S|]. rewrite app_nil_r. apply Permutation_refl.
  - destruct (IH (insertEvent compareEvents e acc)) as [A B];
      [now apply insertEvent_sorted|].
    split; [exact A|].
    eapply Permutation_trans; [exact B|].
    eapply Permutation_trans;
      [apply Permutation_app_tail, insertEvent_perm|].
    cbn [app]. apply Permutation_middle.
Qed.

(** X21: [prioritizeEvents] returns the unsynced events of the queue, each
    as often as it is queued, oldest first; of two events of the same
    instant an exit never comes before an entry. *)
Theorem prioritizeEvents_ordered (m : Manager) :
  Permutation (prioritizeEvents m)
              (filter (fun e => negb (synced e)) (pendingEvents m)) /\
  StronglySorted inOrder (prioritizeEvents m).
Proof.
  unfold prioritizeEvents, sort.
  destruct (sort_from (filter (fun e => negb (synced e)) (pendingEvents m))
                      (acc := [])) as [A B]; [constructor|].
  split; [exact B|exact A].
Qed.

Lemma compressEvent_restored e : compressEvent (restored e) = compressEvent e.
Proof.
  unfold compressEvent, restored.
  cbn [e_id e_type regionId location l_latitude l_longitude timestamp].
  unfold round6.
  replace (IZR (round (l_latitude (location e) * 1000000)) / 1000000 * 1000000)
    with (IZR (round (l_latitude (location e) * 1000000))) by (field; lra).
  replace (IZR (round (l_longitude (location e) * 1000000)) / 1000000 * 1000000)
    with (IZR (round (l_longitude (location e) * 1000000))) by (field; lra).
  rewrite !round_IZR. reflexivity.
Qed.

(** X22: compression loses nothing twice: compressing what
    [decompressEvents] returns for a compressed list gives that compressed
    list again, whatever the coordinates of the events. *)
Theorem compressEvents_again (events : list OfflineEvent) :
  option_map compressEvents (decompressEvents (compressEvents events)) =
  Some (compressEvents events).
Proof.
  rewrite decompress_compress. cbn [option_map]. f_equal.
  unfold compressEvents. f_equal. rewrite map_map.
  apply map_ext. apply compressEvent_restored.
Qed.

Section Evaluate.
Variable generateEventId : nat -> string.
Variable loc : LocationPoint.

(** The events made so far are the ones queued, unsynced, at the fix. *)
Lemma evaluateOne_appends st entry :
  let st' := evaluateOne generateEventId loc st entry in
  exists new,
    ev_events st' = ev_events st ++ new /\
    ev_pending st' = ev_pending st ++ new /\
    (List.length new <= 1)%nat /\
    forall e, In e new ->
      synced e = false /\ location e = loc /\ timestamp e = l_timestamp loc /\
      e_id e = generateEventId (List.length (ev_events st)) /\
      regionId e = id (snd entry).
Proof.
  destruct entry as [key g]. unfold evaluateOne.
  destruct (_ && _ && notifyOnEntry g);
    [|destruct (_ && _ && notifyOnExit g)]; cbn [ev_events ev_pending].
  - eexists [_]. split; [reflexivity|]. split; [reflexivity|].
    split; [cbn; lia|]. intros e [<-|[]]. cbn. repeat split; reflexivity.
  - eexists [_]. split; [reflexivity|]. split; [reflexivity|].
    split; [cbn; lia|]. intros e [<-|[]]. cbn. repeat split; reflexivity.
  - exists []. rewrite !app_nil_r. split; [reflexivity|]. split; [reflexivity|].
    split; [cbn; lia|]. intros e [].
Qed.

Lemma evaluate_appends entries : forall st,
  let st' := fold_left (evaluateOne generateEventId loc) entries st in
  exists new,
    ev_events st' = ev_events st ++ new /\
    ev_pending st' = ev_pending st ++ new /\
    (List.length new <= List.length entries)%nat /\
    (forall e, In e new ->
       synced e = false /\ location e = loc /\ timestamp e = l_timestamp loc /\
       exists entry, In entry entries /\ regionId e = id (snd entry)) /\
    (forall n e, nth_error new n = Some e ->
       e_id e = generateEventId (List.length (ev_events st) + n)).
Proof.
  induction entries as [|a r IH]; intros st; cbn [fold_left].
  - exists []. rewrite !app_nil_r. split; [reflexivity|]. split; [reflexivity|].
    split; [cbn; lia|]. split.
    + intros e [].
    + intros [|n] e H; discriminate.
  - destruct (evaluateOne_appends st a) as (n1 & A1 & B1 & C1 & D1).
    destruct (IH (evaluateOne generateEventId loc st a)) as (n2 & A2 & B2 & C2 & D2 & E2).
    exists (n1 ++ n2). rewrite A2, B2, A1, B1, <- !app_assoc.
    split; [reflexivity|]. split; [reflexivity|].
    split; [rewrite length_app; cbn [List.length]; lia|]. split.
    + intros e He. apply in_app_iff in He. destruct He as [He|He].
      * destruct (D1 e He) as (S1 & S2 & S3 & _ & S5).
        repeat split; auto. exists a. split; [now left|exact S5].
      * destruct (D2 e He) as (S1 & S2 & S3 & entry & S4 & S5).
        repeat split; auto. exists entry. split; [now right|exact S5].
    + intros n e Hn. destruct (Nat.lt_ge_cases n (List.length n1)) as [L|L].
      * rewrite nth_error_app1 in Hn by assumption.
        assert (n = 0)%nat as -> by lia.
        apply nth_error_In in Hn. destruct (D1 e Hn) as (_ & _ & _ & S4 & _).
        now rewrite Nat.add_0_r.
      * rewrite nth_error_app2 in Hn by assumption.
        apply E2 in Hn. rewrite Hn, A1, length_app. f_equal. lia.
Qed.

End Evaluate.

(** X23: the events that [evaluateLocation] returns are the events that it
    appends to the queue, in the same order, behind what was queued.  Each is
    unsynced, carries the fix and its timestamp and names an active
    geofence, the k-th carries the k-th generated id, and there is at most
    one per active geofence. *)
Theorem evaluateLocation_appends (generateEventId : nat -> string)
        (loc : LocationPoint) (m : Manager) :
  let events := fst (evaluateLocation generateEventId loc m) in
  let m' := snd (evaluateLocation generateEventId loc m) in
  pendingEvents m' = pendingEvents m ++ events /\
  (List.length events <= List.length (getActiveGeofences m))%nat /\
  (forall e, In e events ->
     synced e = false /\ location e = loc /\ timestamp e = l_timestamp loc /\
     exists entry, In entry (getActiveGeofences m) /\ regionId e = id (snd entry)) /\
  (forall n e, nth_error events n = Some e -> e_id e = generateEventId n).
Proof.
  intros events m'. unfold events, m', evaluateLocation.
  destruct (evaluate_appends generateEventId loc (getActiveGeofences m)
              {| ev_events := []; ev_geofences := geofences m;
                 ev_pending := pendingEvents m |}) as (new & A & B & C & D & E).
  cbn [ev_events ev_pending app List.length Nat.add] in *.
  cbn [fst snd]. rewrite A.
  split.
  - destruct (_ && _); [unfold scheduleSyncAttempt; destruct (syncInProgress _)|];
      cbn [pendingEvents]; exact B.
  - split; [exact C|]. split; [exact D|exact E].
Qed.

Lemma spliceFirst_count callback callbacks c :
  count_occ Nat.eq_dec (spliceFirst callback callbacks) c =
  if Nat.eqb c callback then Nat.pred (count_occ Nat.eq_dec callbacks c)
  else count_occ Nat.eq_dec callbacks c.
Proof.
  induction callbacks as [|a r IH]; cbn [spliceFirst count_occ].
  - destruct (Nat.eqb c callback); reflexivity.
  - destruct (Nat.eqb_spec a callback) as [->|Na].
    + destruct (Nat.eq_dec callback c) as [->|Nc].
      * rewrite Nat.eqb_refl. reflexivity.
      * destruct (Nat.eqb_spec c callback); [congruence|reflexivity].
    + cbn [count_occ]. rewrite IH.
      destruct (Nat.eq_dec a c) as [->|Nc].
      * destruct (Nat.eqb_spec c callback); [congruence|reflexivity].
      * reflexivity.
Qed.

(** X24: [removeSyncCallback] takes out one registration, the oldest: a
    callback registered n times is still registered n - 1 times afterwards,
    the other callbacks are registered as often as before, and removing a
    callback right after adding it to a manager that did not have it gives
    the callbacks back as they were. *)
Theorem removeSyncCallback_once (callback : nat) (m : Manager) :
  (forall c, count_occ Nat.eq_dec (syncCallbacks (removeSyncCallback callback m)) c =
             if Nat.eqb c callback
             then Nat.pred (count_occ Nat.eq_dec (syncCallbacks m) c)
             else count_occ Nat.eq_dec (syncCallbacks m) c) /\
  (~ In callback (syncCallbacks m) ->
   syncCallbacks (removeSyncCallback callback (addSyncCallback callback m)) =
   syncCallbacks m).
Proof.
  split.
  - intros c. apply spliceFirst_count.
  - cbn [removeSyncCallback addSyncCallback syncCallbacks].
    induction (syncCallbacks m) as [|a r IH]; intros H; cbn [app spliceFirst].
    + now rewrite Nat.eqb_refl.
    + destruct (Nat.eqb_spec a callback) as [->|N].
      * exfalso. apply H. now left.
      * f_equal. apply IH. intros Hin. apply H. now right.
Qed.

Lemma removeSyncCallback_once_witness :
  syncCallbacks (removeSyncCallback 7 (addSyncCallback 7 unheard)) =
  syncCallbacks unheard.
Proof.
  refine (proj2 (@removeSyncCallback_once 7 unheard) _).
  intros [].
Defined.

End OfflineOrder.

(** ** More on the webhook manager *)

Module WebhookMore.
Import Spec WebhookSpec.
Import WebhookManager WebhookQueries FlushFacts.
Local Open Scope list_scope.

(** X25: the linear strategy: the delay before the jitter is the base
    delay times the attempt number, capped by the maximum; with a base delay
    that is not negative it never shrinks from one attempt to the next, and
    the instant of the retry lies less than the maximum plus one second
    after the clock. *)
Theorem backoff_linear (c : RetryConfig) (a b : Z) (clock rnd : R) :
  backoffStrategy c = linear ->
  0 <= baseDelay c ->
  (a <= b)%Z ->
  0 <= rnd < 1 ->
  backoffDelay c a = Rmin (baseDelay c * IZR a) (maxDelay c) /\
  backoffDelay c a <= backoffDelay c b /\
  clock + backoffDelay c a <= calculateNextRetryTime clock rnd c a
    < clock + maxDelay c + 1000.
Proof.
  intros S B L J. unfold calculateNextRetryTime, scheduledDelay, backoffDelay.
  rewrite S. split; [reflexivity|]. split.
  - apply Rle_min_compat_r. apply Rmult_le_compat_l; [exact B|]. now apply IZR_le.
  - pose proof (Rmin_r (baseDelay c * IZR a) (maxDelay c)). lra.
Qed.

Lemma backoff_linear_witness :
  backoffDelay linearRetry 2 <= backoffDelay linearRetry 3.
Proof.
  refine (proj1 (proj2 (@backoff_linear linearRetry 2 3 0 0 eq_refl _ _ _))).
  - cbn. lra.
  - lia.
  - lra.
Defined.

Lemma attemptAt_nth e hooks batch queue i :
  nth_error (attemptAt e hooks batch queue) i =
  option_map (fun d => if SyncSpec.mem i batch then attemptDelivery e hooks d else d)
             (nth_error queue i).
Proof.
  unfold attemptAt.
  rewrite (nth_error_indexed
             (fun p => if existsb (Nat.eqb (fst p)) batch
                       then attemptDelivery e hooks (snd p) else snd p) queue 0 i).
  reflexivity.
Qed.

Lemma length_attemptAt e hooks batch queue :
  List.length (attemptAt e hooks batch queue) = List.length queue.
Proof.
  unfold attemptAt. rewrite length_map, length_combine, length_seq. lia.
Qed.

Lemma duePositions_due e queue p :
  In p (duePositions e queue) ->
  exists d, nth_error queue p = Some d /\ isDue e d = true.
Proof.
  unfold duePositions. intros H. apply in_map_iff in H.
  destruct H as ([i d] & <- & H). apply filter_In in H. destruct H as [H D].
  apply In_indexed in H. destruct H as [_ H]. rewrite Nat.sub_0_r in H.
  exists d. auto.
Qed.

Lemma duePositions_NoDup e queue : NoDup (duePositions e queue).
Proof.
  unfold duePositions. apply NoDup_map_fst_filter.
  rewrite map_fst_indexed. apply seq_NoDup.
Qed.

Lemma isDue_isOpen e d : isDue e d = true -> isOpen d = true.
Proof. unfold isDue, isOpen. destruct (status d); auto. Qed.

Lemma firstn_misses {X} (n : nat) : forall (l : list X) i p,
  NoDup l -> nth_error l i = Some p -> (n <= i)%nat -> ~ In p (firstn n l).
Proof.
  induction n as [|n IH]; intros l i p Hnd Hn Hi; [intros []|].
  destruct l as [|a r]; [intros []|].
  destruct i as [|i]; [lia|]. cbn [nth_error firstn] in *.
  inversion Hnd as [|x xs Hx Hr]; subst.
  intros [->|Hin].
  - apply Hx. eapply nth_error_In; eauto.
  - apply (IH r i p Hr Hn); [lia|exact Hin].
Qed.

Lemma firstn_sub {X} (n : nat) : forall (l : list X) x, In x (firstn n l) -> In x l.
Proof.
  induction n as [|n IH]; intros l x H; [destruct H|].
  destruct l as [|a r]; [destruct H|]. cbn [firstn] in H.
  destruct H as [->|H]; [now left|right; now apply IH].
Qed.

Lemma pass_queue e m :
  isProcessing m = false ->
  deliveryQueue (processDeliveryQueue e m) =
  filter isOpen (attemptAt e (webhooks m) (attempted e (deliveryQueue m))
                           (deliveryQueue m)) \/
  deliveryQueue m = [].
Proof.
  intros Hp. unfold processDeliveryQueue. rewrite Hp. cbn [orb].
  destruct (deliveryQueue m) as [|d r] eqn:E; [now right|].
  left. reflexivity.
Qed.

(** X26: a pass over the delivery queue leaves only open deliveries:
    every delivery left is pending or retrying, so that
    [retryFailedDeliveries] then finds nothing to reset and
    [getPendingDeliveries] returns the whole queue.  The queue does not grow;
    an open delivery that is not due stays as it is, and so does every due
    delivery after the tenth. *)
Theorem processDeliveryQueue_pass (e : Env) (m : Manager) (id : option string) :
  isProcessing m = false ->
  let m' := processDeliveryQueue e m in
  Forall (fun d => isOpen d = true) (deliveryQueue m') /\
  (List.length (deliveryQueue m') <= List.length (deliveryQueue m))%nat /\
  (forall d, In d (deliveryQueue m) -> isDue e d = false -> isOpen d = true ->
             In d (deliveryQueue m')) /\
  (forall i p d, nth_error (duePositions e (deliveryQueue m)) i = Some p ->
                 (10 <= i)%nat -> nth_error (deliveryQueue m) p = Some d ->
                 In d (deliveryQueue m')) /\
  fst (retryFailedDeliveries id m') = 0%nat /\
  getPendingDeliveries None m' = deliveryQueue m'.
Proof.
  intros Hp m'.
  assert (Open : Forall (fun d => isOpen d = true) (deliveryQueue m')).
  { destruct (pass_queue e m Hp) as [E|E].
    - unfold m'. rewrite E. apply Forall_forall. intros d Hd.
      apply filter_In in Hd. tauto.
    - unfold m', processDeliveryQueue. rewrite Hp, E. cbn. rewrite E. constructor. }
  split; [exact Open|].
  assert (Keep : forall p d, nth_error (deliveryQueue m) p = Some d ->
                   ~ In p (attempted e (deliveryQueue m)) -> isOpen d = true ->
                   In d (deliveryQueue m')).
  { intros p d Hn Hnot Ho. destruct (pass_queue e m Hp) as [E|E].
    - unfold m'. rewrite E. apply filter_In. split; [|exact Ho].
      apply (nth_error_In _ p). rewrite attemptAt_nth, Hn. cbn [option_map].
      now rewrite (proj2 (mem_not_In p _) Hnot).
    - rewrite E in Hn. destruct p; discriminate. }
  split.
  { destruct (pass_queue e m Hp) as [E|E].
    - unfold m'. rewrite E.
      rewrite <- (length_attemptAt e (webhooks m) (attempted e (deliveryQueue m))
                                   (deliveryQueue m)).
      apply filter_length_le.
    - unfold m', processDeliveryQueue. rewrite Hp, E. cbn. rewrite E. cbn. lia. }
  split.
  { intros d Hin Hd Ho. apply In_nth_error in Hin. destruct Hin as [p Hn].
    apply (Keep p d Hn); [|exact Ho]. intros Hb. unfold attempted in Hb.
    apply firstn_sub in Hb. apply duePositions_due in Hb.
    destruct Hb as (d' & Hn' & Hd'). congruence. }
  split.
  { intros i p d Hi Hge Hn. apply (Keep p d Hn).
    - unfold attempted. eapply firstn_misses; eauto. apply duePositions_NoDup.
    - apply nth_error_In in Hi. apply duePositions_due in Hi.
      destruct Hi as (d' & Hn' & Hd'). apply (isDue_isOpen e).
      congruence. }
  split.
  - cbn [retryFailedDeliveries fst]. rewrite filter_none; [reflexivity|].
    intros d Hd. rewrite Forall_forall in Open. specialize (Open d Hd).
    unfold isOpen in Open. unfold isFailed. destruct (status d); try discriminate; reflexivity.
  - unfold getPendingDeliveries. apply forallb_filter_id. apply forallb_forall.
    intros d Hd. rewrite Forall_forall in Open. rewrite (Open d Hd). reflexivity.
Qed.

Lemma processDeliveryQueue_pass_witness :
  fst (retryFailedDeliveries None
         (processDeliveryQueue (failingAt 0) (oneDelivery queuedDelivery))) = 0%nat.
Proof.
  refine (proj1 (proj2 (proj2 (proj2 (proj2
            (@processDeliveryQueue_pass (failingAt 0) (oneDelivery queuedDelivery)
                                        None _)))))).
  reflexivity.
Defined.

(** X27: [removeWebhook] answers whether the webhook was registered.  When
    it was, the webhook is gone and so is every delivery queued for it, while
    the deliveries of the other webhooks stay, in order; when it was not,
    nothing changes, and deliveries queued under that id stay in the
    queue. *)
Theorem removeWebhook_purges (id : string) (m : Manager) :
  let removed := fst (removeWebhook id m) in
  let m' := snd (removeWebhook id m) in
  removed = JsMap.has string_dec (webhooks m) id /\
  (removed = true ->
   JsMap.get string_dec (webhooks m') id = None /\
   Forall (fun d => webhookId d <> id) (deliveryQueue m') /\
   filter (fun d => negb (String.eqb (webhookId d) id)) (deliveryQueue m) =
     deliveryQueue m' /\
   forall k, k <> id ->
     JsMap.get string_dec (webhooks m') k = JsMap.get string_dec (webhooks m) k) /\
  (removed = false -> m' = m).
Proof.
  intros removed m'. unfold removed, m', removeWebhook, JsMap.has.
  destruct (JsMap.get string_dec (webhooks m) id) as [w|] eqn:E; cbn [fst snd].
  - split; [reflexivity|]. split; [|discriminate]. intros _.
    cbn [webhooks deliveryQueue].
    split; [apply JsMapFacts.get_delete_eq|].
    split.
    + apply Forall_forall. intros d Hd. apply filter_In in Hd. destruct Hd as [_ Hd].
      apply negb_true_iff in Hd. intros Heq. rewrite Heq, String.eqb_refl in Hd.
      discriminate.
    + split; [reflexivity|]. intros k Hk. now apply JsMapFacts.get_delete_neq.
  - split; [reflexivity|]. split; [discriminate|reflexivity].
Qed.

Lemma removeWebhook_purges_witness :
  JsMap.get string_dec
    (webhooks (snd (removeWebhook "hook" (oneDelivery queuedDelivery)))) "hook" = None.
Proof.
  refine (proj1 (proj1 (proj2 (@removeWebhook_purges "hook"
                                 (oneDelivery queuedDelivery))) _)).
  reflexivity.
Defined.

End WebhookMore.

(** ** Statistics, rate limit and signature of the webhook manager *)

Module WebhookLimits.
Import Spec WebhookSpec.
Import WebhookManager WebhookQueries.
Local Open Scope list_scope.

Lemma recorded_from clock id outcomes : forall stats s,
  JsMap.get string_dec stats id = Some s ->
  (0 <= totalAttempts s)%Z ->
  exists s',
    JsMap.get string_dec (recorded clock id outcomes stats) id = Some s' /\
    totalAttempts s' = (totalAttempts s + Z.of_nat (List.length outcomes))%Z /\
    failedDeliveries s' = (failedDeliveries s + Z.of_nat (failures outcomes))%Z /\
    (successfulDeliveries s' + failedDeliveries s' =
     successfulDeliveries s + failedDeliveries s + Z.of_nat (List.length outcomes))%Z /\
    averageResponseTime s' * IZR (totalAttempts s') =
      averageResponseTime s * IZR (totalAttempts s) + sumTimes outcomes /\
    (outcomes <> [] ->
     errorRate s' = IZR (failedDeliveries s') / IZR (totalAttempts s')).
Proof.
  induction outcomes as [|[ok rt] r IH]; intros stats s Hs Hpos.
  - exists s. cbn [recorded fold_left List.length failures filter sumTimes fold_right].
    rewrite !Z.add_0_r. repeat split; auto; try lra. congruence.
  - unfold recorded. cbn [fold_left fst snd]. fold (recorded clock id r).
    unfold updateStats at 2. rewrite Hs.
    destruct (IH (JsMap.set string_dec stats id (updated clock ok rt s))
                 (updated clock ok rt s)) as (s' & A & B & C & D & E & F).
    { apply JsMapFacts.get_set_eq. }
    { cbn [updated totalAttempts]. lia. }
    exists s'. split; [exact A|].
    assert (Hne : IZR (totalAttempts s + 1) <> 0).
    { apply not_0_IZR. lia. }
    cbn [updated totalAttempts failedDeliveries successfulDeliveries
         averageResponseTime] in B, C, D, E.
    split; [rewrite B; cbn [List.length]; lia|].
    split.
    { rewrite C. unfold failures. cbn [filter fst].
      destruct ok; cbn [negb List.length]; lia. }
    split.
    { rewrite D. cbn [List.length]. destruct ok; lia. }
    split.
    { rewrite E. cbn [sumTimes fold_right snd]. fold (sumTimes r).
      rewrite plus_IZR in *. field_simplify_eq; [lra|exact Hne]. }
    intros _. destruct r as [|o r'].
    + cbn [recorded fold_left] in A. rewrite JsMapFacts.get_set_eq in A.
      injection A as <-. reflexivity.
    + apply F. discriminate.
Qed.

(** X28: the statistics of a webhook, from [initializeStats] through any
    run of requests: the attempts are counted, the successes and the failures
    add up to the attempts, the average response time is the sum of the
    response times divided by their number, and the error rate is the share
    of the failures, between 0 and 1. *)
Theorem updateStats_mean (clock : R) (id : string) (outcomes : list (bool * R))
        (stats : list (string * WebhookStats)) :
  outcomes <> [] ->
  exists s,
    JsMap.get string_dec (recorded clock id outcomes (initializeStats id stats)) id
      = Some s /\
    totalAttempts s = Z.of_nat (List.length outcomes) /\
    failedDeliveries s = Z.of_nat (failures outcomes) /\
    (successfulDeliveries s + failedDeliveries s = totalAttempts s)%Z /\
    averageResponseTime s = sumTimes outcomes / INR (List.length outcomes) /\
    errorRate s = INR (failures outcomes) / INR (List.length outcomes) /\
    0 <= errorRate s <= 1.
Proof.
  intros Hne.
  destruct (@recorded_from clock id outcomes (initializeStats id stats)
              {| s_webhookId := id; totalAttempts := 0; successfulDeliveries := 0;
                 failedDeliveries := 0; averageResponseTime := 0;
                 lastDeliveryAt := None; lastSuccessAt := None; lastFailureAt := None;
                 errorRate := 0 |}) as (s & A & B & C & D & E & F).
  { apply JsMapFacts.get_set_eq. }
  { cbn. lia. }
  cbn [totalAttempts failedDeliveries successfulDeliveries averageResponseTime] in *.
  rewrite Z.add_0_l in B, C. 
  exists s. split; [exact A|]. split; [exact B|]. split; [exact C|].
  split; [lia|].
  assert (Hlen : (0 < List.length outcomes)%nat).
  { destruct outcomes; [congruence|cbn; lia]. }
  assert (Hpos : 0 < INR (List.length outcomes)) by (apply lt_0_INR; exact Hlen).
  assert (Hfail : (failures outcomes <= List.length outcomes)%nat)
    by apply filter_length_le.
  assert (Hrate : errorRate s = INR (failures outcomes) / INR (List.length outcomes)).
  { rewrite (F Hne), B, C, <- !INR_IZR_INZ. reflexivity. }
  split.
  { rewrite B, <- INR_IZR_INZ in E. rewrite Rmult_0_l, Rplus_0_l in E.
    rewrite <- E. field. lra. }
  split; [exact Hrate|].
  rewrite Hrate. apply le_INR in Hfail.
  pose proof (pos_INR (failures outcomes)).
  split.
  - apply Rmult_le_pos; [lra|]. apply Rlt_le, Rinv_0_lt_compat, Hpos.
  - apply Rmult_le_reg_r with (INR (List.length outcomes)); [exact Hpos|].
    replace (INR (failures outcomes) / INR (List.length outcomes) *
             INR (List.length outcomes)) with (INR (failures outcomes))
      by (field; lra).
    lra.
Qed.

Lemma updateStats_mean_witness :
  exists s,
    JsMap.get string_dec
      (recorded 0 "hook" [(true, 100); (false, 300)] (initializeStats "hook" [])) "hook"
      = Some s /\
    totalAttempts s = 2%Z.
Proof.
  destruct (@updateStats_mean 0 "hook"%string [(true, 100); (false, 300)] [])
    as (s & A & B & _).
  - discriminate.
  - exists s. split; [exact A|exact B].
Defined.

Lemma calls_cons id limit t ts st :
  calls id limit (t :: ts) st =
  calls id limit ts
    (let (ok, tracking) := checkRateLimit t id (Some limit) (snd st) in
     ((if ok then S (fst st) else fst st), tracking)).
Proof. reflexivity. Qed.

Lemma calls_window id limit k reset times :
  forall (n : nat) (tracking : list (string * Tracking)) (r : Z),
  maxRequests limit = IZR k ->
  JsMap.get string_dec tracking id = Some {| requests := r; resetTime := reset |} ->
  Forall (fun t => t < reset) times ->
  exists tracking',
    calls id limit times (n, tracking) =
      (Z.to_nat (Z.of_nat n + (Z.max r (Z.min (r + Z.of_nat (List.length times)) k) - r)),
       tracking') /\
    JsMap.get string_dec tracking' id =
      Some {| requests := Z.max r (Z.min (r + Z.of_nat (List.length times)) k);
              resetTime := reset |}.
Proof.
  induction times as [|t ts IH]; intros n tracking r Hk Ht Hall.
  - exists tracking. cbn [calls fold_left List.length]. split.
    + f_equal. lia.
    + rewrite Ht. do 2 f_equal. lia.
  - inversion Hall as [|x xs Hx Hxs]; subst.
    rewrite calls_cons. cbn [snd fst]. unfold checkRateLimit.
    rewrite Ht. cbn [resetTime requests].
    replace (Rleb reset t) with false
      by (symmetry; apply Rleb_false; exact Hx).
    rewrite Hk.
    destruct (Rleb (IZR k) (IZR r)) eqn:L; cbv beta iota.
    + apply Rleb_true in L. apply le_IZR in L.
      destruct (IH n tracking r Hk Ht Hxs) as (tr' & A & B).
      exists tr'. rewrite A. split.
      * f_equal. cbn [List.length]. lia.
      * rewrite B. do 2 f_equal. cbn [List.length]. lia.
    + apply Rleb_false in L. apply lt_IZR in L.
      destruct (IH (S n) (JsMap.set string_dec tracking id
                            {| requests := (r + 1)%Z; resetTime := reset |})
                   (r + 1)%Z Hk) as (tr' & A & B).
      { apply JsMapFacts.get_set_eq. }
      { exact Hxs. }
      exists tr'. rewrite A. split.
      * f_equal. cbn [List.length]. lia.
      * rewrite B. do 2 f_equal. cbn [List.length]. lia.
Qed.

(** X29: the rate limit of a webhook, for a limit of [k] requests per
    window: of the calls that fall into the window that the first call opens,
    the first [k] are let through and the others refused; the first call
    itself is always let through, also when [k] is 0 or negative. *)
Theorem checkRateLimit_window (id : string) (limit : RateLimit) (k : Z)
        (t0 : R) (times : list R) (tracking : list (string * Tracking)) :
  maxRequests limit = IZR k ->
  JsMap.get string_dec tracking id = None ->
  Forall (fun t => t < t0 + windowMs limit) times ->
  Z.of_nat (fst (calls id limit (t0 :: times) (0%nat, tracking))) =
  Z.max 1 (Z.min (1 + Z.of_nat (List.length times)) k).
Proof.
  intros Hk Hn Hall. rewrite calls_cons. cbn [snd fst].
  unfold checkRateLimit. rewrite Hn. cbv beta iota.
  destruct (@calls_window id limit k (t0 + windowMs limit) times 1%nat
              (JsMap.set string_dec tracking id
                 {| requests := 1; resetTime := t0 + windowMs limit |}) 1%Z Hk)
    as (tr' & A & _).
  { apply JsMapFacts.get_set_eq. }
  { exact Hall. }
  rewrite A. cbn [fst]. lia.
Qed.

Lemma checkRateLimit_window_witness :
  Z.of_nat (fst (calls "hook" {| maxRequests := 0; windowMs := 1000 |}
                       [0; 1; 2] (0%nat, []))) = 1%Z.
Proof.
  apply (@checkRateLimit_window "hook"%string {| maxRequests := 0; windowMs := 1000 |}
           0%Z 0 [1; 2] []).
  - reflexivity.
  - reflexivity.
  - cbn [windowMs]. repeat constructor; lra.
Defined.

Lemma btoa_triples (k : nat) : forall head tail,
  String.length head = (3 * k)%nat ->
  btoa (head ++ tail) = (btoa head ++ btoa tail)%string /\
  String.length (btoa head) = (4 * k)%nat.
Proof.
  induction k as [|k IH]; intros head tail H.
  - destruct head; [|discriminate]. split; reflexivity.
  - destruct head as [|a [|b [|c r]]]; try (cbn in H; lia).
    assert (Hr : String.length r = (3 * k)%nat) by (cbn in H; lia).
    destruct (IH r tail Hr) as [A B].
    cbn [String.append btoa String.length]. rewrite A, B. split; [reflexivity|lia].
Qed.

Lemma substring_prefix (x y : string) :
  String.substring 0 (String.length x) (x ++ y) = x.
Proof.
  induction x as [|a r IH]; cbn [String.length String.append String.substring].
  - destruct y; reflexivity.
  - now rewrite IH.
Qed.

Lemma string_split (n : nat) : forall s,
  (n <= String.length s)%nat ->
  exists head tail, s = (head ++ tail)%string /\ String.length head = n.
Proof.
  induction n as [|n IH]; intros s H.
  - exists EmptyString, s. split; reflexivity.
  - destruct s as [|a r]; [cbn in H; lia|].
    destruct (IH r) as (h & t & -> & L); [cbn in H; lia|].
    exists (String a h), t. split; [reflexivity|cbn; now rewrite L].
Qed.

Lemma append_assoc3 (x y z : string) :
  ((x ++ y) ++ z = x ++ (y ++ z))%string.
Proof. induction x as [|a r IH]; cbn [String.append]; [reflexivity|now rewrite IH]. Qed.

Lemma hmacSha256_head head tail key :
  String.length head = 24%nat ->
  hmacSha256 (head ++ tail) key = btoa head.
Proof.
  intros H. unfold hmacSha256. rewrite append_assoc3.
  destruct (@btoa_triples 8 head (tail ++ key)%string H) as [A B].
  rewrite A. change 32%nat with (4 * 8)%nat. rewrite <- B.
  apply substring_prefix.
Qed.

(** X30: the signature is the first 32 characters of the base-64 text of
    the payload followed by the key, which encode the first 24 bytes.  For a
    payload of 24 bytes or more the key therefore plays no part: the
    signature is the same under every key, and a signature made with one
    key is verified under any other. *)
Theorem hmacSha256_ignores_key (data key key' : string) :
  (24 <= String.length data)%nat ->
  hmacSha256 data key = hmacSha256 data key' /\
  verifySignature key' data (hmacSha256 data key) = true.
Proof.
  intros H. destruct (@string_split 24%nat data H) as (head & tail & -> & L).
  assert (E : hmacSha256 (head ++ tail) key = hmacSha256 (head ++ tail) key')
    by (now rewrite !hmacSha256_head).
  split; [exact E|].
  unfold verifySignature. rewrite E. apply String.eqb_refl.
Qed.

Lemma hmacSha256_ignores_key_witness :
  hmacSha256 "{'regionId':'home','eventType':'enter'}" "secret" =
  hmacSha256 "{'regionId':'home','eventType':'enter'}" "another".
Proof.
  refine (proj1 (@hmacSha256_ignores_key _ "secret" "another" _)).
  vm_compute. lia.
Defined.

End WebhookLimits.
